(** * A shallow embedding of the order book of [orderbook/orderbook.go]

    The Go program keeps its orders and price levels ("limits") as
    heap objects linked by pointers: an [Order] points to the next
    order of its queue, a [Limit] owns a queue header with a [front]
    and a [rear] pointer, and the book holds two slices and two maps
    of pointers to limits.  Several properties of the program depend
    on which pointers alias, so the embedding keeps an explicit store:
    two lists of cells indexed by address, with allocation at the end.

    Conventions.
    - A Go pointer is an [option addr]; [None] is [nil].  Reading or
      writing through [nil] is a run-time panic, which the embedding
      records as the outcome [Panic], together with the store as it
      was when the panic was raised.
    - [float64] is taken in two ways.  The definitions that follow,
      on which the general theorems are proved, idealise it as the
      exact rationals [Q], every result being put in lowest terms:
      rounding, infinities and NaN are out of this model.  What is
      proved on it is stated with the comparisons of the code and
      with the results of the operations that the code performs, and
      the numbers of its concrete runs are small integers and halves
      of integers, for which binary64 arithmetic is exact.  The
      module [Binary64] holds the same program on binary64 numbers,
      for the runs whose outcome rounding decides.
    - [uuid.New()] and [time.Now()] are read from a counter [tick]
      that is advanced at each call: successive identifiers differ.
    - The loops that follow [next] pointers are given a fuel equal to
      the number of order cells; the outcome [OutOfFuel] is never
      produced in a process started with [New()], whose [next]
      pointers always go to younger cells (see [wf_call]). *)

From Stdlib Require Import QArith Qreduction Lqa Lia Permutation.
From Stdlib Require PrimFloat.
From stdpp Require Import base option list sorting.

Local Open Scope Q_scope.

(** ** Numbers *)

Definition float64 : Type := Q.

Definition fadd (x y : float64) : float64 := Qred (x + y).
Definition fsub (x y : float64) : float64 := Qred (x - y).
Definition fdiv (x y : float64) : float64 := Qred (x / y).

(** [x < y], [x <= y], [x == y] of Go, as booleans. *)
Definition flt (x y : float64) : bool := negb (Qle_bool y x).
Definition fle (x y : float64) : bool := Qle_bool x y.
Definition feq (x y : float64) : bool := Qeq_bool x y.

(** ** Data *)

(** Identifiers and store addresses are numbers. *)
Abbreviation UUID := nat.
Abbreviation addr := nat.

(** [type Order struct { id; qty; timestamp; next *Order }] *)
Record Order : Type := mkOrder {
  o_id : UUID;
  o_qty : float64;
  o_timestamp : nat;
  o_next : option addr
}.

(** [type OrderQueue struct { rear, front *Order }].  A limit creates
    its queue header in [newLimit] and never replaces or shares it, so
    the header is kept inside the limit cell. *)
Record OrderQueue : Type := mkQueue {
  q_rear : option addr;
  q_front : option addr
}.

(** [type Limit struct { Price; Volume; orders *OrderQueue }] *)
Record Limit : Type := mkLimit {
  l_Price : float64;
  l_Volume : float64;
  l_orders : OrderQueue
}.

(** A Go [map[float64]*Limit]: keys are compared with [==]. *)
Definition LimitMap : Type := list (float64 * addr).

Fixpoint map_get (m : LimitMap) (k : float64) : option addr :=
  match m with
  | [] => None
  | (k', v) :: m' => if feq k' k then Some v else map_get m' k
  end.

Definition map_delete (m : LimitMap) (k : float64) : LimitMap :=
  filter (fun kv => feq (fst kv) k = false) m.

Definition map_set (m : LimitMap) (k : float64) (v : addr) : LimitMap :=
  (k, v) :: map_delete m k.

(** [type OrderBook struct] *)
Record OrderBook : Type := mkBook {
  BuyLimits : list addr;
  SellLimits : list addr;
  buyLimitsMap : LimitMap;
  sellLimitsMap : LimitMap;
  Price : float64
}.

(** The store: order cells, limit cells, the counter behind
    [uuid.New]/[time.Now], and the one order book of the process. *)
Record State : Type := mkState {
  omem : list Order;
  lmem : list Limit;
  tick : nat;
  ob : OrderBook
}.

(** The [error] values built by [errors.New] in the source. *)
Inductive error : Type :=
| ErrNoSuchOrder          (* "no order having this id in this limit" *)
| ErrNoLimits             (* "order-book as 0 buy or sell limits" *)
| ErrPrice                (* "can't place order if Price <= 0" *)
| ErrQuantity             (* "can't place order if quantity <= 0" *)
| ErrBuyAboveMid          (* "can't place a buy limit order higher than midPrice" *)
| ErrSellBelowMid         (* "can't place a sell limit order lower than midPrice" *)
| ErrMarketQuantity       (* "error, market order qty <= 0" *)
| ErrMarketVolume.        (* "can't execute market order : order qty > total Volume" *)

(** ** Outcomes and the store monad *)

Inductive result (A : Type) : Type :=
| Ok (a : A) (s : State)
| Panic (s : State)
| OutOfFuel (s : State).
Arguments Ok {A} a s.
Arguments Panic {A} s.
Arguments OutOfFuel {A} s.

Definition M (A : Type) : Type := State -> result A.

Definition state_of {A} (r : result A) : State :=
  match r with Ok _ s => s | Panic s => s | OutOfFuel s => s end.

#[global] Instance M_ret : MRet M := fun A a s => Ok a s.
#[global] Instance M_bind : MBind M := fun A B f m s =>
  match m s with
  | Ok a s' => f a s'
  | Panic s' => Panic s'
  | OutOfFuel s' => OutOfFuel s'
  end.

Definition panic {A} : M A := fun s => Panic s.
Definition out_of_fuel {A} : M A := fun s => OutOfFuel s.
Definition get_state : M State := fun s => Ok s s.
Definition get_book : M OrderBook := fun s => Ok (ob s) s.
Definition set_book (b : OrderBook) : M unit := fun s =>
  Ok tt (mkState (omem s) (lmem s) (tick s) b).

(** Dereferencing. *)
Definition loadO (p : option addr) : M Order := fun s =>
  match p with
  | Some a => match omem s !! a with Some o => Ok o s | None => Panic s end
  | None => Panic s
  end.

Definition loadL (p : option addr) : M Limit := fun s =>
  match p with
  | Some a => match lmem s !! a with Some l => Ok l s | None => Panic s end
  | None => Panic s
  end.

Definition updO (p : option addr) (f : Order -> Order) : M unit := fun s =>
  match p with
  | Some a =>
      match omem s !! a with
      | Some o => Ok tt (mkState (<[a := f o]> (omem s)) (lmem s) (tick s) (ob s))
      | None => Panic s
      end
  | None => Panic s
  end.

Definition updL (p : option addr) (f : Limit -> Limit) : M unit := fun s =>
  match p with
  | Some a =>
      match lmem s !! a with
      | Some l => Ok tt (mkState (omem s) (<[a := f l]> (lmem s)) (tick s) (ob s))
      | None => Panic s
      end
  | None => Panic s
  end.

(** Field assignments. *)
Definition set_next (n : option addr) (o : Order) : Order :=
  mkOrder (o_id o) (o_qty o) (o_timestamp o) n.
Definition set_qty (q : float64) (o : Order) : Order :=
  mkOrder (o_id o) q (o_timestamp o) (o_next o).
Definition set_Volume (v : float64) (l : Limit) : Limit :=
  mkLimit (l_Price l) v (l_orders l).
Definition set_rear (r : option addr) (l : Limit) : Limit :=
  mkLimit (l_Price l) (l_Volume l) (mkQueue r (q_front (l_orders l))).
Definition set_front (f : option addr) (l : Limit) : Limit :=
  mkLimit (l_Price l) (l_Volume l) (mkQueue (q_rear (l_orders l)) f).

(** ** Orders and limits *)

(** [func newOrder(qty float64) *Order] *)
Definition newOrder (qty : float64) : M addr := fun s =>
  let o := mkOrder (tick s) qty (tick s) None in
  Ok (length (omem s))
     (mkState (omem s ++ [o]) (lmem s) (S (tick s)) (ob s)).

(** [func newLimit(Price float64) *Limit] *)
Definition newLimit (price : float64) : M addr := fun s =>
  let l := mkLimit price 0 (mkQueue None None) in
  Ok (length (lmem s))
     (mkState (omem s) (lmem s ++ [l]) (tick s) (ob s)).

(** [func (l *Limit) addOrder(o *Order)] *)
Definition addOrder (l : option addr) (o : option addr) : M unit :=
  lim ← loadL l;
  match q_rear (l_orders lim) with
  | Some r =>
      updO (Some r) (set_next o);;
      r' ← loadO (Some r);
      updL l (set_rear (o_next r'))
  | None =>
      updL l (set_rear o);;
      lim' ← loadL l;
      updL l (set_front (q_rear (l_orders lim')))
  end;;
  ord ← loadO o;
  lim2 ← loadL l;
  updL l (set_Volume (fadd (l_Volume lim2) (o_qty ord))).

(** The [for temp.next != nil] loop of [deleteOrder]. *)
Fixpoint deleteOrder_loop (fuel : nat) (l : option addr) (id : UUID)
    (temp : option addr) : M (option error) :=
  t ← loadO temp;
  match o_next t with
  | None => mret (Some ErrNoSuchOrder)
  | Some n =>
      nx ← loadO (Some n);
      if Nat.eqb (o_id nx) id then
        lim ← loadL l;
        updL l (set_Volume (fsub (l_Volume lim) (o_qty nx)));;
        t' ← loadO temp;
        nx' ← loadO (o_next t');
        updO temp (set_next (o_next nx'));;
        mret None
      else
        match fuel with
        | O => out_of_fuel
        | S fuel' => deleteOrder_loop fuel' l id (Some n)
        end
  end.

(** [func (l *Limit) deleteOrder(id uuid.UUID) error] *)
Definition deleteOrder (l : option addr) (id : UUID) : M (option error) :=
  lim ← loadL l;
  f ← loadO (q_front (l_orders lim));
  if Nat.eqb (o_id f) id then
    updL l (set_Volume (fsub (l_Volume lim) (o_qty f)));;
    updL l (set_front (o_next f));;
    mret None
  else
    s ← get_state;
    deleteOrder_loop (length (omem s)) l id (q_front (l_orders lim)).

(** ** Sorting the slices of limits *)

(** [byLowestPrice.Less] and [byHighestPrice.Less], on the prices. *)
Definition byLowestPrice (x y : float64) : bool := flt x y.
Definition byHighestPrice (x y : float64) : bool := flt y x.

(** [sort.Sort] reads the price of every limit of the slice through
    its pointer; [load_prices] does these reads once. *)
Fixpoint load_prices (l : list addr) : M (list (float64 * addr)) :=
  match l with
  | [] => mret []
  | a :: l' =>
      lim ← loadL (Some a);
      ps ← load_prices l';
      mret ((l_Price lim, a) :: ps)
  end.

(** Insertion of one element into a sorted prefix: the element moves
    left as long as it is [less] than its left neighbour. *)
Fixpoint insert_by (less : float64 -> float64 -> bool)
    (x : float64 * addr) (l : list (float64 * addr)) : list (float64 * addr) :=
  match l with
  | [] => [x]
  | y :: l' =>
      if less (fst x) (fst y) then x :: y :: l' else y :: insert_by less x l'
  end.

(** [sort.Sort] as an insertion sort, which is what Go runs on short
    slices.  On longer slices Go's algorithm may order limits of equal
    price differently; slices whose prices are pairwise different have
    one sorted arrangement only. *)
Definition sort_by (less : float64 -> float64 -> bool)
    (l : list (float64 * addr)) : list (float64 * addr) :=
  foldl (fun acc x => insert_by less x acc) [] l.

(** ** The order book *)

Definition limitsOf (buy : bool) (b : OrderBook) : list addr :=
  if buy then BuyLimits b else SellLimits b.

Definition mapOf (buy : bool) (b : OrderBook) : LimitMap :=
  if buy then buyLimitsMap b else sellLimitsMap b.

Definition with_limits (buy : bool) (v : list addr) (b : OrderBook) : OrderBook :=
  if buy then mkBook v (SellLimits b) (buyLimitsMap b) (sellLimitsMap b) (Price b)
  else mkBook (BuyLimits b) v (buyLimitsMap b) (sellLimitsMap b) (Price b).

Definition with_map (buy : bool) (m : LimitMap) (b : OrderBook) : OrderBook :=
  if buy then mkBook (BuyLimits b) (SellLimits b) m (sellLimitsMap b) (Price b)
  else mkBook (BuyLimits b) (SellLimits b) (buyLimitsMap b) m (Price b).

Definition with_Price (p : float64) (b : OrderBook) : OrderBook :=
  mkBook (BuyLimits b) (SellLimits b) (buyLimitsMap b) (sellLimitsMap b) p.

Definition set_limits (buy : bool) (v : list addr) : M unit :=
  b ← get_book; set_book (with_limits buy v b).
Definition set_map (buy : bool) (m : LimitMap) : M unit :=
  b ← get_book; set_book (with_map buy m b).
Definition set_Price (p : float64) : M unit :=
  b ← get_book; set_book (with_Price p b).

(** [func New() *OrderBook], with an empty store. *)
Definition New : State := mkState [] [] 0 (mkBook [] [] [] [] 0).

Definition sortLimits (buy : bool) : M unit :=
  b ← get_book;
  ps ← load_prices (limitsOf buy b);
  set_limits buy
    (map snd (sort_by (if buy then byHighestPrice else byLowestPrice) ps)).

(** [func (ob *OrderBook) addLimit(buyLimit bool, l *Limit)] *)
Definition addLimit (buyLimit : bool) (l : option addr) : M unit :=
  lim ← loadL l;
  match l with
  | None => panic
  | Some a =>
      b ← get_book;
      set_map buyLimit (map_set (mapOf buyLimit b) (l_Price lim) a);;
      b' ← get_book;
      set_limits buyLimit (limitsOf buyLimit b' ++ [a]);;
      sortLimits buyLimit
  end.

(** [func (ob *OrderBook) canDeleteLimit(buyLimit bool) bool] *)
Definition canDeleteLimit (buyLimit : bool) (b : OrderBook) : bool :=
  Nat.ltb 1 (length (limitsOf buyLimit b)).

(** [func (ob *OrderBook) deleteLimit(buyLimit bool, pos int, Price float64)].
    The first assignment panics when [pos] or [len-1] is out of range. *)
Definition deleteLimit (buyLimit : bool) (pos : nat) (price : float64) : M unit :=
  b ← get_book;
  let ls := limitsOf buyLimit b in
  match last ls with
  | None => panic
  | Some lst =>
      if Nat.ltb pos (length ls) then
        set_limits buyLimit (<[pos := lst]> ls);;
        b1 ← get_book;
        set_limits buyLimit
          (take (length (limitsOf buyLimit b1) - 1) (limitsOf buyLimit b1));;
        b2 ← get_book;
        set_map buyLimit (map_delete (mapOf buyLimit b2) price);;
        sortLimits buyLimit
      else panic
  end.

(** [func (ob *OrderBook) getMidPrice() (float64, error)] *)
Definition getMidPrice : M (float64 * option error) :=
  b ← get_book;
  match BuyLimits b, SellLimits b with
  | bl :: _, sl :: _ =>
      lb ← loadL (Some bl);
      ls ← loadL (Some sl);
      mret (fdiv (fadd (l_Price lb) (l_Price ls)) 2, None)
  | _, _ => mret (0, Some ErrNoLimits)
  end.

(** [func (ob *OrderBook) getSpread() (float64, error)] *)
Definition getSpread : M (float64 * option error) :=
  b ← get_book;
  match BuyLimits b, SellLimits b with
  | bl :: _, sl :: _ =>
      ls ← loadL (Some sl);
      lb ← loadL (Some bl);
      mret (fsub (l_Price ls) (l_Price lb), None)
  | _, _ => mret (0, None)
  end.

(** The loop of [getTotalVolume] over one slice. *)
Fixpoint sum_volumes (acc : float64) (l : list addr) : M float64 :=
  match l with
  | [] => mret acc
  | a :: l' =>
      lim ← loadL (Some a);
      sum_volumes (fadd acc (l_Volume lim)) l'
  end.

(** [func (ob *OrderBook) getTotalVolume(buyLimits bool) float64] *)
Definition getTotalVolume (buyLimits : bool) : M float64 :=
  b ← get_book;
  sum_volumes 0 (limitsOf buyLimits b).

(** [func (ob *OrderBook) Init(midPrice float64)] *)
Definition Init (midPrice : float64) : M unit :=
  l ← newLimit midPrice;
  o ← newOrder 0;
  addOrder (Some l) (Some o);;
  addLimit true (Some l);;
  addLimit false (Some l).

(** [func (ob *OrderBook) Reset()] *)
Definition Reset : M unit :=
  set_limits true [];;
  set_limits false [];;
  set_map true [];;
  set_map false [];;
  set_Price 0.

(** [func (ob *OrderBook) GetData() ([]*Limit, []*Limit)] *)
Definition GetData : M (list addr * list addr) :=
  b ← get_book; mret (BuyLimits b, SellLimits b).

(** The two tests [ob.canDeleteLimit(b) && ob.XLimits[0].Volume == 0]
    that end [PlaceLimitOrder]; [&&] does not read the slice when the
    side cannot lose a limit. *)
Definition top_is_empty (buy : bool) : M bool :=
  b ← get_book;
  if canDeleteLimit buy b then
    lim ← loadL (head (limitsOf buy b));
    mret (feq (l_Volume lim) 0)
  else mret false.

Definition delete_top (buy : bool) : M unit :=
  b ← get_book;
  lim ← loadL (head (limitsOf buy b));
  deleteLimit buy 0 (l_Price lim).

(** [func (ob *OrderBook) PlaceLimitOrder(buyOrder bool, Price, qty float64)
    (uuid.UUID, error)].  The two branches of [if buyOrder] are the
    same text on the two sides of the book. *)
Definition PlaceLimitOrder (buyOrder : bool) (price qty : float64)
    : M (UUID * option error) :=
  order ← newOrder qty;
  '(midPrice, err) ← getMidPrice;
  o ← loadO (Some order);
  match err with
  | Some e => mret (o_id o, Some e)
  | None =>
      if fle price 0 then mret (o_id o, Some ErrPrice)
      else if fle qty 0 then mret (o_id o, Some ErrQuantity)
      else if buyOrder && flt midPrice price then mret (o_id o, Some ErrBuyAboveMid)
      else if negb buyOrder && flt price midPrice then mret (o_id o, Some ErrSellBelowMid)
      else
        b ← get_book;
        match map_get (mapOf buyOrder b) price with
        | None =>
            limit ← newLimit price;
            addOrder (Some limit) (Some order);;
            addLimit buyOrder (Some limit)
        | Some l => addOrder (Some l) (Some order)
        end;;
        c1 ← top_is_empty true;
        (if (c1 : bool) then delete_top true
         else
           c2 ← top_is_empty false;
           if (c2 : bool) then delete_top false else mret tt);;
        mret (o_id o, None)
  end.

(** The [for i, limit := range ob.XLimits] loop of [CancelLimitOrder].
    The range expression is evaluated once: the loop runs over the
    original length [n] and reads the backing array, which
    [deleteLimit] overwrites in place.  After a deletion the array
    holds the re-sorted shorter slice followed by the entries [stale]
    that the truncation left behind. *)
Fixpoint cancel_range (buy : bool) (price : float64) (n i : nat)
    (stale : list addr) : M unit :=
  match n with
  | O => mret tt
  | S n' =>
      b ← get_book;
      limit ← loadL ((limitsOf buy b ++ stale) !! i);
      stale' ←
        (if feq (l_Price limit) price then
           deleteLimit buy i price;;
           mret (match last (limitsOf buy b) with
                 | Some x => x :: stale
                 | None => stale
                 end)
         else mret stale);
      cancel_range buy price n' (S i) stale'
  end.

(** [func (ob *OrderBook) CancelLimitOrder(id uuid.UUID, Price float64) error].
    [Price < midPrice] selects the buy side, anything else the sell
    side; the two branches are the same text on the two sides. *)
Definition CancelLimitOrder (id : UUID) (price : float64) : M (option error) :=
  '(midPrice, err) ← getMidPrice;
  match err with
  | Some e => mret (Some e)
  | None =>
      let buy := flt price midPrice in
      b ← get_book;
      err ← deleteOrder (map_get (mapOf buy b) price) id;
      match err with
      | Some e => mret (Some e)
      | None =>
          b' ← get_book;
          c ← (if canDeleteLimit buy b' then
                 lim ← loadL (map_get (mapOf buy b') price);
                 mret (feq (l_Volume lim) 0)
               else mret false);
          (if (c : bool) then cancel_range buy price (length (limitsOf buy b')) 0 []
           else mret tt);;
          mret None
      end
  end.

(** First loop of [PlaceMarketOrder]: whole limits.
    [for len(ob.XLimits) > 0 && qty >= ob.XLimits[0].Volume] *)
Fixpoint market_limits (fuel : nat) (side : bool) (qty : float64) : M float64 :=
  b ← get_book;
  match limitsOf side b with
  | [] => mret qty
  | l0 :: _ =>
      lim ← loadL (Some l0);
      if fle (l_Volume lim) qty then
        match fuel with
        | O => out_of_fuel
        | S fuel' =>
            set_Price (l_Price lim);;
            deleteLimit side 0 (l_Price lim);;
            market_limits fuel' side (fsub qty (l_Volume lim))
        end
      else mret qty
  end.

(** Second loop: whole orders at the front of the first limit.
    [for len(ob.XLimits) > 0 && qty >= ob.XLimits[0].orders.front.qty] *)
Fixpoint market_orders (fuel : nat) (side : bool) (qty : float64) : M float64 :=
  b ← get_book;
  match limitsOf side b with
  | [] => mret qty
  | l0 :: _ =>
      lim ← loadL (Some l0);
      fr ← loadO (q_front (l_orders lim));
      if fle (o_qty fr) qty then
        match fuel with
        | O => out_of_fuel
        | S fuel' =>
            set_Price (l_Price lim);;
            updL (Some l0) (set_Volume (fsub (l_Volume lim) (o_qty fr)));;
            updL (Some l0) (set_front (o_next fr));;
            market_orders fuel' side (fsub qty (o_qty fr))
        end
      else mret qty
  end.

(** The last step: [if qty != 0 { ... }], a partial fill of the front
    order of the first limit. *)
Definition market_partial (side : bool) (qty : float64) : M unit :=
  if feq qty 0 then mret tt
  else
    b ← get_book;
    lim ← loadL (head (limitsOf side b));
    set_Price (l_Price lim);;
    fr ← loadO (q_front (l_orders lim));
    updO (q_front (l_orders lim)) (set_qty (fsub (o_qty fr) qty));;
    lim' ← loadL (head (limitsOf side b));
    updL (head (limitsOf side b)) (set_Volume (fsub (l_Volume lim') qty)).

(** [func (ob *OrderBook) PlaceMarketOrder(buyOrder bool, qty float64) error].
    A buy order is executed against the sell side and conversely. *)
Definition PlaceMarketOrder (buyOrder : bool) (qty : float64) : M (option error) :=
  if fle qty 0 then mret (Some ErrMarketQuantity)
  else
    let side := negb buyOrder in
    total ← getTotalVolume side;
    if fle total qty then mret (Some ErrMarketVolume)
    else
      b ← get_book;
      q1 ← market_limits (length (limitsOf side b)) side qty;
      s ← get_state;
      q2 ← market_orders (length (omem s)) side q1;
      market_partial side q2;;
      mret None.

(** What [GET /get_data] reports for one side: price and volume of
    each limit of the slice, in order. *)
Definition level_data (s : State) (a : addr) : option (float64 * float64) :=
  match lmem s !! a with
  | Some l => Some (l_Price l, l_Volume l)
  | None => None
  end.

Definition side_data (buy : bool) (s : State) : list (option (float64 * float64)) :=
  map (level_data s) (limitsOf buy (ob s)).

(** The orders of a queue, from [front] along [next]: identifier and
    remaining quantity.  The walk stops at [nil], at an address that
    holds no cell, or after [fuel] cells. *)
Fixpoint queue_from (fuel : nat) (om : list Order) (p : option addr)
    : list (UUID * float64) :=
  match fuel, p with
  | S fuel', Some a =>
      match om !! a with
      | Some o => (o_id o, o_qty o) :: queue_from fuel' om (o_next o)
      | None => []
      end
  | _, _ => []
  end.

Definition queue_of (s : State) (l : Limit) : list (UUID * float64) :=
  queue_from (length (omem s)) (omem s) (q_front (l_orders l)).

(** Sum of the remaining quantities of the orders of a queue. *)
Definition queue_volume (s : State) (l : Limit) : float64 :=
  foldl (fun acc iq => fadd acc (snd iq)) 0 (queue_of s l).

(** ** Sequences of calls *)

(** The calls a client of the book can make.  [OpData] is the read of
    [GET /get_data]. *)
Inductive op : Type :=
| OpInit (midPrice : float64)
| OpReset
| OpLimit (buyOrder : bool) (price qty : float64)
| OpCancel (id : UUID) (price : float64)
| OpMarket (buyOrder : bool) (qty : float64)
| OpData.

(** One call, its result dropped. *)
Definition call (o : op) : M unit :=
  match o with
  | OpInit m => Init m
  | OpReset => Reset
  | OpLimit b p q => PlaceLimitOrder b p q;; mret tt
  | OpCancel i p => CancelLimitOrder i p;; mret tt
  | OpMarket b q => PlaceMarketOrder b q;; mret tt
  | OpData => GetData;; mret tt
  end.

(** The store after one call, whatever its outcome: a call that
    panics leaves the store as it was at the panic (the HTTP layer
    recovers and goes on serving requests on the same book). *)
Definition exec (o : op) (s : State) : State := state_of (call o s).

Definition run (ops : list op) (s : State) : State := foldl (fun s o => exec o s) s ops.

(** States of a process that started with [New()]. *)
Definition reachable (s : State) : Prop := exists ops, s = run ops New.

(** Both sides hold at least one limit. *)
Definition sides_nonempty (s : State) : Prop :=
  BuyLimits (ob s) <> [] /\ SellLimits (ob s) <> [].

(** ** Concrete runs *)

(** [Init(100)], a buy of 5 at 99, its cancellation, a buy of 3 at 99. *)
Definition cancel_then_place : M (option error * option error * option error) :=
  Init 100;;
  '(id1, e1) ← PlaceLimitOrder true 99 5;
  e2 ← CancelLimitOrder id1 99;
  '(_, e3) ← PlaceLimitOrder true 99 3;
  mret (e1, e2, e3).

(** [Init(100)] followed by a buy of 5 at the mid-price. *)
Definition buy_at_mid : M (UUID * option error) :=
  Init 100;; PlaceLimitOrder true 100 5.

(** The scenario of the specification: [Init(100)], buy 5 at 99,
    sell 3 at 101, market buy of 2, then the cancellation of the buy. *)
Definition spec_scenario : M (UUID * list (option error)) :=
  Init 100;;
  '(id1, e1) ← PlaceLimitOrder true 99 5;
  '(_, e2) ← PlaceLimitOrder false 101 3;
  e3 ← PlaceMarketOrder true 2;
  e4 ← CancelLimitOrder id1 99;
  mret (id1, [e1; e2; e3; e4]).

(** [Init(100)], a sell of 5 at 101 and its cancellation, then two
    sells at 101, of 3 and of 4: the identifiers of the last two
    orders and the errors returned by the four calls. *)
Definition place_behind_stale_rear : M (UUID * UUID * list (option error)) :=
  Init 100;;
  '(id1, e1) ← PlaceLimitOrder false 101 5;
  e2 ← CancelLimitOrder id1 101;
  '(a, e3) ← PlaceLimitOrder false 101 3;
  '(b, e4) ← PlaceLimitOrder false 101 4;
  mret (a, b, [e1; e2; e3; e4]).

(** ** Reasoning about outcomes *)

(** [wp m Q E F s]: started in [s], the computation [m] either
    returns [a] in a store [s'] with [Q a s'], or panics in a store
    that satisfies [E], or runs out of fuel in a store that satisfies
    [F]. *)
Definition wp {A} (m : M A) (Q : A -> State -> Prop) (E F : State -> Prop)
    (s : State) : Prop :=
  match m s with
  | Ok a s' => Q a s'
  | Panic s' => E s'
  | OutOfFuel s' => F s'
  end.

(** The same store with another book. *)
Definition put_book (b : OrderBook) (s : State) : State :=
  mkState (omem s) (lmem s) (tick s) b.

(** Sum of the cached volumes of the limits of a slice; an address
    that holds no limit counts for nothing. *)
Definition volume_at (lm : list Limit) (a : addr) : float64 :=
  match lm !! a with Some l => l_Volume l | None => 0 end.

Fixpoint vol_sum (lm : list Limit) (l : list addr) : Q :=
  match l with
  | [] => 0
  | a :: l' => volume_at lm a + vol_sum lm l'
  end.

(** Both sides hold at least one limit, in terms of lengths. *)
Definition len (buy : bool) (s : State) : nat := length (limitsOf buy (ob s)).

Definition two_sides (s : State) : Prop :=
  (1 <= len true s)%nat /\ (1 <= len false s)%nat.

(** ** Well-formed stores *)

Definition ptr_below (n : nat) (p : option addr) : Prop :=
  forall g, p = Some g -> (g < n)%nat.

(** Every identifier was produced by the counter, every [next]
    pointer goes to a cell allocated later than its holder, and every
    pointer to an order is below [n]. *)
Definition wf_upto (n : nat) (s : State) : Prop :=
  (n <= length (omem s))%nat /\
  (forall a o, omem s !! a = Some o ->
     (o_id o < tick s)%nat /\
     forall g, o_next o = Some g -> (a < g < n)%nat) /\
  (forall a l, lmem s !! a = Some l ->
     ptr_below n (q_front (l_orders l)) /\ ptr_below n (q_rear (l_orders l))).

Definition wf (s : State) : Prop := wf_upto (length (omem s)) s.

(** The pointer [p] designates a cell whose identifier is [x]. *)
Definition carries (x : UUID) (om : list Order) (p : option addr) : Prop :=
  exists g og, p = Some g /\ om !! g = Some og /\ o_id og = x.

(** No queue can reach a cell whose identifier is [x], and [x] has
    already been handed out by the counter. *)
Definition unlinked (x : UUID) (s : State) : Prop :=
  (x < tick s)%nat /\
  (forall a o, omem s !! a = Some o -> ~ carries x (omem s) (o_next o)) /\
  (forall a l, lmem s !! a = Some l ->
     ~ carries x (omem s) (q_front (l_orders l)) /\
     ~ carries x (omem s) (q_rear (l_orders l))).

(** The two slices hold addresses of allocated limits only. *)
Definition book_ok (s : State) : Prop :=
  forall buy a, a ∈ limitsOf buy (ob s) -> (a < length (lmem s))%nat.

(** The store right after [newOrder qty]. *)
Definition alloc_order (qty : float64) (s : State) : State :=
  mkState (omem s ++ [mkOrder (tick s) qty (tick s) None]) (lmem s)
    (S (tick s)) (ob s).

(** The chain of tests at the head of [PlaceLimitOrder], on the pair
    returned by [getMidPrice]: the error returned, if any. *)
Definition limit_check (buyOrder : bool) (price qty mid : float64)
    (err : option error) : option error :=
  match err with
  | Some e => Some e
  | None =>
      if fle price 0 then Some ErrPrice
      else if fle qty 0 then Some ErrQuantity
      else if buyOrder && flt mid price then Some ErrBuyAboveMid
      else if negb buyOrder && flt price mid then Some ErrSellBelowMid
      else None
  end.

(** ** Queues as lists *)

(** [chain om p l]: following [next] from the pointer [p] visits the
    cells of addresses [l], in this order, and then reaches [nil]. *)
Inductive chain (om : list Order) : option addr -> list addr -> Prop :=
| chain_nil : chain om None []
| chain_cons a o l :
    om !! a = Some o -> chain om (o_next o) l -> chain om (Some a) (a :: l).



(** ** Books used as examples *)

(** The book after [Init(100)]. *)
Definition initial_book : State := state_of (Init 100 New).

(** [Init(100)], then two sell orders at 101, of 3 and of 4. *)
Definition two_sells : State :=
  run [OpInit 100; OpLimit false 101 3; OpLimit false 101 4] New.

(** [Init(100)], a buy of 5 at 99 and its cancellation: the limit at
    99 is the only one of its side and stays, with an empty queue. *)
Definition emptied_level : State :=
  run [OpInit 100; OpLimit true 99 5; OpCancel 1 99] New.

(** [Init(100)], a sell of 2 at 101, then two sells at 102, of 3 and
    of 4: two limits on the sell side, the second with two orders. *)
Definition two_levels : State :=
  run [OpInit 100; OpLimit false 101 2; OpLimit false 102 3; OpLimit false 102 4] New.

(** ** Sorted slices *)

Definition price_at (lm : list Limit) (a : addr) : float64 :=
  match lm !! a with Some l => l_Price l | None => 0 end.

(** The order of [sort.Sort] on a side: [byHighestPrice] for the buy
    side, [byLowestPrice] for the sell side. *)
Definition less_of (buy : bool) : float64 -> float64 -> bool :=
  if buy then byHighestPrice else byLowestPrice.



(** ** The book between calls *)

(** The slice that [sort.Sort] leaves from [ls]: the same limits, in
    the order of their prices. *)
Definition sorted_of (buy : bool) (lm : list Limit) (ls : list addr) : list addr :=
  map snd (sort_by (less_of buy) (map (fun a => (price_at lm a, a)) ls)).

(** No limit of the slice has a better price than a limit before it:
    prices do not go up along the buy slice and do not go down along
    the sell slice. *)
Definition slice_ordered (buy : bool) (s : State) : Prop :=
  StronglySorted
    (fun a b => less_of buy (price_at (lmem s) b) (price_at (lmem s) a) = false)
    (limitsOf buy (ob s)).

(** The two maps hold addresses of allocated limits only. *)
Definition map_ok (s : State) : Prop :=
  forall buy k a, (k, a) ∈ mapOf buy (ob s) -> (a < length (lmem s))%nat.

(** What every call keeps of the book: allocated limits in the slices
    and in the maps, each slice in the order of its side and without
    a limit twice. *)
Definition good (s : State) : Prop :=
  book_ok s /\ map_ok s /\
  (forall buy, slice_ordered buy s) /\
  (forall buy, NoDup (limitsOf buy (ob s))).

(** Two stores show the same book: the same prices at the same
    addresses, the same slices and the same maps.  Volumes, queues,
    order cells and the last price may differ. *)
Definition same_book (s s' : State) : Prop :=
  l_Price <$> lmem s' = l_Price <$> lmem s /\
  BuyLimits (ob s') = BuyLimits (ob s) /\
  SellLimits (ob s') = SellLimits (ob s) /\
  buyLimitsMap (ob s') = buyLimitsMap (ob s) /\
  sellLimitsMap (ob s') = sellLimitsMap (ob s).

(** What [addOrder] does to the cells of the store: the old rear
    order, if any, is linked to the new order [o]. *)
Definition link_rear (o : addr) (q : OrderQueue) (om : list Order) : list Order :=
  match q_rear q with
  | Some r =>
      match om !! r with
      | Some c => <[r := set_next (Some o) c]> om
      | None => om
      end
  | None => om
  end.

(** ... and to the queue header: [rear] is the new order, and so is
    [front] when there was no rear order. *)
Definition push_queue (o : addr) (q : OrderQueue) : OrderQueue :=
  mkQueue (Some o) (match q_rear q with Some _ => q_front q | None => Some o end).

(** From [s] to [s']: no limit was freed, the limits of [s] kept
    their prices, and a limit found in a slice of [s'] was in the same
    slice of [s] or has a price that [P] admits on that side. *)
Definition evolves (P : bool -> float64 -> Prop) (s s' : State) : Prop :=
  (length (lmem s) <= length (lmem s'))%nat /\
  (forall a, (a < length (lmem s))%nat ->
     price_at (lmem s') a = price_at (lmem s) a) /\
  (forall buy a, a ∈ limitsOf buy (ob s') ->
     a ∈ limitsOf buy (ob s) \/ P buy (price_at (lmem s') a)).

(** The limits that [PlaceLimitOrder(b, p, q)] may add to a slice of
    the book of [s]: a limit at the price [p], on the side [b], when
    the order passes the tests. *)
Definition admitted (b : bool) (p q : float64) (s : State)
    (buy : bool) (x : float64) : Prop :=
  buy = b /\ x = p /\
  exists mid, getMidPrice s = Ok (mid, None) s /\ limit_check b p q mid None = None.
(** ** The same program on binary64 numbers

    Go's [float64] is the binary64 format of IEEE 754, with rounding
    to nearest, ties to even, which is also what Rocq's primitive
    floating-point numbers are.  The module [Binary64] holds the
    program once more, on these numbers: [+], [-] and [/] round,
    [<], [<=] and [==] are those of IEEE 754 (false on NaN, and
    [-0 == 0]).  But for the six operations on numbers, its
    definitions are those given above, word for word.  It is used
    for the runs whose outcome depends on rounding. *)
Module Binary64.

Import PrimFloat.
Local Open Scope float_scope.

Definition float64 : Type := float.

Definition fadd (x y : float64) : float64 := PrimFloat.add x y.
Definition fsub (x y : float64) : float64 := PrimFloat.sub x y.
Definition fdiv (x y : float64) : float64 := PrimFloat.div x y.

(** [x < y], [x <= y], [x == y] of Go, as booleans. *)
Definition flt (x y : float64) : bool := PrimFloat.ltb x y.
Definition fle (x y : float64) : bool := PrimFloat.leb x y.
Definition feq (x y : float64) : bool := PrimFloat.eqb x y.

(** [type Order struct { id; qty; timestamp; next *Order }] *)
Record Order : Type := mkOrder {
  o_id : UUID;
  o_qty : float64;
  o_timestamp : nat;
  o_next : option addr
}.

(** [type OrderQueue struct { rear, front *Order }].  A limit creates
    its queue header in [newLimit] and never replaces or shares it, so
    the header is kept inside the limit cell. *)
Record OrderQueue : Type := mkQueue {
  q_rear : option addr;
  q_front : option addr
}.

(** [type Limit struct { Price; Volume; orders *OrderQueue }] *)
Record Limit : Type := mkLimit {
  l_Price : float64;
  l_Volume : float64;
  l_orders : OrderQueue
}.

(** A Go [map[float64]*Limit]: keys are compared with [==]. *)
Definition LimitMap : Type := list (float64 * addr).

Fixpoint map_get (m : LimitMap) (k : float64) : option addr :=
  match m with
  | [] => None
  | (k', v) :: m' => if feq k' k then Some v else map_get m' k
  end.

Definition map_delete (m : LimitMap) (k : float64) : LimitMap :=
  filter (fun kv => feq (fst kv) k = false) m.

Definition map_set (m : LimitMap) (k : float64) (v : addr) : LimitMap :=
  (k, v) :: map_delete m k.

(** [type OrderBook struct] *)
Record OrderBook : Type := mkBook {
  BuyLimits : list addr;
  SellLimits : list addr;
  buyLimitsMap : LimitMap;
  sellLimitsMap : LimitMap;
  Price : float64
}.

(** The store: order cells, limit cells, the counter behind
    [uuid.New]/[time.Now], and the one order book of the process. *)
Record State : Type := mkState {
  omem : list Order;
  lmem : list Limit;
  tick : nat;
  ob : OrderBook
}.

(** *** Outcomes and the store monad *)

Inductive result (A : Type) : Type :=
| Ok (a : A) (s : State)
| Panic (s : State)
| OutOfFuel (s : State).
Arguments Ok {A} a s.
Arguments Panic {A} s.
Arguments OutOfFuel {A} s.

Definition M (A : Type) : Type := State -> result A.

Definition state_of {A} (r : result A) : State :=
  match r with Ok _ s => s | Panic s => s | OutOfFuel s => s end.

#[local] Instance M_ret : MRet M := fun A a s => Ok a s.
#[local] Instance M_bind : MBind M := fun A B f m s =>
  match m s with
  | Ok a s' => f a s'
  | Panic s' => Panic s'
  | OutOfFuel s' => OutOfFuel s'
  end.

Definition panic {A} : M A := fun s => Panic s.
Definition out_of_fuel {A} : M A := fun s => OutOfFuel s.
Definition get_state : M State := fun s => Ok s s.
Definition get_book : M OrderBook := fun s => Ok (ob s) s.
Definition set_book (b : OrderBook) : M unit := fun s =>
  Ok tt (mkState (omem s) (lmem s) (tick s) b).

(** Dereferencing. *)
Definition loadO (p : option addr) : M Order := fun s =>
  match p with
  | Some a => match omem s !! a with Some o => Ok o s | None => Panic s end
  | None => Panic s
  end.

Definition loadL (p : option addr) : M Limit := fun s =>
  match p with
  | Some a => match lmem s !! a with Some l => Ok l s | None => Panic s end
  | None => Panic s
  end.

Definition updO (p : option addr) (f : Order -> Order) : M unit := fun s =>
  match p with
  | Some a =>
      match omem s !! a with
      | Some o => Ok tt (mkState (<[a := f o]> (omem s)) (lmem s) (tick s) (ob s))
      | None => Panic s
      end
  | None => Panic s
  end.

Definition updL (p : option addr) (f : Limit -> Limit) : M unit := fun s =>
  match p with
  | Some a =>
      match lmem s !! a with
      | Some l => Ok tt (mkState (omem s) (<[a := f l]> (lmem s)) (tick s) (ob s))
      | None => Panic s
      end
  | None => Panic s
  end.

(** Field assignments. *)
Definition set_next (n : option addr) (o : Order) : Order :=
  mkOrder (o_id o) (o_qty o) (o_timestamp o) n.
Definition set_qty (q : float64) (o : Order) : Order :=
  mkOrder (o_id o) q (o_timestamp o) (o_next o).
Definition set_Volume (v : float64) (l : Limit) : Limit :=
  mkLimit (l_Price l) v (l_orders l).
Definition set_rear (r : option addr) (l : Limit) : Limit :=
  mkLimit (l_Price l) (l_Volume l) (mkQueue r (q_front (l_orders l))).
Definition set_front (f : option addr) (l : Limit) : Limit :=
  mkLimit (l_Price l) (l_Volume l) (mkQueue (q_rear (l_orders l)) f).

(** *** Orders and limits *)

(** [func newOrder(qty float64) *Order] *)
Definition newOrder (qty : float64) : M addr := fun s =>
  let o := mkOrder (tick s) qty (tick s) None in
  Ok (length (omem s))
     (mkState (omem s ++ [o]) (lmem s) (S (tick s)) (ob s)).

(** [func newLimit(Price float64) *Limit] *)
Definition newLimit (price : float64) : M addr := fun s =>
  let l := mkLimit price 0 (mkQueue None None) in
  Ok (length (lmem s))
     (mkState (omem s) (lmem s ++ [l]) (tick s) (ob s)).

(** [func (l *Limit) addOrder(o *Order)] *)
Definition addOrder (l : option addr) (o : option addr) : M unit :=
  lim ← loadL l;
  match q_rear (l_orders lim) with
  | Some r =>
      updO (Some r) (set_next o);;
      r' ← loadO (Some r);
      updL l (set_rear (o_next r'))
  | None =>
      updL l (set_rear o);;
      lim' ← loadL l;
      updL l (set_front (q_rear (l_orders lim')))
  end;;
  ord ← loadO o;
  lim2 ← loadL l;
  updL l (set_Volume (fadd (l_Volume lim2) (o_qty ord))).

(** The [for temp.next != nil] loop of [deleteOrder]. *)
Fixpoint deleteOrder_loop (fuel : nat) (l : option addr) (id : UUID)
    (temp : option addr) : M (option error) :=
  t ← loadO temp;
  match o_next t with
  | None => mret (Some ErrNoSuchOrder)
  | Some n =>
      nx ← loadO (Some n);
      if Nat.eqb (o_id nx) id then
        lim ← loadL l;
        updL l (set_Volume (fsub (l_Volume lim) (o_qty nx)));;
        t' ← loadO temp;
        nx' ← loadO (o_next t');
        updO temp (set_next (o_next nx'));;
        mret None
      else
        match fuel with
        | O => out_of_fuel
        | S fuel' => deleteOrder_loop fuel' l id (Some n)
        end
  end.

(** [func (l *Limit) deleteOrder(id uuid.UUID) error] *)
Definition deleteOrder (l : option addr) (id : UUID) : M (option error) :=
  lim ← loadL l;
  f ← loadO (q_front (l_orders lim));
  if Nat.eqb (o_id f) id then
    updL l (set_Volume (fsub (l_Volume lim) (o_qty f)));;
    updL l (set_front (o_next f));;
    mret None
  else
    s ← get_state;
    deleteOrder_loop (length (omem s)) l id (q_front (l_orders lim)).

(** *** Sorting the slices of limits *)

(** [byLowestPrice.Less] and [byHighestPrice.Less], on the prices. *)
Definition byLowestPrice (x y : float64) : bool := flt x y.
Definition byHighestPrice (x y : float64) : bool := flt y x.

(** [sort.Sort] reads the price of every limit of the slice through
    its pointer; [load_prices] does these reads once. *)
Fixpoint load_prices (l : list addr) : M (list (float64 * addr)) :=
  match l with
  | [] => mret []
  | a :: l' =>
      lim ← loadL (Some a);
      ps ← load_prices l';
      mret ((l_Price lim, a) :: ps)
  end.

(** Insertion of one element into a sorted prefix: the element moves
    left as long as it is [less] than its left neighbour. *)
Fixpoint insert_by (less : float64 -> float64 -> bool)
    (x : float64 * addr) (l : list (float64 * addr)) : list (float64 * addr) :=
  match l with
  | [] => [x]
  | y :: l' =>
      if less (fst x) (fst y) then x :: y :: l' else y :: insert_by less x l'
  end.

(** [sort.Sort] as an insertion sort, which is what Go runs on short
    slices.  On longer slices Go's algorithm may order limits of equal
    price differently; slices whose prices are pairwise different have
    one sorted arrangement only. *)
Definition sort_by (less : float64 -> float64 -> bool)
    (l : list (float64 * addr)) : list (float64 * addr) :=
  foldl (fun acc x => insert_by less x acc) [] l.

(** *** The order book *)

Definition limitsOf (buy : bool) (b : OrderBook) : list addr :=
  if buy then BuyLimits b else SellLimits b.

Definition mapOf (buy : bool) (b : OrderBook) : LimitMap :=
  if buy then buyLimitsMap b else sellLimitsMap b.

Definition with_limits (buy : bool) (v : list addr) (b : OrderBook) : OrderBook :=
  if buy then mkBook v (SellLimits b) (buyLimitsMap b) (sellLimitsMap b) (Price b)
  else mkBook (BuyLimits b) v (buyLimitsMap b) (sellLimitsMap b) (Price b).

Definition with_map (buy : bool) (m : LimitMap) (b : OrderBook) : OrderBook :=
  if buy then mkBook (BuyLimits b) (SellLimits b) m (sellLimitsMap b) (Price b)
  else mkBook (BuyLimits b) (SellLimits b) (buyLimitsMap b) m (Price b).

Definition with_Price (p : float64) (b : OrderBook) : OrderBook :=
  mkBook (BuyLimits b) (SellLimits b) (buyLimitsMap b) (sellLimitsMap b) p.

Definition set_limits (buy : bool) (v : list addr) : M unit :=
  b ← get_book; set_book (with_limits buy v b).
Definition set_map (buy : bool) (m : LimitMap) : M unit :=
  b ← get_book; set_book (with_map buy m b).
Definition set_Price (p : float64) : M unit :=
  b ← get_book; set_book (with_Price p b).

(** [func New() *OrderBook], with an empty store. *)
Definition New : State := mkState [] [] 0 (mkBook [] [] [] [] 0).

Definition sortLimits (buy : bool) : M unit :=
  b ← get_book;
  ps ← load_prices (limitsOf buy b);
  set_limits buy
    (map snd (sort_by (if buy then byHighestPrice else byLowestPrice) ps)).

(** [func (ob *OrderBook) addLimit(buyLimit bool, l *Limit)] *)
Definition addLimit (buyLimit : bool) (l : option addr) : M unit :=
  lim ← loadL l;
  match l with
  | None => panic
  | Some a =>
      b ← get_book;
      set_map buyLimit (map_set (mapOf buyLimit b) (l_Price lim) a);;
      b' ← get_book;
      set_limits buyLimit (limitsOf buyLimit b' ++ [a]);;
      sortLimits buyLimit
  end.

(** [func (ob *OrderBook) canDeleteLimit(buyLimit bool) bool] *)
Definition canDeleteLimit (buyLimit : bool) (b : OrderBook) : bool :=
  Nat.ltb 1 (length (limitsOf buyLimit b)).

(** [func (ob *OrderBook) deleteLimit(buyLimit bool, pos int, Price float64)].
    The first assignment panics when [pos] or [len-1] is out of range. *)
Definition deleteLimit (buyLimit : bool) (pos : nat) (price : float64) : M unit :=
  b ← get_book;
  let ls := limitsOf buyLimit b in
  match last ls with
  | None => panic
  | Some lst =>
      if Nat.ltb pos (length ls) then
        set_limits buyLimit (<[pos := lst]> ls);;
        b1 ← get_book;
        set_limits buyLimit
          (take (length (limitsOf buyLimit b1) - 1) (limitsOf buyLimit b1));;
        b2 ← get_book;
        set_map buyLimit (map_delete (mapOf buyLimit b2) price);;
        sortLimits buyLimit
      else panic
  end.

(** [func (ob *OrderBook) getMidPrice() (float64, error)] *)
Definition getMidPrice : M (float64 * option error) :=
  b ← get_book;
  match BuyLimits b, SellLimits b with
  | bl :: _, sl :: _ =>
      lb ← loadL (Some bl);
      ls ← loadL (Some sl);
      mret (fdiv (fadd (l_Price lb) (l_Price ls)) 2, None)
  | _, _ => mret (0, Some ErrNoLimits)
  end.

(** [func (ob *OrderBook) getSpread() (float64, error)] *)
Definition getSpread : M (float64 * option error) :=
  b ← get_book;
  match BuyLimits b, SellLimits b with
  | bl :: _, sl :: _ =>
      ls ← loadL (Some sl);
      lb ← loadL (Some bl);
      mret (fsub (l_Price ls) (l_Price lb), None)
  | _, _ => mret (0, None)
  end.

(** The loop of [getTotalVolume] over one slice. *)
Fixpoint sum_volumes (acc : float64) (l : list addr) : M float64 :=
  match l with
  | [] => mret acc
  | a :: l' =>
      lim ← loadL (Some a);
      sum_volumes (fadd acc (l_Volume lim)) l'
  end.

(** [func (ob *OrderBook) getTotalVolume(buyLimits bool) float64] *)
Definition getTotalVolume (buyLimits : bool) : M float64 :=
  b ← get_book;
  sum_volumes 0 (limitsOf buyLimits b).

(** [func (ob *OrderBook) Init(midPrice float64)] *)
Definition Init (midPrice : float64) : M unit :=
  l ← newLimit midPrice;
  o ← newOrder 0;
  addOrder (Some l) (Some o);;
  addLimit true (Some l);;
  addLimit false (Some l).

(** [func (ob *OrderBook) Reset()] *)
Definition Reset : M unit :=
  set_limits true [];;
  set_limits false [];;
  set_map true [];;
  set_map false [];;
  set_Price 0.

(** [func (ob *OrderBook) GetData() ([]*Limit, []*Limit)] *)
Definition GetData : M (list addr * list addr) :=
  b ← get_book; mret (BuyLimits b, SellLimits b).

(** The two tests [ob.canDeleteLimit(b) && ob.XLimits[0].Volume == 0]
    that end [PlaceLimitOrder]; [&&] does not read the slice when the
    side cannot lose a limit. *)
Definition top_is_empty (buy : bool) : M bool :=
  b ← get_book;
  if canDeleteLimit buy b then
    lim ← loadL (head (limitsOf buy b));
    mret (feq (l_Volume lim) 0)
  else mret false.

Definition delete_top (buy : bool) : M unit :=
  b ← get_book;
  lim ← loadL (head (limitsOf buy b));
  deleteLimit buy 0 (l_Price lim).

(** [func (ob *OrderBook) PlaceLimitOrder(buyOrder bool, Price, qty float64)
    (uuid.UUID, error)].  The two branches of [if buyOrder] are the
    same text on the two sides of the book. *)
Definition PlaceLimitOrder (buyOrder : bool) (price qty : float64)
    : M (UUID * option error) :=
  order ← newOrder qty;
  '(midPrice, err) ← getMidPrice;
  o ← loadO (Some order);
  match err with
  | Some e => mret (o_id o, Some e)
  | None =>
      if fle price 0 then mret (o_id o, Some ErrPrice)
      else if fle qty 0 then mret (o_id o, Some ErrQuantity)
      else if buyOrder && flt midPrice price then mret (o_id o, Some ErrBuyAboveMid)
      else if negb buyOrder && flt price midPrice then mret (o_id o, Some ErrSellBelowMid)
      else
        b ← get_book;
        match map_get (mapOf buyOrder b) price with
        | None =>
            limit ← newLimit price;
            addOrder (Some limit) (Some order);;
            addLimit buyOrder (Some limit)
        | Some l => addOrder (Some l) (Some order)
        end;;
        c1 ← top_is_empty true;
        (if (c1 : bool) then delete_top true
         else
           c2 ← top_is_empty false;
           if (c2 : bool) then delete_top false else mret tt);;
        mret (o_id o, None)
  end.

(** The [for i, limit := range ob.XLimits] loop of [CancelLimitOrder].
    The range expression is evaluated once: the loop runs over the
    original length [n] and reads the backing array, which
    [deleteLimit] overwrites in place.  After a deletion the array
    holds the re-sorted shorter slice followed by the entries [stale]
    that the truncation left behind. *)
Fixpoint cancel_range (buy : bool) (price : float64) (n i : nat)
    (stale : list addr) : M unit :=
  match n with
  | O => mret tt
  | S n' =>
      b ← get_book;
      limit ← loadL ((limitsOf buy b ++ stale) !! i);
      stale' ←
        (if feq (l_Price limit) price then
           deleteLimit buy i price;;
           mret (match last (limitsOf buy b) with
                 | Some x => x :: stale
                 | None => stale
                 end)
         else mret stale);
      cancel_range buy price n' (S i) stale'
  end.

(** [func (ob *OrderBook) CancelLimitOrder(id uuid.UUID, Price float64) error].
    [Price < midPrice] selects the buy side, anything else the sell
    side; the two branches are the same text on the two sides. *)
Definition CancelLimitOrder (id : UUID) (price : float64) : M (option error) :=
  '(midPrice, err) ← getMidPrice;
  match err with
  | Some e => mret (Some e)
  | None =>
      let buy := flt price midPrice in
      b ← get_book;
      err ← deleteOrder (map_get (mapOf buy b) price) id;
      match err with
      | Some e => mret (Some e)
      | None =>
          b' ← get_book;
          c ← (if canDeleteLimit buy b' then
                 lim ← loadL (map_get (mapOf buy b') price);
                 mret (feq (l_Volume lim) 0)
               else mret false);
          (if (c : bool) then cancel_range buy price (length (limitsOf buy b')) 0 []
           else mret tt);;
          mret None
      end
  end.

(** First loop of [PlaceMarketOrder]: whole limits.
    [for len(ob.XLimits) > 0 && qty >= ob.XLimits[0].Volume] *)
Fixpoint market_limits (fuel : nat) (side : bool) (qty : float64) : M float64 :=
  b ← get_book;
  match limitsOf side b with
  | [] => mret qty
  | l0 :: _ =>
      lim ← loadL (Some l0);
      if fle (l_Volume lim) qty then
        match fuel with
        | O => out_of_fuel
        | S fuel' =>
            set_Price (l_Price lim);;
            deleteLimit side 0 (l_Price lim);;
            market_limits fuel' side (fsub qty (l_Volume lim))
        end
      else mret qty
  end.

(** Second loop: whole orders at the front of the first limit.
    [for len(ob.XLimits) > 0 && qty >= ob.XLimits[0].orders.front.qty] *)
Fixpoint market_orders (fuel : nat) (side : bool) (qty : float64) : M float64 :=
  b ← get_book;
  match limitsOf side b with
  | [] => mret qty
  | l0 :: _ =>
      lim ← loadL (Some l0);
      fr ← loadO (q_front (l_orders lim));
      if fle (o_qty fr) qty then
        match fuel with
        | O => out_of_fuel
        | S fuel' =>
            set_Price (l_Price lim);;
            updL (Some l0) (set_Volume (fsub (l_Volume lim) (o_qty fr)));;
            updL (Some l0) (set_front (o_next fr));;
            market_orders fuel' side (fsub qty (o_qty fr))
        end
      else mret qty
  end.

(** The last step: [if qty != 0 { ... }], a partial fill of the front
    order of the first limit. *)
Definition market_partial (side : bool) (qty : float64) : M unit :=
  if feq qty 0 then mret tt
  else
    b ← get_book;
    lim ← loadL (head (limitsOf side b));
    set_Price (l_Price lim);;
    fr ← loadO (q_front (l_orders lim));
    updO (q_front (l_orders lim)) (set_qty (fsub (o_qty fr) qty));;
    lim' ← loadL (head (limitsOf side b));
    updL (head (limitsOf side b)) (set_Volume (fsub (l_Volume lim') qty)).

(** [func (ob *OrderBook) PlaceMarketOrder(buyOrder bool, qty float64) error].
    A buy order is executed against the sell side and conversely. *)
Definition PlaceMarketOrder (buyOrder : bool) (qty : float64) : M (option error) :=
  if fle qty 0 then mret (Some ErrMarketQuantity)
  else
    let side := negb buyOrder in
    total ← getTotalVolume side;
    if fle total qty then mret (Some ErrMarketVolume)
    else
      b ← get_book;
      q1 ← market_limits (length (limitsOf side b)) side qty;
      s ← get_state;
      q2 ← market_orders (length (omem s)) side q1;
      market_partial side q2;;
      mret None.

(** What [GET /get_data] reports for one side: price and volume of
    each limit of the slice, in order. *)
Definition level_data (s : State) (a : addr) : option (float64 * float64) :=
  match lmem s !! a with
  | Some l => Some (l_Price l, l_Volume l)
  | None => None
  end.

Definition side_data (buy : bool) (s : State) : list (option (float64 * float64)) :=
  map (level_data s) (limitsOf buy (ob s)).

(** The orders of a queue, from [front] along [next]: identifier and
    remaining quantity.  The walk stops at [nil], at an address that
    holds no cell, or after [fuel] cells. *)
Fixpoint queue_from (fuel : nat) (om : list Order) (p : option addr)
    : list (UUID * float64) :=
  match fuel, p with
  | S fuel', Some a =>
      match om !! a with
      | Some o => (o_id o, o_qty o) :: queue_from fuel' om (o_next o)
      | None => []
      end
  | _, _ => []
  end.

Definition queue_of (s : State) (l : Limit) : list (UUID * float64) :=
  queue_from (length (omem s)) (omem s) (q_front (l_orders l)).

(** Sum of the remaining quantities of the orders of a queue. *)
Definition queue_volume (s : State) (l : Limit) : float64 :=
  foldl (fun acc iq => fadd acc (snd iq)) 0 (queue_of s l).

(** *** Sequences of calls *)

(** The calls a client of the book can make.  [OpData] is the read of
    [GET /get_data]. *)
Inductive op : Type :=
| OpInit (midPrice : float64)
| OpReset
| OpLimit (buyOrder : bool) (price qty : float64)
| OpCancel (id : UUID) (price : float64)
| OpMarket (buyOrder : bool) (qty : float64)
| OpData.

(** One call, its result dropped. *)
Definition call (o : op) : M unit :=
  match o with
  | OpInit m => Init m
  | OpReset => Reset
  | OpLimit b p q => PlaceLimitOrder b p q;; mret tt
  | OpCancel i p => CancelLimitOrder i p;; mret tt
  | OpMarket b q => PlaceMarketOrder b q;; mret tt
  | OpData => GetData;; mret tt
  end.

(** The store after one call, whatever its outcome: a call that
    panics leaves the store as it was at the panic (the HTTP layer
    recovers and goes on serving requests on the same book). *)
Definition exec (o : op) (s : State) : State := state_of (call o s).

Definition run (ops : list op) (s : State) : State := foldl (fun s o => exec o s) s ops.

(** *** Runs that rounding decides *)

#[local] Set Warnings "-inexact-float".

(** [Init(100)], a sell of 0.6 at 101 and a sell of 1.1 at 102: the
    errors returned by the two orders. *)
Definition two_sell_levels : M (list (option error)) :=
  Init 100;;
  '(_, e1) ← PlaceLimitOrder false 101 0.6;
  '(_, e2) ← PlaceLimitOrder false 102 1.1;
  mret [e1; e2].

(** [Init(100)], then a sell of 0.6 and a sell of 1.1, both at 101:
    the identifiers of the two orders and the errors returned. *)
Definition two_sells_at_one_price : M (UUID * UUID * list (option error)) :=
  Init 100;;
  '(a, e1) ← PlaceLimitOrder false 101 0.6;
  '(b, e2) ← PlaceLimitOrder false 101 1.1;
  mret (a, b, [e1; e2]).

End Binary64.

(** * Properties *)

(** ** The store monad *)

Section WpRules.
Context {A B : Type}.
Implicit Types (Q : A -> State -> Prop) (E F : State -> Prop).

Lemma wp_ret (a : A) Q E F s : Q a s -> wp (mret a) Q E F s.
Proof. intros H. exact H. Qed.

Lemma wp_bind (m : M A) (f : A -> M B) (R : B -> State -> Prop) E F s :
  wp m (fun a s' => wp (f a) R E F s') E F s -> wp (m ≫= f) R E F s.
Proof.
  unfold wp, mbind, M_bind. destruct (m s); auto.
Qed.

Lemma wp_mono (m : M A) Q Q' E E' F F' s :
  wp m Q E F s ->
  (forall a s', Q a s' -> Q' a s') ->
  (forall s', E s' -> E' s') -> (forall s', F s' -> F' s') ->
  wp m Q' E' F' s.
Proof.
  unfold wp. intros H HQ HE HF. destruct (m s); auto.
Qed.

Lemma wp_panic Q E F s : E s -> wp (@panic A) Q E F s.
Proof. intros H. exact H. Qed.

Lemma wp_out_of_fuel Q E F s : F s -> wp (@out_of_fuel A) Q E F s.
Proof. intros H. exact H. Qed.
End WpRules.

Lemma wp_get_book (Q : OrderBook -> State -> Prop) E F s :
  Q (ob s) s -> wp get_book Q E F s.
Proof. intros H. exact H. Qed.

Lemma wp_get_state (Q : State -> State -> Prop) E F s :
  Q s s -> wp get_state Q E F s.
Proof. intros H. exact H. Qed.

Lemma wp_set_book b (Q : unit -> State -> Prop) E F s :
  Q tt (put_book b s) -> wp (set_book b) Q E F s.
Proof. intros H. exact H. Qed.

Lemma wp_loadO p (Q : Order -> State -> Prop) E F s :
  E s ->
  (forall a o, p = Some a -> omem s !! a = Some o -> Q o s) ->
  wp (loadO p) Q E F s.
Proof.
  intros HE HQ. unfold wp, loadO. destruct p as [a|]; [|exact HE].
  destruct (omem s !! a) eqn:Ha; [|exact HE]. eapply HQ; eauto.
Qed.

Lemma wp_loadL p (Q : Limit -> State -> Prop) E F s :
  E s ->
  (forall a l, p = Some a -> lmem s !! a = Some l -> Q l s) ->
  wp (loadL p) Q E F s.
Proof.
  intros HE HQ. unfold wp, loadL. destruct p as [a|]; [|exact HE].
  destruct (lmem s !! a) eqn:Ha; [|exact HE]. eapply HQ; eauto.
Qed.

Lemma wp_updO p f (Q : unit -> State -> Prop) E F s :
  E s ->
  (forall a o, p = Some a -> omem s !! a = Some o ->
     Q tt (mkState (<[a := f o]> (omem s)) (lmem s) (tick s) (ob s))) ->
  wp (updO p f) Q E F s.
Proof.
  intros HE HQ. unfold wp, updO. destruct p as [a|]; [|exact HE].
  destruct (omem s !! a) eqn:Ha; [|exact HE]. eapply HQ; eauto.
Qed.

Lemma wp_updL p f (Q : unit -> State -> Prop) E F s :
  E s ->
  (forall a l, p = Some a -> lmem s !! a = Some l ->
     Q tt (mkState (omem s) (<[a := f l]> (lmem s)) (tick s) (ob s))) ->
  wp (updL p f) Q E F s.
Proof.
  intros HE HQ. unfold wp, updL. destruct p as [a|]; [|exact HE].
  destruct (lmem s !! a) eqn:Ha; [|exact HE]. eapply HQ; eauto.
Qed.

Lemma wp_newOrder q (Q : addr -> State -> Prop) E F s :
  Q (length (omem s))
    (mkState (omem s ++ [mkOrder (tick s) q (tick s) None]) (lmem s)
       (S (tick s)) (ob s)) ->
  wp (newOrder q) Q E F s.
Proof. intros H. exact H. Qed.

Lemma wp_newLimit p (Q : addr -> State -> Prop) E F s :
  Q (length (lmem s))
    (mkState (omem s) (lmem s ++ [mkLimit p 0 (mkQueue None None)])
       (tick s) (ob s)) ->
  wp (newLimit p) Q E F s.
Proof. intros H. exact H. Qed.

Lemma wp_set_limits buy v (Q : unit -> State -> Prop) E F s :
  Q tt (put_book (with_limits buy v (ob s)) s) -> wp (set_limits buy v) Q E F s.
Proof. intros H. exact H. Qed.

Lemma wp_set_map buy m (Q : unit -> State -> Prop) E F s :
  Q tt (put_book (with_map buy m (ob s)) s) -> wp (set_map buy m) Q E F s.
Proof. intros H. exact H. Qed.

Lemma wp_set_Price p (Q : unit -> State -> Prop) E F s :
  Q tt (put_book (with_Price p (ob s)) s) -> wp (set_Price p) Q E F s.
Proof. intros H. exact H. Qed.

(** What an outcome says about [wp]. *)
Lemma wp_state_of {A} (m : M A) (I : State -> Prop) s :
  wp m (fun _ s' => I s') I I s -> I (state_of (m s)).
Proof. unfold wp. destruct (m s); auto. Qed.

(** ** Sorting *)

Lemma insert_by_perm less x l : insert_by less x l ≡ₚ x :: l.
Proof.
  induction l as [|y l IH]; simpl; [reflexivity|].
  destruct (less x.1 y.1); [reflexivity|].
  rewrite IH. apply perm_swap.
Qed.

Lemma sort_by_perm less l : sort_by less l ≡ₚ l.
Proof.
  unfold sort_by.
  assert (H : forall acc, foldl (fun acc x => insert_by less x acc) acc l ≡ₚ l ++ acc).
  { induction l as [|x l IH]; intros acc; simpl; [reflexivity|].
    rewrite IH, insert_by_perm. symmetry. apply Permutation_middle. }
  rewrite H. by rewrite app_nil_r.
Qed.

Lemma load_prices_spec l s :
  load_prices l s = Panic s \/
  exists ps, load_prices l s = Ok ps s /\ map snd ps = l.
Proof.
  induction l as [|a l IH]; simpl.
  - right. by exists [].
  - unfold mbind, M_bind, loadL.
    destruct (lmem s !! a) as [lim|]; [|by left].
    destruct IH as [-> | (ps & -> & Hps)]; [by left|].
    right. eexists. split; [reflexivity|]. simpl. by rewrite Hps.
Qed.

(** ** Simplification of book updates *)

Lemma limitsOf_with_limits buy buy' v b :
  limitsOf buy (with_limits buy' v b) = if Bool.eqb buy buy' then v else limitsOf buy b.
Proof. by destruct buy, buy'. Qed.

Lemma limitsOf_with_map buy buy' m b :
  limitsOf buy (with_map buy' m b) = limitsOf buy b.
Proof. by destruct buy, buy'. Qed.

Lemma limitsOf_with_Price buy p b :
  limitsOf buy (with_Price p b) = limitsOf buy b.
Proof. by destruct buy. Qed.

Lemma mapOf_with_limits buy buy' v b :
  mapOf buy (with_limits buy' v b) = mapOf buy b.
Proof. by destruct buy, buy'. Qed.

Lemma with_limits_twice buy v v' b :
  with_limits buy v (with_limits buy v' b) = with_limits buy v b.
Proof. by destruct buy. Qed.

Lemma with_limits_same buy b : with_limits buy (limitsOf buy b) b = b.
Proof. by destruct buy, b. Qed.

Lemma put_book_same s : put_book (ob s) s = s.
Proof. by destruct s. Qed.

(** ** Specifications of the slice operations *)

Lemma wp_sortLimits buy (Q : unit -> State -> Prop) E F s :
  E s ->
  (forall v, v ≡ₚ limitsOf buy (ob s) ->
     Q tt (put_book (with_limits buy v (ob s)) s)) ->
  wp (sortLimits buy) Q E F s.
Proof.
  intros HE HQ. unfold sortLimits.
  apply wp_bind, wp_get_book. unfold wp at 1, mbind, M_bind.
  destruct (load_prices_spec (limitsOf buy (ob s)) s) as [-> | (ps & -> & Hps)];
    [exact HE|].
  apply wp_set_limits, HQ.
  rewrite <- Hps. apply Permutation_map, sort_by_perm.
Qed.

Lemma with_map_with_limits buy buy' m v b :
  with_map buy m (with_limits buy' v b) = with_limits buy' v (with_map buy m b).
Proof. by destruct buy, buy'. Qed.

Lemma wp_deleteLimit buy pos price (Q : unit -> State -> Prop) E F s :
  E s ->
  (forall lst, last (limitsOf buy (ob s)) = Some lst ->
     (pos < length (limitsOf buy (ob s)))%nat ->
     let ls' := take (length (limitsOf buy (ob s)) - 1)
                  (<[pos := lst]> (limitsOf buy (ob s))) in
     let bm := with_map buy (map_delete (mapOf buy (ob s)) price) (ob s) in
     E (put_book (with_limits buy (<[pos := lst]> (limitsOf buy (ob s))) (ob s)) s) /\
     E (put_book (with_limits buy ls' bm) s) /\
     forall v, v ≡ₚ ls' -> Q tt (put_book (with_limits buy v bm) s)) ->
  wp (deleteLimit buy pos price) Q E F s.
Proof.
  intros HE HQ. unfold deleteLimit.
  apply wp_bind, wp_get_book.
  destruct (last (limitsOf buy (ob s))) as [lst|] eqn:Hlast; [|exact HE].
  destruct (Nat.ltb_spec pos (length (limitsOf buy (ob s)))) as [Hpos|_]; [|exact HE].
  destruct (HQ lst eq_refl Hpos) as (HE1 & HE2 & HQ').
  apply wp_bind, wp_set_limits. apply wp_bind, wp_get_book.
  apply wp_bind, wp_set_limits. apply wp_bind, wp_get_book.
  apply wp_bind, wp_set_map.
  cbn [ob put_book omem lmem tick].
  rewrite !limitsOf_with_limits, !Bool.eqb_reflx, !with_limits_twice,
    !mapOf_with_limits, length_insert, with_map_with_limits.
  apply wp_sortLimits; [exact HE2|].
  cbn [ob put_book omem lmem tick].
  rewrite limitsOf_with_limits, Bool.eqb_reflx.
  intros v Hv. rewrite with_limits_twice. by apply HQ'.
Qed.

Lemma wp_addLimit buy l (Q : unit -> State -> Prop) E F s :
  E s ->
  (forall a lim, l = Some a -> lmem s !! a = Some lim ->
     let bm := with_map buy (map_set (mapOf buy (ob s)) (l_Price lim) a) (ob s) in
     E (put_book (with_limits buy (limitsOf buy (ob s) ++ [a]) bm) s) /\
     forall v, v ≡ₚ limitsOf buy (ob s) ++ [a] ->
       Q tt (put_book (with_limits buy v bm) s)) ->
  wp (addLimit buy l) Q E F s.
Proof.
  intros HE HQ. unfold addLimit.
  apply wp_bind, wp_loadL; [exact HE|]. intros a lim -> Ha.
  destruct (HQ a lim eq_refl Ha) as (HE1 & HQ').
  apply wp_bind, wp_get_book. apply wp_bind, wp_set_map.
  apply wp_bind, wp_get_book. apply wp_bind, wp_set_limits.
  cbn [ob put_book omem lmem tick].
  rewrite limitsOf_with_map.
  apply wp_sortLimits; [exact HE1|].
  cbn [ob put_book omem lmem tick].
  rewrite limitsOf_with_limits, Bool.eqb_reflx.
  intros v Hv. rewrite with_limits_twice. by apply HQ'.
Qed.

(** ** Read-only functions *)

Ltac wp_prim tac :=
  lazymatch goal with
  | |- wp (mret _) _ _ _ _ => apply wp_ret
  | |- wp (_ ≫= _) _ _ _ _ => apply wp_bind
  | |- wp get_book _ _ _ _ => apply wp_get_book
  | |- wp get_state _ _ _ _ => apply wp_get_state
  | |- wp (set_book _) _ _ _ _ => apply wp_set_book
  | |- wp (set_limits _ _) _ _ _ _ => apply wp_set_limits
  | |- wp (set_map _ _) _ _ _ _ => apply wp_set_map
  | |- wp (set_Price _) _ _ _ _ => apply wp_set_Price
  | |- wp (newOrder _) _ _ _ _ => apply wp_newOrder
  | |- wp (newLimit _) _ _ _ _ => apply wp_newLimit
  | |- wp panic _ _ _ _ => apply wp_panic; tac
  | |- wp out_of_fuel _ _ _ _ => apply wp_out_of_fuel; tac
  | |- wp (loadO _) _ _ _ _ => apply wp_loadO; [tac | intros ? ? ? ?]
  | |- wp (loadL _) _ _ _ _ => apply wp_loadL; [tac | intros ? ? ? ?]
  | |- wp (updO _ _) _ _ _ _ => apply wp_updO; [tac | intros ? ? ? ?]
  | |- wp (updL _ _) _ _ _ _ => apply wp_updL; [tac | intros ? ? ? ?]
  end.

Ltac wp_steps tac :=
  repeat wp_prim tac;
  lazymatch goal with
  | |- wp _ _ _ _ _ => idtac
  | _ => try tac
  end.

Lemma getMidPrice_ro s (Q : float64 * option error -> State -> Prop) E F :
  E s -> (forall r, Q r s) -> wp getMidPrice Q E F s.
Proof.
  intros HE HQ. unfold getMidPrice. apply wp_bind, wp_get_book.
  destruct (BuyLimits (ob s)); [apply wp_ret, HQ|].
  destruct (SellLimits (ob s)); [apply wp_ret, HQ|].
  wp_steps ltac:(exact HE). apply HQ.
Qed.

Lemma sum_volumes_spec l acc s :
  sum_volumes acc l s = Panic s \/
  exists v, sum_volumes acc l s = Ok v s /\ v == acc + vol_sum (lmem s) l.
Proof.
  revert acc. induction l as [|a l IH]; intros acc; simpl.
  - right. exists acc. split; [reflexivity|]. lra.
  - unfold mbind, M_bind, loadL, volume_at.
    destruct (lmem s !! a) as [lim|]; [|by left].
    destruct (IH (fadd acc (l_Volume lim))) as [-> | (v & -> & Hv)]; [by left|].
    right. exists v. split; [reflexivity|].
    rewrite Hv. unfold fadd. rewrite Qred_correct. lra.
Qed.

Lemma wp_getTotalVolume buy (Q : float64 -> State -> Prop) E F s :
  E s ->
  (forall v, v == vol_sum (lmem s) (limitsOf buy (ob s)) -> Q v s) ->
  wp (getTotalVolume buy) Q E F s.
Proof.
  intros HE HQ. unfold getTotalVolume. apply wp_bind, wp_get_book.
  unfold wp.
  destruct (sum_volumes_spec (limitsOf buy (ob s)) 0 s) as [-> | (v & -> & Hv)];
    [exact HE|].
  apply HQ. rewrite Hv. lra.
Qed.

Lemma wp_top_is_empty buy (Q : bool -> State -> Prop) E F s :
  E s ->
  Q false s ->
  ((1 < length (limitsOf buy (ob s)))%nat -> Q true s) ->
  wp (top_is_empty buy) Q E F s.
Proof.
  intros HE HF HT. unfold top_is_empty. apply wp_bind, wp_get_book.
  unfold canDeleteLimit.
  destruct (Nat.ltb_spec 1 (length (limitsOf buy (ob s)))) as [Hlen|_];
    [|apply wp_ret, HF].
  wp_steps ltac:(exact HE).
  destruct (feq _ _); auto.
Qed.

(** ** Functions that leave the two slices alone *)

Section SlicesInvariant.
Variable I : State -> Prop.
Hypothesis I_ext : forall s s',
  BuyLimits (ob s') = BuyLimits (ob s) ->
  SellLimits (ob s') = SellLimits (ob s) ->
  length (lmem s') = length (lmem s) ->
  I s -> I s'.

Local Ltac keep :=
  try eassumption;
  match goal with
  | H : I ?s |- I _ =>
      apply (I_ext s);
      [reflexivity | reflexivity | simpl; by rewrite ?length_insert | exact H]
  end.

Lemma slices_addOrder l o s : I s -> wp (addOrder l o) (fun _ => I) I I s.
Proof.
  intros HI. unfold addOrder.
  apply wp_bind, wp_loadL; [keep|]. intros a lim -> Ha.
  apply wp_bind.
  eapply wp_mono with (Q := fun _ => I) (E := I) (F := I);
    [|intros ? s' Hs'|auto|auto].
  - destruct (q_rear (l_orders lim)); wp_steps keep.
  - wp_steps keep.
Qed.

Lemma slices_deleteOrder_loop fuel l id temp s :
  I s -> wp (deleteOrder_loop fuel l id temp) (fun _ => I) I I s.
Proof.
  revert temp s. induction fuel as [|fuel IH]; intros temp s HI; simpl.
  - wp_steps keep. destruct (o_next _); wp_steps keep.
    destruct (Nat.eqb _ _); wp_steps keep.
  - wp_steps keep. destruct (o_next _); wp_steps keep.
    destruct (Nat.eqb _ _); wp_steps keep. by apply IH.
Qed.

Lemma slices_deleteOrder l id s :
  I s -> wp (deleteOrder l id) (fun _ => I) I I s.
Proof.
  intros HI. unfold deleteOrder. wp_steps keep.
  destruct (Nat.eqb _ _); wp_steps keep.
  by apply slices_deleteOrder_loop.
Qed.
End SlicesInvariant.

Section SlicesInvariantMarket.
Variable I : State -> Prop.
Hypothesis I_ext : forall s s',
  BuyLimits (ob s') = BuyLimits (ob s) ->
  SellLimits (ob s') = SellLimits (ob s) ->
  length (lmem s') = length (lmem s) ->
  I s -> I s'.

Local Ltac keep :=
  try eassumption;
  match goal with
  | H : I ?s |- I _ =>
      apply (I_ext s);
      [reflexivity | reflexivity | simpl; by rewrite ?length_insert | exact H]
  end.

Lemma slices_set_Price p s : I s -> I (put_book (with_Price p (ob s)) s).
Proof. intros HI. keep. Qed.

Lemma slices_market_orders fuel side qty s :
  I s -> wp (market_orders fuel side qty) (fun _ => I) I I s.
Proof.
  revert qty s. induction fuel as [|fuel IH]; intros qty s HI;
    cbn [market_orders]; apply wp_bind, wp_get_book.
  - destruct (limitsOf side (ob s)); wp_steps keep.
    destruct (fle _ _); wp_steps keep.
  - destruct (limitsOf side (ob s)) eqn:Hls; wp_steps keep.
    destruct (fle _ _); wp_steps keep.
    apply IH. keep.
Qed.

Lemma slices_market_partial side qty s :
  I s -> wp (market_partial side qty) (fun _ => I) I I s.
Proof.
  intros HI. unfold market_partial.
  destruct (feq qty 0); wp_steps keep.
  all: cbn [ob put_book]; wp_steps keep.
Qed.
End SlicesInvariantMarket.

(** ** Both sides keep a limit *)

Lemma sides_nonempty_len s :
  sides_nonempty s <-> (1 <= len true s)%nat /\ (1 <= len false s)%nat.
Proof.
  unfold sides_nonempty, len. simpl.
  destruct (BuyLimits (ob s)), (SellLimits (ob s)); simpl; split;
    (intros [? ?]; split; first [congruence | lia]).
Qed.

Lemma len_put_limits buy buy' v b s :
  len buy (put_book (with_limits buy' v b) s) =
  if Bool.eqb buy buy' then length v else length (limitsOf buy b).
Proof. unfold len. cbn. rewrite limitsOf_with_limits. by destruct (Bool.eqb _ _). Qed.

Lemma limitsOf_negb buy v b :
  limitsOf (negb buy) (with_limits buy v b) = limitsOf (negb buy) b.
Proof. by destruct buy. Qed.

Lemma len_deleteLimit buy pos price s :
  wp (deleteLimit buy pos price)
    (fun _ s' => (pos < len buy s)%nat /\ len buy s' = (len buy s - 1)%nat /\
                 len (negb buy) s' = len (negb buy) s /\
                 lmem s' = lmem s /\ omem s' = omem s /\
                 limitsOf buy (ob s') ≡ₚ
                   take (len buy s - 1)
                     (<[pos := default 0%nat (last (limitsOf buy (ob s)))]>
                        (limitsOf buy (ob s))))
    (fun s' => len (negb buy) s' = len (negb buy) s /\
               (len buy s' = len buy s \/
                (pos < len buy s)%nat /\ len buy s' = (len buy s - 1)%nat))
    (fun _ => False)
    s.
Proof.
  apply wp_deleteLimit.
  - auto.
  - intros lst Hlast Hpos ls' bm. unfold len in *. subst ls' bm.
    cbn [ob put_book lmem omem].
    rewrite !limitsOf_negb, !limitsOf_with_limits, !Bool.eqb_reflx,
      !limitsOf_with_map, Hlast.
    assert (Hneg : forall v m, limitsOf (negb buy) (with_limits buy v (with_map buy m (ob s)))
                     = limitsOf (negb buy) (ob s)) by (by destruct buy).
    assert (Hsame : forall v m, limitsOf buy (with_limits buy v (with_map buy m (ob s))) = v)
      by (by destruct buy).
    split; [split; [done|left; by rewrite length_insert]|].
    split; [split; [done|right; split; [done|]; rewrite length_take, length_insert; lia]|].
    intros v Hv. rewrite Hneg, Hsame. simpl.
    repeat split; try done.
    rewrite (Permutation_length Hv), length_take, length_insert. lia.
Qed.

Lemma two_sides_slices s s' :
  BuyLimits (ob s') = BuyLimits (ob s) ->
  SellLimits (ob s') = SellLimits (ob s) ->
  two_sides s -> two_sides s'.
Proof. unfold two_sides, len. simpl. by intros -> ->. Qed.

Lemma two_sides_ext s s' :
  BuyLimits (ob s') = BuyLimits (ob s) ->
  SellLimits (ob s') = SellLimits (ob s) ->
  length (lmem s') = length (lmem s) ->
  two_sides s -> two_sides s'.
Proof. unfold two_sides, len. simpl. by intros -> -> _. Qed.

Lemma two_sides_of buy s :
  (1 <= len buy s)%nat -> (1 <= len (negb buy) s)%nat -> two_sides s.
Proof. unfold two_sides. destruct buy; simpl; tauto. Qed.

Lemma two_sides_inv buy s :
  two_sides s -> (1 <= len buy s)%nat /\ (1 <= len (negb buy) s)%nat.
Proof. unfold two_sides. destruct buy; simpl; tauto. Qed.

Lemma len_addLimit buy l s :
  wp (addLimit buy l)
    (fun _ s' => len buy s' = S (len buy s) /\ len (negb buy) s' = len (negb buy) s)
    (fun s' => (len buy s <= len buy s')%nat /\ len (negb buy) s' = len (negb buy) s)
    (fun _ => False)
    s.
Proof.
  apply wp_addLimit; [auto|].
  intros a lim _ _ bm. subst bm. unfold len. cbn [ob put_book].
  assert (Hneg : forall v m, limitsOf (negb buy) (with_limits buy v (with_map buy m (ob s)))
                   = limitsOf (negb buy) (ob s)) by (by destruct buy).
  assert (Hsame : forall v m, limitsOf buy (with_limits buy v (with_map buy m (ob s))) = v)
    by (by destruct buy).
  split.
  - rewrite Hneg, Hsame, length_app. simpl. split; [lia|done].
  - intros v Hv. rewrite Hneg, Hsame, (Permutation_length Hv), length_app.
    simpl. split; [lia|done].
Qed.

Lemma two_sides_addLimit buy l s :
  two_sides s -> wp (addLimit buy l) (fun _ => two_sides) two_sides two_sides s.
Proof.
  intros HN. destruct (two_sides_inv buy s HN) as [H1 H2].
  eapply wp_mono; [apply len_addLimit|..]; simpl.
  - intros _ s' [Ha Hb]. apply (two_sides_of buy); lia.
  - intros s' [Ha Hb]. apply (two_sides_of buy); lia.
  - tauto.
Qed.

Lemma two_sides_deleteLimit buy pos price s :
  two_sides s -> (pos = 0%nat -> 2 <= len buy s)%nat ->
  wp (deleteLimit buy pos price) (fun _ => two_sides) two_sides two_sides s.
Proof.
  intros HN Hpos. destruct (two_sides_inv buy s HN) as [H1 H2].
  eapply wp_mono; [apply len_deleteLimit|..]; simpl.
  - intros _ s' (Ha & Hb & Hc & _). apply (two_sides_of buy); lia.
  - intros s' (Ha & [Hb | [Hb Hc]]); apply (two_sides_of buy); lia.
  - tauto.
Qed.

Lemma two_sides_delete_top buy s :
  two_sides s -> (1 < len buy s)%nat ->
  wp (delete_top buy) (fun _ => two_sides) two_sides two_sides s.
Proof.
  intros HN Hlen. unfold delete_top.
  wp_steps ltac:(exact HN).
  apply two_sides_deleteLimit; [exact HN|lia].
Qed.

Lemma two_sides_PlaceLimitOrder b p q s :
  two_sides s -> wp (PlaceLimitOrder b p q) (fun _ => two_sides) two_sides two_sides s.
Proof.
  intros HN. unfold PlaceLimitOrder.
  apply wp_bind, wp_newOrder.
  match goal with |- wp _ _ _ _ ?s1 => assert (HN1 : two_sides s1)
    by (revert HN; by apply two_sides_slices) end.
  apply wp_bind, getMidPrice_ro; [exact HN1|]. intros [mid err].
  apply wp_bind, wp_loadO; [exact HN1|]. intros a o _ _.
  destruct err; [by apply wp_ret|].
  repeat (match goal with |- wp (if ?c then _ else _) _ _ _ _ => destruct c end;
          [by apply wp_ret|]).
  apply wp_bind, wp_get_book. apply wp_bind.
  apply wp_mono with (Q := fun _ => two_sides) (E := two_sides) (F := two_sides);
    [| |auto|auto].
  { destruct (map_get _ _).
    - by apply slices_addOrder; [apply two_sides_ext|].
    - apply wp_bind, wp_newLimit. apply wp_bind.
      eapply wp_mono; [apply slices_addOrder; [apply two_sides_ext|]|..].
      + revert HN1. by apply two_sides_slices.
      + intros ? s2 HN2; simpl in HN2. by apply two_sides_addLimit.
      + auto.
      + auto. }
  intros ? s2 HN2; simpl in HN2.
  assert (Hdel : forall buy (Q : unit -> State -> Prop),
              (forall u s', two_sides s' -> Q u s') -> (1 < len buy s2)%nat ->
              wp (delete_top buy) Q two_sides two_sides s2).
    { intros buy Q HQ Hlen.
      eapply wp_mono; [by apply two_sides_delete_top|..]; auto. }
    apply wp_bind, wp_top_is_empty; [exact HN2| |].
    - apply wp_bind, wp_bind, wp_top_is_empty; [exact HN2| |].
      + wp_steps ltac:(exact HN2).
      + apply Hdel. intros u s' Hs'. by apply wp_ret.
    - intros Hlen. apply wp_bind, Hdel; [|exact Hlen].
      intros u s' Hs'. by apply wp_ret.
Qed.

Lemma two_sides_cancel_range buy price n i stale s :
  two_sides s -> (i = 0%nat -> 2 <= len buy s)%nat ->
  wp (cancel_range buy price n i stale) (fun _ => two_sides) two_sides two_sides s.
Proof.
  revert i stale s. induction n as [|n IH]; intros i stale s HN Hi;
    cbn [cancel_range]; [by apply wp_ret|].
  apply wp_bind, wp_get_book.
  apply wp_bind, wp_loadL; [exact HN|]. intros a lim _ _.
  apply wp_bind. destruct (feq (l_Price lim) price).
  - apply wp_bind.
    eapply wp_mono; [by apply two_sides_deleteLimit|..]; [|auto|auto].
    intros u s' Hs'; simpl in Hs'. apply wp_ret, IH; [exact Hs'|lia].
  - apply wp_ret, IH; [exact HN|lia].
Qed.

Lemma two_sides_CancelLimitOrder id price s :
  two_sides s -> wp (CancelLimitOrder id price) (fun _ => two_sides) two_sides two_sides s.
Proof.
  intros HN. unfold CancelLimitOrder.
  apply wp_bind, getMidPrice_ro; [exact HN|]. intros [mid err].
  destruct err; [by apply wp_ret|].
  apply wp_bind, wp_get_book. apply wp_bind.
  eapply wp_mono; [by apply slices_deleteOrder; [apply two_sides_ext|]| |auto|auto].
  intros err s1 HN1; simpl in HN1.
  destruct err; [by apply wp_ret|].
  apply wp_bind, wp_get_book. apply wp_bind.
  unfold canDeleteLimit.
  destruct (Nat.ltb_spec 1 (length (limitsOf (flt price mid) (ob s1)))) as [Hlen|_].
  - wp_steps ltac:(exact HN1).
    destruct (feq _ _); wp_steps ltac:(exact HN1).
    eapply wp_mono; [apply two_sides_cancel_range; [exact HN1|]|..].
    + intros _. exact Hlen.
    + intros u s2 HN2. by apply wp_ret.
    + auto.
    + auto.
  - wp_steps ltac:(exact HN1).
Qed.

(** *** Comparisons and arithmetic of the numbers *)

Lemma fle_true x y : fle x y = true -> x <= y.
Proof. apply Qle_bool_iff. Qed.

Lemma fle_false x y : fle x y = false -> y < x.
Proof.
  intros H. apply Qnot_le_lt. intros Hle.
  apply Qle_bool_iff in Hle. unfold fle in H. congruence.
Qed.

Lemma fadd_correct x y : fadd x y == x + y.
Proof. apply Qred_correct. Qed.

Lemma take_last_perm {A} (l0 lst : A) (t : list A) :
  last (l0 :: t) = Some lst ->
  take (length (l0 :: t) - 1) (<[0%nat := lst]> (l0 :: t)) ≡ₚ t.
Proof.
  intros Hlast. simpl. rewrite Nat.sub_0_r.
  destruct t as [|x t _] using rev_ind; [done|].
  rewrite app_comm_cons, last_snoc in Hlast. injection Hlast as <-.
  rewrite length_app. simpl. rewrite Nat.add_1_r. simpl.
  rewrite take_app_length. apply Permutation_cons_append.
Qed.

Lemma two_sides_Init m s :
  wp (Init m) (fun _ => two_sides) (fun _ => True) (fun _ => True) s.
Proof.
  unfold Init.
  apply wp_bind, wp_newLimit. apply wp_bind, wp_newOrder.
  apply wp_bind.
  eapply wp_mono with (Q := fun _ _ => True) (E := fun _ => True)
    (F := fun _ => True); [unfold wp; by destruct (addOrder _ _ _)| |auto|auto].
  intros u s1 _. apply wp_bind.
  eapply wp_mono; [apply len_addLimit| |auto|auto].
  intros u' s2 [Ha Hb]; simpl in Ha, Hb.
  eapply wp_mono; [apply len_addLimit| |auto|auto].
  intros u'' s3 [Hc Hd]; simpl in Hc, Hd.
  unfold two_sides. lia.
Qed.

Lemma two_sides_call o s :
  o <> OpReset -> (forall b q, o <> OpMarket b q) -> two_sides s ->
  wp (call o) (fun _ => two_sides) two_sides two_sides s.
Proof.
  intros Ho Hm HN. destruct o; simpl; try done.
  - unfold Init. wp_steps idtac.
    eapply wp_mono; [apply slices_addOrder; [apply two_sides_ext|]|..].
    + revert HN. by apply two_sides_slices.
    + intros u s1 HN1; simpl in HN1. apply wp_bind.
      eapply wp_mono; [by apply two_sides_addLimit|..]; [|auto|auto].
      intros u' s2 HN2. by apply two_sides_addLimit.
    + auto.
    + auto.
  - apply wp_bind.
    eapply wp_mono; [by apply two_sides_PlaceLimitOrder|..]; [|auto|auto].
    intros r s' Hs'. by apply wp_ret.
  - apply wp_bind.
    eapply wp_mono; [by apply two_sides_CancelLimitOrder|..]; [|auto|auto].
    intros r s' Hs'. by apply wp_ret.
  - by destruct (Hm buyOrder qty).
Qed.

Lemma two_sides_exec o s :
  o <> OpReset -> (forall b q, o <> OpMarket b q) -> two_sides s ->
  two_sides (exec o s).
Proof. intros Ho Hm HN. unfold exec. apply wp_state_of. by apply two_sides_call. Qed.

Lemma two_sides_run ops s :
  Forall (fun o => o <> OpReset /\ forall b q, o <> OpMarket b q) ops ->
  two_sides s -> two_sides (run ops s).
Proof.
  unfold run. revert s. induction ops as [|o ops IH]; intros s Hops HN; simpl;
    [exact HN|].
  inversion Hops as [|? ? [Ho Hm] Hops']; subst. apply IH; [done|].
  by apply two_sides_exec.
Qed.

(** ** Invariants of the store

    The cells are changed by four functions only: [addOrder],
    [deleteOrder] and the last two steps of a market order; everything
    else allocates cells or rearranges the book.  This section derives,
    for a predicate [I] that those four functions keep and that the
    rearrangements of the book respect, that every call of the
    interface keeps it.  [J o] describes the store between the
    allocation of the order cell [o] and its insertion into a queue. *)

Section StoreInvariant.
Variable I : State -> Prop.
Variable J : addr -> State -> Prop.
Variable FF : State -> Prop.

Hypothesis I_Price : forall p s, I s -> I (put_book (with_Price p (ob s)) s).
Hypothesis I_map : forall buy m s, I s -> I (put_book (with_map buy m (ob s)) s).
Hypothesis I_limits : forall buy v s, I s ->
  (forall a, a ∈ v -> a ∈ limitsOf buy (ob s)) ->
  I (put_book (with_limits buy v (ob s)) s).
Hypothesis I_push : forall buy a lim s, I s -> lmem s !! a = Some lim ->
  I (put_book (with_limits buy (limitsOf buy (ob s) ++ [a]) (ob s)) s).
Hypothesis J_I : forall o s, J o s -> I s.
Hypothesis I_newOrder : forall q s, I s ->
  J (length (omem s))
    (mkState (omem s ++ [mkOrder (tick s) q (tick s) None]) (lmem s)
       (S (tick s)) (ob s)).
Hypothesis I_newLimit : forall p s, I s ->
  I (mkState (omem s) (lmem s ++ [mkLimit p 0 (mkQueue None None)])
       (tick s) (ob s)).
Hypothesis J_newLimit : forall o p s, J o s ->
  J o (mkState (omem s) (lmem s ++ [mkLimit p 0 (mkQueue None None)])
         (tick s) (ob s)).
Hypothesis I_addOrder : forall l o s, J o s ->
  wp (addOrder l (Some o)) (fun _ => I) I FF s.
Hypothesis I_deleteOrder : forall l id s, I s ->
  wp (deleteOrder l id) (fun _ => I) I FF s.
Hypothesis I_market_orders : forall side q s, I s ->
  wp (market_orders (length (omem s)) side q) (fun _ => I) I FF s.
Hypothesis I_market_partial : forall side q s, I s ->
  wp (market_partial side q) (fun _ => I) I FF s.

Local Ltac keep := first [eassumption | apply I_Price; eassumption].

Lemma inv_limits_perm buy v b s :
  I (put_book b s) -> v ≡ₚ limitsOf buy b ->
  I (put_book (with_limits buy v b) s).
Proof.
  intros HI Hv.
  apply (I_limits buy v (put_book b s) HI).
  intros a Ha. simpl. by rewrite <- Hv.
Qed.

Lemma inv_sortLimits buy s : I s -> wp (sortLimits buy) (fun _ => I) I FF s.
Proof.
  intros HI. apply wp_sortLimits; [done|]. intros v Hv.
  apply inv_limits_perm; [by rewrite put_book_same|done].
Qed.

Lemma inv_deleteLimit_len buy pos price s :
  I s ->
  wp (deleteLimit buy pos price)
    (fun _ s' => I s' /\ len buy s' = (len buy s - 1)%nat) I FF s.
Proof.
  intros HI. apply wp_deleteLimit; [done|]. intros lst Hlast Hpos ls' bm.
  assert (Hin : forall a, a ∈ <[pos := lst]> (limitsOf buy (ob s)) ->
                  a ∈ limitsOf buy (ob s)).
  { intros a Ha. apply list_elem_of_lookup in Ha as [i Hi].
    destruct (decide (pos = i)) as [->|Hne].
    - rewrite list_lookup_insert_eq in Hi by done. injection Hi as <-.
      by apply last_Some_elem_of.
    - rewrite list_lookup_insert_ne in Hi by done.
      apply list_elem_of_lookup. eauto. }
  assert (Hin' : forall a, a ∈ ls' -> a ∈ limitsOf buy (ob s)).
  { intros a Ha. apply Hin. subst ls'.
    apply elem_of_take in Ha as (i & Hi & _). apply list_elem_of_lookup. eauto. }
  assert (Hm : I (put_book bm s)) by apply I_map, HI.
  assert (Hb : limitsOf buy bm = limitsOf buy (ob s))
    by apply limitsOf_with_map.
  split; [by apply I_limits|]. split.
  - apply (I_limits buy ls' (put_book bm s) Hm). simpl. by rewrite Hb.
  - intros v Hv. split.
    + apply (I_limits buy v (put_book bm s) Hm). simpl.
      rewrite Hb. intros a Ha. apply Hin'. by rewrite <- Hv.
    + unfold len. cbn [ob put_book].
      rewrite limitsOf_with_limits, Bool.eqb_reflx, (Permutation_length Hv).
      subst ls'. rewrite length_take, length_insert. lia.
Qed.

Lemma inv_deleteLimit buy pos price s :
  I s -> wp (deleteLimit buy pos price) (fun _ => I) I FF s.
Proof.
  intros HI. eapply wp_mono; [by apply inv_deleteLimit_len| |auto|auto].
  by intros u s' [Hs' _].
Qed.

Lemma inv_addLimit buy l s : I s -> wp (addLimit buy l) (fun _ => I) I FF s.
Proof.
  intros HI. apply wp_addLimit; [done|]. intros a lim _ Ha bm.
  assert (Hm : I (put_book bm s)) by apply I_map, HI.
  assert (Hb : limitsOf buy bm = limitsOf buy (ob s))
    by apply limitsOf_with_map.
  pose proof (I_push buy a lim (put_book bm s) Hm Ha) as Hp.
  simpl in Hp. rewrite Hb in Hp.
  split; [exact Hp|]. intros v Hv.
  rewrite <- (with_limits_twice buy v (limitsOf buy (ob s) ++ [a]) bm).
  apply inv_limits_perm; [exact Hp|].
  by rewrite limitsOf_with_limits, Bool.eqb_reflx.
Qed.

Lemma inv_delete_top buy s : I s -> wp (delete_top buy) (fun _ => I) I FF s.
Proof.
  intros HI. unfold delete_top. wp_steps keep. by apply inv_deleteLimit.
Qed.

Lemma inv_bind {A B} (m : M A) (f : A -> M B) (Q : B -> State -> Prop) s :
  wp m (fun _ => I) I FF s ->
  (forall a s', I s' -> wp (f a) Q I FF s') ->
  wp (m ≫= f) Q I FF s.
Proof.
  intros Hm Hf. apply wp_bind. eapply wp_mono; [exact Hm| |auto|auto].
  intros a s' Hs'. by apply Hf.
Qed.

Lemma inv_then {A} (m : M A) (Q : A -> State -> Prop) s :
  wp m (fun _ => I) I FF s ->
  (forall a s', I s' -> Q a s') ->
  wp m Q I FF s.
Proof. intros Hm HQ. eapply wp_mono; [exact Hm| |auto|auto]. exact HQ. Qed.

Lemma inv_PlaceLimitOrder b p q s :
  I s -> wp (PlaceLimitOrder b p q) (fun _ => I) I FF s.
Proof.
  intros HI. unfold PlaceLimitOrder.
  apply wp_bind, wp_newOrder.
  pose proof (I_newOrder q s HI) as HJ. pose proof (J_I _ _ HJ) as HI1.
  apply wp_bind, getMidPrice_ro; [exact HI1|]. intros [mid err].
  apply wp_bind, wp_loadO; [exact HI1|]. intros a o _ _.
  destruct err; [by apply wp_ret|].
  repeat (match goal with |- wp (if ?c then _ else _) _ _ _ _ => destruct c end;
          [by apply wp_ret|]).
  apply wp_bind, wp_get_book. apply inv_bind.
  { destruct (map_get _ _).
    - by apply I_addOrder.
    - apply wp_bind, wp_newLimit. apply inv_bind.
      + by apply I_addOrder, J_newLimit.
      + intros _ s2 HI2. by apply inv_addLimit. }
  intros _ s2 HI2.
  apply wp_bind, wp_top_is_empty; [exact HI2| |].
  - apply wp_bind, wp_bind, wp_top_is_empty; [exact HI2| |].
    + wp_steps keep.
    + intros _. apply inv_then; [by apply inv_delete_top|].
      intros u s3 HI3. by apply wp_ret.
  - intros _. apply inv_bind; [by apply inv_delete_top|].
    intros u s3 HI3. by apply wp_ret.
Qed.

Lemma inv_cancel_range buy price n i stale s :
  I s -> wp (cancel_range buy price n i stale) (fun _ => I) I FF s.
Proof.
  revert i stale s. induction n as [|n IH]; intros i stale s HI;
    cbn [cancel_range]; [by apply wp_ret|].
  apply wp_bind, wp_get_book.
  apply wp_bind, wp_loadL; [exact HI|]. intros a lim _ _.
  apply wp_bind. destruct (feq (l_Price lim) price).
  - apply inv_bind; [by apply inv_deleteLimit|].
    intros u s' Hs'. by apply wp_ret, IH.
  - by apply wp_ret, IH.
Qed.

Lemma inv_CancelLimitOrder id price s :
  I s -> wp (CancelLimitOrder id price) (fun _ => I) I FF s.
Proof.
  intros HI. unfold CancelLimitOrder.
  apply wp_bind, getMidPrice_ro; [exact HI|]. intros [mid err].
  destruct err; [by apply wp_ret|].
  apply wp_bind, wp_get_book. apply inv_bind; [by apply I_deleteOrder|].
  intros err s1 HI1.
  destruct err; [by apply wp_ret|].
  apply wp_bind, wp_get_book. apply wp_bind.
  destruct (canDeleteLimit _ _).
  - wp_steps keep.
    destruct (feq _ _); wp_steps keep.
    apply inv_then; [by apply inv_cancel_range|].
    intros u s2 HI2. by apply wp_ret.
  - wp_steps keep.
Qed.

(** The first loop of a market order removes one limit at each
    turn: a fuel equal to the length of the slice is never used up. *)
Lemma inv_market_limits fuel side qty s :
  I s -> (len side s <= fuel)%nat ->
  wp (market_limits fuel side qty) (fun _ => I) I FF s.
Proof.
  revert qty s. induction fuel as [|fuel IH]; intros qty s HI Hfuel;
    cbn [market_limits]; apply wp_bind, wp_get_book.
  - unfold len in Hfuel. destruct (limitsOf side (ob s)); [by apply wp_ret|].
    simpl in Hfuel. lia.
  - destruct (limitsOf side (ob s)) as [|l0 t] eqn:Hls; wp_steps keep.
    destruct (fle _ _); wp_steps keep.
    eapply wp_mono; [by apply inv_deleteLimit_len, I_Price| |auto|auto].
    intros u s' [Hs' Hlen']. apply IH; [exact Hs'|].
    revert Hlen'. unfold len in *. cbn [ob put_book].
    rewrite limitsOf_with_Price, Hls. rewrite Hls in Hfuel. simpl in *. lia.
Qed.

Lemma inv_PlaceMarketOrder b qty s :
  I s -> wp (PlaceMarketOrder b qty) (fun _ => I) I FF s.
Proof.
  intros HI. unfold PlaceMarketOrder.
  destruct (fle qty 0); [by apply wp_ret|].
  apply wp_bind, wp_getTotalVolume; [exact HI|]. intros total _.
  destruct (fle total qty); [by apply wp_ret|].
  apply wp_bind, wp_get_book.
  apply inv_bind; [by apply inv_market_limits|]. intros q1 s1 HI1.
  apply wp_bind, wp_get_state.
  apply inv_bind; [by apply I_market_orders|]. intros q2 s2 HI2.
  apply inv_bind; [by apply I_market_partial|]. intros u s3 HI3.
  by apply wp_ret.
Qed.

Lemma inv_Init m s : I s -> wp (Init m) (fun _ => I) I FF s.
Proof.
  intros HI. unfold Init.
  apply wp_bind, wp_newLimit. apply wp_bind, wp_newOrder.
  apply inv_bind; [by apply I_addOrder, I_newOrder, I_newLimit|].
  intros u s1 HI1.
  apply inv_bind; [by apply inv_addLimit|]. intros u' s2 HI2.
  by apply inv_addLimit.
Qed.

Lemma inv_Reset s : I s -> wp Reset (fun _ => I) I FF s.
Proof.
  intros HI. unfold Reset.
  assert (Hnil : forall buy s', I s' -> I (put_book (with_limits buy [] (ob s')) s')).
  { intros buy s' Hs'. apply I_limits; [done|]. intros a Ha. by apply elem_of_nil in Ha. }
  apply wp_bind, wp_set_limits. apply wp_bind, wp_set_limits.
  apply wp_bind, wp_set_map. apply wp_bind, wp_set_map. apply wp_set_Price.
  apply I_Price, I_map, I_map, Hnil, Hnil, HI.
Qed.

Lemma inv_call o s : I s -> wp (call o) (fun _ => I) I FF s.
Proof.
  intros HI. destruct o; simpl.
  - by apply inv_Init.
  - by apply inv_Reset.
  - apply inv_bind; [by apply inv_PlaceLimitOrder|].
    intros r s' Hs'. by apply wp_ret.
  - apply inv_bind; [by apply inv_CancelLimitOrder|].
    intros r s' Hs'. by apply wp_ret.
  - apply inv_bind; [by apply inv_PlaceMarketOrder|].
    intros r s' Hs'. by apply wp_ret.
  - unfold GetData. wp_steps keep.
Qed.

End StoreInvariant.

(** ** Well-formed stores are kept by every call *)

Lemma wf_upto_mono n m s :
  (n <= m <= length (omem s))%nat -> wf_upto n s -> wf_upto m s.
Proof.
  intros Hnm (Hn & Ho & Hl). split; [lia|]. split.
  - intros a o Ha. destruct (Ho a o Ha) as [Hid Hnext]. split; [done|].
    intros g Hg. specialize (Hnext g Hg). lia.
  - intros a l Ha. destruct (Hl a l Ha) as [Hf Hr].
    split; intros g Hg; [specialize (Hf g Hg)|specialize (Hr g Hg)]; lia.
Qed.

Lemma wf_put_book n b s : wf_upto n s -> wf_upto n (put_book b s).
Proof. done. Qed.

Lemma wf_newOrder q s :
  wf s ->
  wf_upto (length (omem s))
    (mkState (omem s ++ [mkOrder (tick s) q (tick s) None]) (lmem s)
       (S (tick s)) (ob s)).
Proof.
  intros (Hn & Ho & Hl). split; [simpl; rewrite length_app; lia|]. split; [|done].
  simpl. intros a o Ha. apply lookup_app_Some in Ha as [Ha | [_ Ha]].
  - destruct (Ho a o Ha) as [Hid Hnext]. split; [lia|done].
  - apply list_lookup_singleton_Some in Ha as [_ <-]. simpl. split; [lia|done].
Qed.

Lemma wf_newLimit n p s :
  wf_upto n s ->
  wf_upto n
    (mkState (omem s) (lmem s ++ [mkLimit p 0 (mkQueue None None)]) (tick s) (ob s)).
Proof.
  intros (Hn & Ho & Hl). split; [done|]. split; [done|].
  simpl. intros a l Ha. apply lookup_app_Some in Ha as [Ha | [_ Ha]]; [by eapply Hl|].
  apply list_lookup_singleton_Some in Ha as [_ <-]. by split.
Qed.

(** A limit cell may be overwritten as long as its two pointers stay
    in range. *)
Lemma wf_updL n s a (l' : Limit) :
  wf_upto n s ->
  ptr_below n (q_front (l_orders l')) -> ptr_below n (q_rear (l_orders l')) ->
  wf_upto n (mkState (omem s) (<[a := l']> (lmem s)) (tick s) (ob s)).
Proof.
  intros (Hn & Ho & Hl) Hf Hr. split; [done|]. split; [done|]. simpl.
  intros b lb Hb. destruct (decide (a = b)) as [->|Hne].
  - assert (Hlt : (b < length (lmem s))%nat).
    { apply lookup_lt_Some in Hb. by rewrite length_insert in Hb. }
    rewrite list_lookup_insert_eq in Hb by done.
    by injection Hb as <-.
  - rewrite list_lookup_insert_ne in Hb by done. by eapply Hl.
Qed.

(** An order cell may be overwritten as long as its identifier stays
    and its [next] pointer goes forward. *)
Lemma wf_updO n s a o o' :
  wf_upto n s -> omem s !! a = Some o ->
  o_id o' = o_id o ->
  (forall g, o_next o' = Some g -> (a < g < n)%nat) ->
  wf_upto n (mkState (<[a := o']> (omem s)) (lmem s) (tick s) (ob s)).
Proof.
  intros (Hn & Ho & Hl) Ha Hid Hnext. split; [simpl; by rewrite length_insert|].
  split; [|done]. simpl.
  intros b ob' Hb. destruct (decide (a = b)) as [->|Hne].
  - rewrite list_lookup_insert_eq in Hb by (by eapply lookup_lt_Some).
    injection Hb as <-. rewrite Hid. destruct (Ho b o Ha) as [? _]. by split.
  - rewrite list_lookup_insert_ne in Hb by done. by eapply Ho.
Qed.

Lemma wf_next n s a o :
  wf_upto n s -> omem s !! a = Some o -> ptr_below n (o_next o).
Proof.
  intros (_ & Ho & _) Ha g Hg. destruct (Ho a o Ha) as [_ Hnext].
  specialize (Hnext g Hg). lia.
Qed.

Lemma wf_front n s a l :
  wf_upto n s -> lmem s !! a = Some l -> ptr_below n (q_front (l_orders l)).
Proof. intros (_ & _ & Hl) Ha. by destruct (Hl a l Ha). Qed.

Lemma wf_rear n s a l :
  wf_upto n s -> lmem s !! a = Some l -> ptr_below n (q_rear (l_orders l)).
Proof. intros (_ & _ & Hl) Ha. by destruct (Hl a l Ha). Qed.

Lemma wf_set_limit s a (l' : Limit) :
  wf s ->
  ptr_below (length (omem s)) (q_front (l_orders l')) ->
  ptr_below (length (omem s)) (q_rear (l_orders l')) ->
  wf (mkState (omem s) (<[a := l']> (lmem s)) (tick s) (ob s)).
Proof. unfold wf. simpl. apply wf_updL. Qed.

Lemma wf_set_order s a o o' :
  wf s -> omem s !! a = Some o ->
  o_id o' = o_id o ->
  (forall g, o_next o' = Some g -> (a < g < length (omem s))%nat) ->
  wf (mkState (<[a := o']> (omem s)) (lmem s) (tick s) (ob s)).
Proof. unfold wf. simpl. rewrite length_insert. apply wf_updO. Qed.

Lemma wf_set_Volume s a l v :
  wf s -> lmem s !! a = Some l ->
  wf (mkState (omem s) (<[a := set_Volume v l]> (lmem s)) (tick s) (ob s)).
Proof.
  intros Hwf Ha. apply wf_set_limit; [done|..]; simpl.
  - by eapply wf_front.
  - by eapply wf_rear.
Qed.

Lemma wf_addOrder l o s :
  wf_upto o s /\ length (omem s) = S o ->
  wp (addOrder l (Some o)) (fun _ => wf) wf (fun _ => False) s.
Proof.
  intros [HJ Hlen].
  assert (Hwf : wf s) by (apply (wf_upto_mono o); [lia|done]).
  unfold addOrder.
  apply wp_bind, wp_loadL; [exact Hwf|]. intros la lim -> Hla.
  apply (inv_bind wf).
  - destruct (q_rear (l_orders lim)) as [r|] eqn:Hr.
    + apply wp_bind, wp_updO; [exact Hwf|]. intros a0 o0 [= <-] Ho0.
      pose proof (wf_rear _ _ _ _ HJ Hla r Hr) as Hro.
      match goal with |- wp _ _ _ _ ?s1 => assert (Hwf1 : wf s1) end.
      { eapply wf_set_order; [done..|]. simpl. intros g [= <-]. lia. }
      apply wp_bind, wp_loadO; [exact Hwf1|]. intros a1 r' _ Hr'.
      apply wp_updL; [exact Hwf1|]. intros a2 l2 _ Hl2.
      apply wf_set_limit; [exact Hwf1|..]; simpl.
      * by eapply wf_front.
      * by eapply wf_next.
    + apply wp_bind, wp_updL; [exact Hwf|]. intros a0 l0 _ Hl0.
      match goal with |- wp _ _ _ _ ?s1 => assert (Hwf1 : wf s1) end.
      { apply wf_set_limit; [exact Hwf|..]; simpl.
        - by eapply wf_front.
        - intros g [= <-]. lia. }
      apply wp_bind, wp_loadL; [exact Hwf1|]. intros a1 l1 _ Hl1.
      apply wp_updL; [exact Hwf1|]. intros a2 l2 _ Hl2.
      apply wf_set_limit; [exact Hwf1|..]; simpl.
      * by eapply wf_rear.
      * by eapply wf_rear.
  - intros _ s1 Hwf1.
    apply wp_bind, wp_loadO; [exact Hwf1|]. intros a1 ord _ _.
    apply wp_bind, wp_loadL; [exact Hwf1|]. intros a2 l2 _ Hl2.
    apply wp_updL; [exact Hwf1|]. intros a3 l3 _ Hl3.
    by apply wf_set_Volume.
Qed.

(** The walk of [deleteOrder] goes to younger and younger cells: it
    ends before the fuel does. *)
Lemma wf_deleteOrder_loop fuel l id t s :
  wf s -> (length (omem s) - t <= S fuel)%nat ->
  wp (deleteOrder_loop fuel l id (Some t)) (fun _ => wf) wf (fun _ => False) s.
Proof.
  revert t s. induction fuel as [|fuel IH]; intros t s Hwf Hfuel;
    cbn [deleteOrder_loop];
    (apply wp_bind, wp_loadO; [exact Hwf|]); intros a0 ot [= <-] Ht;
    (destruct (o_next ot) as [n|] eqn:Hn; [|by apply wp_ret]);
    (apply wp_bind, wp_loadO; [exact Hwf|]); intros a1 nx [= <-] Hnx;
    destruct Hwf as (Hlen & Ho & Hl);
    destruct (Ho t ot Ht) as [_ Htn]; specialize (Htn n Hn);
    assert (Hwf : wf s) by done;
    (destruct (Nat.eqb (o_id nx) id);
     [|first [apply wp_out_of_fuel; lia | apply IH; [done|lia]]]).
  all: apply wp_bind, wp_loadL; [exact Hwf|]; intros a2 lim _ Hlim.
  all: apply wp_bind, wp_updL; [exact Hwf|]; intros a3 l3 _ Hl3.
  all: match goal with |- wp _ _ _ _ ?s1 =>
         assert (Hwf1 : wf s1) by (by apply wf_set_Volume) end.
  all: apply wp_bind, wp_loadO; [exact Hwf1|]; intros a4 t' [= <-] Ht'.
  all: apply wp_bind, wp_loadO; [exact Hwf1|]; intros a5 nx' Hn' Hnx'.
  all: apply wp_bind, wp_updO; [exact Hwf1|]; intros a6 o6 [= <-] Ho6.
  all: apply wp_ret.
  all: eapply wf_set_order; [exact Hwf1|exact Ho6|done|].
  all: simpl in *; intros g Hg.
  all: rewrite Ht in Ht'; injection Ht' as <-.
  all: rewrite Hn in Hn'; injection Hn' as <-.
  all: destruct (Ho n nx' Hnx') as [_ Hng]; specialize (Hng g Hg); lia.
Qed.

Lemma wf_deleteOrder l id s :
  wf s -> wp (deleteOrder l id) (fun _ => wf) wf (fun _ => False) s.
Proof.
  intros Hwf. unfold deleteOrder.
  apply wp_bind, wp_loadL; [exact Hwf|]. intros la lim -> Hla.
  apply wp_bind, wp_loadO; [exact Hwf|]. intros fa f Hf Hfa.
  destruct (Nat.eqb (o_id f) id).
  - apply wp_bind, wp_updL; [exact Hwf|]. intros a3 l3 _ Hl3.
    match goal with |- wp _ _ _ _ ?s1 =>
      assert (Hwf1 : wf s1) by (by apply wf_set_Volume) end.
    apply wp_bind, wp_updL; [exact Hwf1|]. intros a4 l4 _ Hl4.
    apply wp_ret. apply wf_set_limit; [exact Hwf1|..]; simpl.
    + by eapply (wf_next _ s).
    + by eapply wf_rear.
  - apply wp_bind, wp_get_state. rewrite Hf.
    apply wf_deleteOrder_loop; [done|lia].
Qed.

(** The second loop of a market order moves the front of one queue
    to younger and younger cells. *)
Lemma wf_market_orders_fuel fuel side q s :
  wf s ->
  (forall l0 t lim fa,
     limitsOf side (ob s) = l0 :: t -> lmem s !! l0 = Some lim ->
     q_front (l_orders lim) = Some fa -> (length (omem s) - fa <= fuel)%nat) ->
  wp (market_orders fuel side q) (fun _ => wf) wf (fun _ => False) s.
Proof.
  revert q s. induction fuel as [|fuel IH]; intros q s Hwf Hfuel;
    cbn [market_orders]; apply wp_bind, wp_get_book;
    (destruct (limitsOf side (ob s)) as [|l0 t] eqn:Hls; [by apply wp_ret|]);
    (apply wp_bind, wp_loadL; [exact Hwf|]); intros a0 lim [= <-] Hlim;
    (apply wp_bind, wp_loadO; [exact Hwf|]); intros fa fr Hfa Hfr;
    pose proof (Hfuel l0 t lim fa eq_refl Hlim Hfa) as Hd;
    pose proof (lookup_lt_Some _ _ _ Hfr) as Hlt;
    (destruct (fle (o_qty fr) q); [|by apply wp_ret]).
  - apply wp_out_of_fuel. lia.
  - apply wp_bind, wp_set_Price.
    apply wp_bind, wp_updL; [exact Hwf|]. intros a1 l1 [= <-] Hl1.
    match goal with |- wp _ _ _ _ ?s1 =>
      assert (Hwf1 : wf s1) by (by apply (wf_set_Volume (put_book _ s))) end.
    apply wp_bind, wp_updL; [exact Hwf1|]. intros a2 l2 [= <-] Hl2.
    apply IH.
    + apply wf_set_limit; [exact Hwf1|..]; simpl.
      * by eapply (wf_next _ s).
      * by eapply wf_rear.
    + cbn [ob omem lmem put_book]. rewrite limitsOf_with_Price, Hls.
      intros l0' t' lim' fa' [= <- <-] Hlim' Hfa'.
      rewrite list_lookup_insert_eq in Hlim'
        by (rewrite length_insert; by eapply lookup_lt_Some).
      injection Hlim' as <-. simpl in Hfa'.
      destruct Hwf as (_ & Ho & _). destruct (Ho fa fr Hfr) as [_ Hnext].
      specialize (Hnext fa' Hfa'). lia.
Qed.

Lemma wf_market_orders side q s :
  wf s -> wp (market_orders (length (omem s)) side q) (fun _ => wf) wf (fun _ => False) s.
Proof. intros Hwf. apply wf_market_orders_fuel; [done|]. intros. lia. Qed.

Lemma wf_market_partial side q s :
  wf s -> wp (market_partial side q) (fun _ => wf) wf (fun _ => False) s.
Proof.
  intros Hwf. unfold market_partial.
  destruct (feq q 0); [by apply wp_ret|].
  apply wp_bind, wp_get_book.
  apply wp_bind, wp_loadL; [exact Hwf|]. intros a0 lim Ha0 Hlim.
  apply wp_bind, wp_set_Price.
  apply wp_bind, wp_loadO; [exact Hwf|]. intros fa fr Hfa Hfr.
  apply wp_bind, wp_updO; [exact Hwf|]. intros a1 o1 Ha1 Ho1.
  match goal with |- wp _ _ _ _ ?s1 => assert (Hwf1 : wf s1) end.
  { eapply (wf_set_order (put_book _ s)); [exact Hwf|exact Ho1|done|].
    simpl. intros g Hg. destruct Hwf as (_ & Ho & _).
    by destruct (Ho a1 o1 Ho1) as [_ Hnext]; apply Hnext. }
  apply wp_bind, wp_loadL; [exact Hwf1|]. intros a2 l2 _ Hl2.
  apply wp_updL; [exact Hwf1|]. intros a3 l3 _ Hl3.
  by apply wf_set_Volume.
Qed.

Lemma wf_New : wf New.
Proof.
  split; [done|]. split; intros a x Ha; simpl in Ha; by rewrite lookup_nil in Ha.
Qed.

(** Every call keeps the store well formed and none runs out of fuel. *)
Lemma wf_call o s :
  wf s -> wp (call o) (fun _ => wf) wf (fun _ => False) s.
Proof.
  apply (inv_call wf (fun o s => wf_upto o s /\ length (omem s) = S o)).
  - intros p s'. apply wf_put_book.
  - intros buy m s'. apply wf_put_book.
  - intros buy v s' Hwf _. by apply wf_put_book.
  - intros buy a lim s' Hwf _. by apply wf_put_book.
  - intros o' s' [HJ Hlen]. apply (wf_upto_mono o'); [lia|done].
  - intros q s' Hwf. split; [by apply wf_newOrder|].
    simpl. rewrite length_app. simpl. lia.
  - intros p s'. apply wf_newLimit.
  - intros o' p s' [HJ Hlen]. split; [by apply wf_newLimit|done].
  - apply wf_addOrder.
  - apply wf_deleteOrder.
  - apply wf_market_orders.
  - apply wf_market_partial.
Qed.

Lemma wf_exec o s : wf s -> wf (exec o s).
Proof.
  intros Hwf. unfold exec. apply wp_state_of.
  eapply wp_mono; [by apply wf_call|auto..]. by intros ? [].
Qed.

Lemma wf_run ops s : wf s -> wf (run ops s).
Proof.
  unfold run. revert s. induction ops as [|o ops IH]; intros s Hwf; simpl;
    [exact Hwf|].
  by apply IH, wf_exec.
Qed.

Lemma reachable_wf s : reachable s -> wf s.
Proof. intros [ops ->]. apply wf_run, wf_New. Qed.

(** ** Cells that no queue can reach *)

Lemma carries_insert x om a o o' p :
  om !! a = Some o -> o_id o' = o_id o ->
  carries x (<[a := o']> om) p -> carries x om p.
Proof.
  intros Ha Hid (g & og & -> & Hg & Hx). destruct (decide (a = g)) as [->|Hne].
  - rewrite list_lookup_insert_eq in Hg by (by eapply lookup_lt_Some).
    injection Hg as <-. exists g, o. by rewrite <- Hid.
  - rewrite list_lookup_insert_ne in Hg by done. by exists g, og.
Qed.

Lemma carries_app x om o p :
  o_id o <> x -> carries x (om ++ [o]) p -> carries x om p.
Proof.
  intros Hid (g & og & -> & Hg & Hx).
  apply lookup_app_Some in Hg as [Hg | [_ Hg]]; [by exists g, og|].
  apply list_lookup_singleton_Some in Hg as [_ <-]. done.
Qed.

Lemma carries_None x om : ~ carries x om None.
Proof. by intros (g & og & ? & _). Qed.

Section Unlinked.
Variable x : UUID.

Lemma unlinked_put_book b s : unlinked x s -> unlinked x (put_book b s).
Proof. done. Qed.

Lemma unlinked_newOrder q s :
  unlinked x s ->
  unlinked x
    (mkState (omem s ++ [mkOrder (tick s) q (tick s) None]) (lmem s)
       (S (tick s)) (ob s)) /\
  ~ carries x (omem s ++ [mkOrder (tick s) q (tick s) None])
      (Some (length (omem s))).
Proof.
  intros (Ht & Ho & Hl).
  assert (Hnew : o_id (mkOrder (tick s) q (tick s) None) <> x) by (simpl; lia).
  split; [split; [simpl; lia|split]|]; simpl.
  - intros a o Ha Hc. apply carries_app in Hc; [|done].
    apply lookup_app_Some in Ha as [Ha | [_ Ha]]; [by eapply Ho|].
    apply list_lookup_singleton_Some in Ha as [_ <-]. by apply carries_None in Hc.
  - intros a l Ha. destruct (Hl a l Ha) as [Hf Hr].
    split; intros Hc; apply carries_app in Hc; done.
  - intros (g & og & [= <-] & Hg & Hx).
    rewrite lookup_app_r, Nat.sub_diag in Hg by done.
    injection Hg as <-. done.
Qed.

Lemma unlinked_newLimit p s :
  unlinked x s ->
  unlinked x
    (mkState (omem s) (lmem s ++ [mkLimit p 0 (mkQueue None None)]) (tick s) (ob s)).
Proof.
  intros (Ht & Ho & Hl). split; [done|]. split; [done|]. simpl.
  intros a l Ha. apply lookup_app_Some in Ha as [Ha | [_ Ha]]; [by eapply Hl|].
  apply list_lookup_singleton_Some in Ha as [_ <-]. simpl.
  split; apply carries_None.
Qed.

Lemma unlinked_set_limit s a (l' : Limit) :
  unlinked x s ->
  ~ carries x (omem s) (q_front (l_orders l')) ->
  ~ carries x (omem s) (q_rear (l_orders l')) ->
  unlinked x (mkState (omem s) (<[a := l']> (lmem s)) (tick s) (ob s)).
Proof.
  intros (Ht & Ho & Hl) Hf Hr. split; [done|]. split; [done|]. simpl.
  intros b lb Hb. destruct (decide (a = b)) as [->|Hne].
  - assert (Hlt : (b < length (lmem s))%nat).
    { apply lookup_lt_Some in Hb. by rewrite length_insert in Hb. }
    rewrite list_lookup_insert_eq in Hb by done. by injection Hb as <-.
  - rewrite list_lookup_insert_ne in Hb by done. by eapply Hl.
Qed.

Lemma unlinked_set_order s a o o' :
  unlinked x s -> omem s !! a = Some o ->
  o_id o' = o_id o ->
  ~ carries x (omem s) (o_next o') ->
  unlinked x (mkState (<[a := o']> (omem s)) (lmem s) (tick s) (ob s)).
Proof.
  intros (Ht & Ho & Hl) Ha Hid Hnext. split; [done|]. simpl. split.
  - intros b ob' Hb Hc. apply (carries_insert _ _ _ o) in Hc; [|done..].
    destruct (decide (a = b)) as [->|Hne].
    + rewrite list_lookup_insert_eq in Hb by (by eapply lookup_lt_Some).
      by injection Hb as <-.
    + rewrite list_lookup_insert_ne in Hb by done. by eapply Ho.
  - intros b lb Hb. destruct (Hl b lb Hb) as [Hf Hr].
    split; intros Hc; apply (carries_insert _ _ _ o) in Hc; done.
Qed.

Lemma unlinked_set_Volume s a l v :
  unlinked x s -> lmem s !! a = Some l ->
  unlinked x (mkState (omem s) (<[a := set_Volume v l]> (lmem s)) (tick s) (ob s)).
Proof.
  intros Hu Ha. destruct Hu as (Ht & Ho & Hl). destruct (Hl a l Ha) as [Hf Hr].
  by apply unlinked_set_limit.
Qed.

Lemma unlinked_next s a o :
  unlinked x s -> omem s !! a = Some o -> ~ carries x (omem s) (o_next o).
Proof. intros (_ & Ho & _) Ha. by eapply Ho. Qed.

Lemma unlinked_front s a l :
  unlinked x s -> lmem s !! a = Some l ->
  ~ carries x (omem s) (q_front (l_orders l)).
Proof. intros (_ & _ & Hl) Ha. by destruct (Hl a l Ha). Qed.

Lemma unlinked_rear s a l :
  unlinked x s -> lmem s !! a = Some l ->
  ~ carries x (omem s) (q_rear (l_orders l)).
Proof. intros (_ & _ & Hl) Ha. by destruct (Hl a l Ha). Qed.

Lemma unlinked_addOrder l o s :
  (unlinked x) s /\ ~ carries x (omem s) (Some o) ->
  wp (addOrder l (Some o)) (fun _ => (unlinked x)) (unlinked x) (unlinked x) s.
Proof.
  intros [Hu Hfresh]. unfold addOrder.
  apply wp_bind, wp_loadL; [exact Hu|]. intros la lim -> Hla.
  apply (inv_bind (unlinked x)).
  - destruct (q_rear (l_orders lim)) as [r|] eqn:Hr.
    + apply wp_bind, wp_updO; [exact Hu|]. intros a0 o0 [= <-] Ho0.
      match goal with |- wp _ _ _ _ ?s1 => assert (Hu1 : (unlinked x) s1) end.
      { by eapply unlinked_set_order. }
      apply wp_bind, wp_loadO; [exact Hu1|]. intros a1 r' _ Hr'.
      apply wp_updL; [exact Hu1|]. intros a2 l2 _ Hl2.
      apply unlinked_set_limit; [exact Hu1|..]; cbn [q_front q_rear l_orders set_rear set_front o_next set_next].
      * by eapply unlinked_front.
      * by eapply unlinked_next.
    + apply wp_bind, wp_updL; [exact Hu|]. intros a0 l0 _ Hl0.
      match goal with |- wp _ _ _ _ ?s1 => assert (Hu1 : (unlinked x) s1) end.
      { apply unlinked_set_limit; [exact Hu|..]; cbn [q_front q_rear l_orders set_rear set_front]; [|done].
        by eapply unlinked_front. }
      apply wp_bind, wp_loadL; [exact Hu1|]. intros a1 l1 _ Hl1.
      apply wp_updL; [exact Hu1|]. intros a2 l2 _ Hl2.
      apply unlinked_set_limit; [exact Hu1|..]; cbn [q_front q_rear l_orders set_rear set_front o_next set_next].
      * by eapply unlinked_rear.
      * by eapply unlinked_rear.
  - intros _ s1 Hu1.
    apply wp_bind, wp_loadO; [exact Hu1|]. intros a1 ord _ _.
    apply wp_bind, wp_loadL; [exact Hu1|]. intros a2 l2 _ Hl2.
    apply wp_updL; [exact Hu1|]. intros a3 l3 _ Hl3.
    by apply unlinked_set_Volume.
Qed.

Lemma unlinked_deleteOrder_loop fuel l id t s :
  (unlinked x) s -> wp (deleteOrder_loop fuel l id t) (fun _ => (unlinked x)) (unlinked x) (unlinked x) s.
Proof.
  revert t s. induction fuel as [|fuel IH]; intros t s Hu;
    cbn [deleteOrder_loop];
    (apply wp_bind, wp_loadO; [exact Hu|]); intros a0 ot Ha0 Ht;
    (destruct (o_next ot) as [n|] eqn:Hn; [|by apply wp_ret]);
    (apply wp_bind, wp_loadO; [exact Hu|]); intros a1 nx [= <-] Hnx;
    (destruct (Nat.eqb (o_id nx) id);
     [|first [by apply wp_out_of_fuel | by apply IH]]).
  all: apply wp_bind, wp_loadL; [exact Hu|]; intros a2 lim _ Hlim.
  all: apply wp_bind, wp_updL; [exact Hu|]; intros a3 l3 _ Hl3.
  all: match goal with |- wp _ _ _ _ ?s1 =>
         assert (Hu1 : (unlinked x) s1) by (by apply unlinked_set_Volume) end.
  all: apply wp_bind, wp_loadO; [exact Hu1|]; intros a4 t' _ Ht'.
  all: apply wp_bind, wp_loadO; [exact Hu1|]; intros a5 nx' _ Hnx'.
  all: apply wp_bind, wp_updO; [exact Hu1|]; intros a6 o6 _ Ho6.
  all: apply wp_ret.
  all: eapply unlinked_set_order; [exact Hu1|exact Ho6|done|].
  all: cbn [o_next set_next]; by eapply (unlinked_next _ a5).
Qed.

Lemma unlinked_deleteOrder l id s :
  (unlinked x) s -> wp (deleteOrder l id) (fun _ => (unlinked x)) (unlinked x) (unlinked x) s.
Proof.
  intros Hu. unfold deleteOrder.
  apply wp_bind, wp_loadL; [exact Hu|]. intros la lim -> Hla.
  apply wp_bind, wp_loadO; [exact Hu|]. intros fa f Hf Hfa.
  destruct (Nat.eqb (o_id f) id).
  - apply wp_bind, wp_updL; [exact Hu|]. intros a3 l3 _ Hl3.
    match goal with |- wp _ _ _ _ ?s1 =>
      assert (Hu1 : (unlinked x) s1) by (by apply unlinked_set_Volume) end.
    apply wp_bind, wp_updL; [exact Hu1|]. intros a4 l4 _ Hl4.
    apply wp_ret. apply unlinked_set_limit; [exact Hu1|..]; cbn [q_front q_rear l_orders set_rear set_front o_next set_next].
    + by eapply (unlinked_next s).
    + by eapply unlinked_rear.
  - apply wp_bind, wp_get_state. by apply unlinked_deleteOrder_loop.
Qed.

Lemma unlinked_market_orders fuel side q s :
  (unlinked x) s -> wp (market_orders fuel side q) (fun _ => (unlinked x)) (unlinked x) (unlinked x) s.
Proof.
  revert q s. induction fuel as [|fuel IH]; intros q s Hu;
    cbn [market_orders]; apply wp_bind, wp_get_book;
    (destruct (limitsOf side (ob s)) as [|l0 t] eqn:Hls; [by apply wp_ret|]);
    (apply wp_bind, wp_loadL; [exact Hu|]); intros a0 lim [= <-] Hlim;
    (apply wp_bind, wp_loadO; [exact Hu|]); intros fa fr Hfa Hfr;
    (destruct (fle (o_qty fr) q); [|by apply wp_ret]).
  - by apply wp_out_of_fuel.
  - apply wp_bind, wp_set_Price.
    apply wp_bind, wp_updL; [exact Hu|]. intros a1 l1 [= <-] Hl1.
    match goal with |- wp _ _ _ _ ?s1 =>
      assert (Hu1 : (unlinked x) s1) by (by apply (unlinked_set_Volume (put_book _ s))) end.
    apply wp_bind, wp_updL; [exact Hu1|]. intros a2 l2 [= <-] Hl2.
    apply IH. apply unlinked_set_limit; [exact Hu1|..]; cbn [q_front q_rear l_orders set_rear set_front o_next set_next].
    + by eapply (unlinked_next s).
    + by eapply unlinked_rear.
Qed.

Lemma unlinked_market_partial side q s :
  (unlinked x) s -> wp (market_partial side q) (fun _ => (unlinked x)) (unlinked x) (unlinked x) s.
Proof.
  intros Hu. unfold market_partial.
  destruct (feq q 0); [by apply wp_ret|].
  apply wp_bind, wp_get_book.
  apply wp_bind, wp_loadL; [exact Hu|]. intros a0 lim Ha0 Hlim.
  apply wp_bind, wp_set_Price.
  apply wp_bind, wp_loadO; [exact Hu|]. intros fa fr Hfa Hfr.
  apply wp_bind, wp_updO; [exact Hu|]. intros a1 o1 Ha1 Ho1.
  match goal with |- wp _ _ _ _ ?s1 => assert (Hu1 : (unlinked x) s1) end.
  { eapply (unlinked_set_order (put_book _ s)); [exact Hu|exact Ho1|done|].
    cbn [o_next set_qty]. by eapply (unlinked_next s). }
  apply wp_bind, wp_loadL; [exact Hu1|]. intros a2 l2 _ Hl2.
  apply wp_updL; [exact Hu1|]. intros a3 l3 _ Hl3.
  by apply unlinked_set_Volume.
Qed.

Lemma unlinked_call o s : (unlinked x) s -> wp (call o) (fun _ => (unlinked x)) (unlinked x) (unlinked x) s.
Proof.
  apply (inv_call (unlinked x) (fun o s => (unlinked x) s /\ ~ carries x (omem s) (Some o))).
  - intros p s'. apply unlinked_put_book.
  - intros buy m s'. apply unlinked_put_book.
  - intros buy v s' Hu _. by apply unlinked_put_book.
  - intros buy a lim s' Hu _. by apply unlinked_put_book.
  - by intros o' s' [HJ _].
  - intros q s' Hu. by apply unlinked_newOrder.
  - intros p s'. apply unlinked_newLimit.
  - intros o' p s' [HJ Hc]. split; [by apply unlinked_newLimit|done].
  - apply unlinked_addOrder.
  - apply unlinked_deleteOrder.
  - intros. by apply unlinked_market_orders.
  - apply unlinked_market_partial.
Qed.

Lemma unlinked_exec o s : (unlinked x) s -> (unlinked x) (exec o s).
Proof. intros Hu. unfold exec. by apply wp_state_of, unlinked_call. Qed.

Lemma unlinked_run ops s : (unlinked x) s -> (unlinked x) (run ops s).
Proof.
  unfold run. revert s. induction ops as [|o ops IH]; intros s Hu; simpl;
    [exact Hu|].
  by apply IH, unlinked_exec.
Qed.
End Unlinked.

(** ** The slices hold allocated limits *)

Lemma book_ok_ext s s' :
  BuyLimits (ob s') = BuyLimits (ob s) ->
  SellLimits (ob s') = SellLimits (ob s) ->
  length (lmem s') = length (lmem s) ->
  book_ok s -> book_ok s'.
Proof.
  intros Hb Hs Hl Hok buy a. rewrite Hl. intros Ha. apply (Hok buy).
  destruct buy; simpl in *; congruence.
Qed.

Lemma book_ok_call o s :
  book_ok s -> wp (call o) (fun _ => book_ok) book_ok book_ok s.
Proof.
  apply (inv_call book_ok (fun _ s => book_ok s)).
  - intros p s' Hok buy a. cbn [ob put_book lmem].
    rewrite limitsOf_with_Price. apply Hok.
  - intros buy m s' Hok buy' a. cbn [ob put_book lmem].
    rewrite limitsOf_with_map. apply Hok.
  - intros buy v s' Hok Hsub buy' a. cbn [ob put_book lmem].
    rewrite limitsOf_with_limits. destruct (Bool.eqb_spec buy' buy) as [->|_].
    + intros Ha. by apply (Hok buy), Hsub.
    + apply Hok.
  - intros buy a lim s' Hok Ha buy' a'. cbn [ob put_book lmem].
    rewrite limitsOf_with_limits. destruct (Bool.eqb_spec buy' buy) as [->|_].
    + intros [Hin | ->%list_elem_of_singleton]%elem_of_app.
      * by apply (Hok buy).
      * by eapply lookup_lt_Some.
    + apply Hok.
  - done.
  - intros q s' Hok. exact Hok.
  - intros p s' Hok buy a Ha. simpl. rewrite length_app. simpl.
    specialize (Hok buy a Ha). lia.
  - intros _ p s' Hok buy a Ha. simpl. rewrite length_app. simpl.
    specialize (Hok buy a Ha). lia.
  - intros l o' s' Hok. by apply slices_addOrder; [apply book_ok_ext|].
  - intros l id s' Hok. by apply slices_deleteOrder; [apply book_ok_ext|].
  - intros side q s' Hok. by apply slices_market_orders; [apply book_ok_ext|].
  - intros side q s' Hok. by apply slices_market_partial; [apply book_ok_ext|].
Qed.

Lemma book_ok_run ops s : book_ok s -> book_ok (run ops s).
Proof.
  unfold run. revert s. induction ops as [|o ops IH]; intros s Hok; simpl;
    [exact Hok|].
  apply IH. unfold exec. by apply wp_state_of, book_ok_call.
Qed.

Lemma reachable_book_ok s : reachable s -> book_ok s.
Proof.
  intros [ops ->]. apply book_ok_run. intros buy a Ha.
  destruct buy; simpl in Ha; by apply elem_of_nil in Ha.
Qed.

(** With allocated limits at the head of both slices, the mid-price
    is read without a panic. *)
Lemma getMidPrice_returns s :
  book_ok s -> exists mid err, getMidPrice s = Ok (mid, err) s.
Proof.
  intros Hok. unfold getMidPrice, mbind, M_bind, get_book.
  destruct (BuyLimits (ob s)) as [|bl ?] eqn:Hb; [by eexists _, _|].
  destruct (SellLimits (ob s)) as [|sl ?] eqn:Hs; [by eexists _, _|].
  destruct (lookup_lt_is_Some_2 (lmem s) bl) as [lb Hlb].
  { apply (Hok true). simpl. rewrite Hb. by left. }
  destruct (lookup_lt_is_Some_2 (lmem s) sl) as [ls Hls].
  { apply (Hok false). simpl. rewrite Hs. by left. }
  assert (H1 : loadL (Some bl) s = Ok lb s) by (unfold loadL; by rewrite Hlb).
  assert (H2 : loadL (Some sl) s = Ok ls s) by (unfold loadL; by rewrite Hls).
  rewrite H1, H2. by eexists _, _.
Qed.

Lemma getMidPrice_frame s s' r :
  ob s' = ob s -> lmem s' = lmem s ->
  getMidPrice s = Ok r s -> getMidPrice s' = Ok r s'.
Proof.
  intros Hob Hlm. unfold getMidPrice, mbind, M_bind, get_book.
  rewrite Hob.
  destruct (BuyLimits (ob s)) as [|bl ?]; [by intros [= <-]|].
  destruct (SellLimits (ob s)) as [|sl ?]; [by intros [= <-]|].
  unfold loadL, mret, M_ret. rewrite Hlm.
  destruct (lmem s !! bl); [|done]. cbn beta iota. rewrite Hlm.
  destruct (lmem s !! sl); [|done].
  by intros [= <-].
Qed.

(** ** The tests of [PlaceLimitOrder] *)

Lemma wp_any {A} (m : M A) s :
  wp m (fun _ _ => True) (fun _ => True) (fun _ => True) s.
Proof. unfold wp. by destruct (m s). Qed.

Lemma wp_bind_eq {A B} (m : M A) (f : A -> M B) a s s'
    (Q : B -> State -> Prop) E F :
  m s = Ok a s' -> wp (f a) Q E F s' -> wp (m ≫= f) Q E F s.
Proof. intros Hm Hf. unfold wp, mbind, M_bind. by rewrite Hm. Qed.

Lemma loadO_alloc q s :
  loadO (Some (length (omem s))) (alloc_order q s) =
  Ok (mkOrder (tick s) q (tick s) None) (alloc_order q s).
Proof.
  unfold loadO, alloc_order. simpl.
  by rewrite lookup_app_r, Nat.sub_diag by done.
Qed.

(** The identifier returned is the one drawn by [newOrder]; the error
    returned is the one of the tests; a call that returns an error has
    only allocated the order cell; a call that panics had passed the
    tests. *)
Lemma PlaceLimitOrder_outcome b p q s mid err :
  getMidPrice s = Ok (mid, err) s ->
  wp (PlaceLimitOrder b p q)
    (fun r s' => r.1 = tick s /\ r.2 = limit_check b p q mid err /\
                 (r.2 <> None -> s' = alloc_order q s))
    (fun _ => limit_check b p q mid err = None)
    (fun _ => limit_check b p q mid err = None) s.
Proof.
  intros Hmid. unfold PlaceLimitOrder.
  apply wp_bind, wp_newOrder. fold (alloc_order q s).
  eapply wp_bind_eq.
  { by apply (getMidPrice_frame s (alloc_order q s)). }
  eapply wp_bind_eq; [apply loadO_alloc|]. cbn [o_id].
  unfold limit_check.
  destruct err as [e|]; [by apply wp_ret|].
  destruct (fle p 0); [by apply wp_ret|].
  destruct (fle q 0); [by apply wp_ret|].
  destruct (b && flt mid p); [by apply wp_ret|].
  destruct (negb b && flt p mid); [by apply wp_ret|].
  apply wp_bind, wp_get_book. apply wp_bind.
  eapply wp_mono; [apply wp_any| |done|done].
  intros ? s1 _. apply wp_bind.
  eapply wp_mono; [apply wp_any| |done|done].
  intros c1 s2 _. apply wp_bind.
  eapply wp_mono; [apply wp_any| |done|done].
  intros ? s3 _. apply wp_ret. simpl. by repeat split.
Qed.

Lemma PlaceLimitOrder_rejected b p q s mid err e :
  getMidPrice s = Ok (mid, err) s ->
  limit_check b p q mid err = Some e ->
  PlaceLimitOrder b p q s = Ok (tick s, Some e) (alloc_order q s).
Proof.
  intros Hmid He. pose proof (PlaceLimitOrder_outcome b p q s mid err Hmid) as H.
  unfold wp in H. rewrite He in H.
  destruct (PlaceLimitOrder b p q s) as [[id e'] s'| |]; [|done..].
  simpl in H. destruct H as (-> & -> & Hs'). by rewrite Hs'.
Qed.

Lemma PlaceLimitOrder_returned b p q s mid err id e s' :
  getMidPrice s = Ok (mid, err) s ->
  PlaceLimitOrder b p q s = Ok (id, e) s' ->
  id = tick s /\ e = limit_check b p q mid err /\
  (e <> None -> s' = alloc_order q s).
Proof.
  intros Hmid Hr. pose proof (PlaceLimitOrder_outcome b p q s mid err Hmid) as H.
  unfold wp in H. by rewrite Hr in H.
Qed.

(** ** An identifier that no queue can reach cannot be cancelled *)

Lemma deleteOrder_loop_unlinked x fuel l t s :
  unlinked x s ->
  wp (deleteOrder_loop fuel l x t) (fun r _ => r <> None)
    (fun _ => True) (fun _ => True) s.
Proof.
  revert t s. induction fuel as [|fuel IH]; intros t s Hu;
    cbn [deleteOrder_loop];
    (apply wp_bind, wp_loadO; [done|]); intros a0 ot Ha0 Ht;
    (destruct (o_next ot) as [n|] eqn:Hn; [|by apply wp_ret]);
    (apply wp_bind, wp_loadO; [done|]); intros a1 nx [= <-] Hnx;
    (destruct (Nat.eqb_spec (o_id nx) x) as [Hx|_];
     [|first [by apply wp_out_of_fuel | by apply IH]]).
  all: exfalso; apply (unlinked_next x s a0 ot Hu Ht).
  all: exists n, nx; by rewrite Hn.
Qed.

Lemma deleteOrder_unlinked x l s :
  unlinked x s ->
  wp (deleteOrder l x) (fun r _ => r <> None) (fun _ => True) (fun _ => True) s.
Proof.
  intros Hu. unfold deleteOrder.
  apply wp_bind, wp_loadL; [done|]. intros la lim -> Hla.
  apply wp_bind, wp_loadO; [done|]. intros fa f Hf Hfa.
  destruct (Nat.eqb_spec (o_id f) x) as [Hx|_].
  - exfalso. apply (unlinked_front x s la lim Hu Hla). by exists fa, f.
  - apply wp_bind, wp_get_state. by apply deleteOrder_loop_unlinked.
Qed.

Lemma CancelLimitOrder_unlinked x price s :
  unlinked x s ->
  wp (CancelLimitOrder x price) (fun r _ => r <> None)
    (fun _ => True) (fun _ => True) s.
Proof.
  intros Hu. unfold CancelLimitOrder.
  apply wp_bind, getMidPrice_ro; [done|]. intros [mid err].
  destruct err; [by apply wp_ret|].
  apply wp_bind, wp_get_book. apply wp_bind.
  eapply wp_mono; [by apply deleteOrder_unlinked| |done|done].
  intros [e|] s1 He; [by apply wp_ret|done].
Qed.

(** In a well-formed store the cell that [newOrder] has just
    allocated is out of reach. *)
Lemma wf_alloc_unlinked q s : wf s -> unlinked (tick s) (alloc_order q s).
Proof.
  intros (_ & Ho & Hl).
  assert (Hc : forall p, ptr_below (length (omem s)) p ->
                 ~ carries (tick s) (omem (alloc_order q s)) p).
  { intros p Hp (g & og & -> & Hg & Hx). specialize (Hp g eq_refl).
    simpl in Hg. rewrite lookup_app_l in Hg by done.
    destruct (Ho g og Hg) as [Hid _]. lia. }
  split; [simpl; lia|]. split.
  - simpl. intros a o Ha. apply Hc.
    apply lookup_app_Some in Ha as [Ha | [_ Ha]].
    + intros g Hg. destruct (Ho a o Ha) as [_ Hnext]. specialize (Hnext g Hg). lia.
    + apply list_lookup_singleton_Some in Ha as [_ <-]. by intros g.
  - simpl. intros a l Ha. destruct (Hl a l Ha) as [Hf Hr]. split; by apply Hc.
Qed.

(** Identifiers found in the queue of a limit are carried by cells
    that the front pointer reaches. *)
Lemma queue_from_unlinked x fuel s p iq :
  unlinked x s -> ~ carries x (omem s) p ->
  iq ∈ queue_from fuel (omem s) p -> iq.1 <> x.
Proof.
  intros Hu. revert p. induction fuel as [|fuel IH]; intros p Hp; simpl;
    [by intros ?%elem_of_nil|].
  destruct p as [a|]; [|by intros ?%elem_of_nil].
  destruct (omem s !! a) as [o|] eqn:Ha; [|by intros ?%elem_of_nil].
  intros [->|Hin]%elem_of_cons.
  - simpl. intros Hx. apply Hp. by exists a, o.
  - apply (IH (o_next o)); [|done]. by eapply unlinked_next.
Qed.

(** ** Queues as lists *)

Lemma chain_det om p l l' : chain om p l -> chain om p l' -> l = l'.
Proof.
  intros H. revert l'. induction H as [|a o l Ha _ IH]; intros l' H'.
  - by inversion H'.
  - inversion H' as [|a' o' l'' Ha' Hl'']; subst.
    rewrite Ha in Ha'. injection Ha' as <-. f_equal. by apply IH.
Qed.

Lemma chain_suffix om p l x :
  chain om p l -> x ∈ l ->
  exists l1 l2, l = l1 ++ x :: l2 /\ chain om (Some x) (x :: l2).
Proof.
  induction 1 as [|a o l Ha Hl IH]; [by intros ?%elem_of_nil|].
  intros [->|Hin]%elem_of_cons.
  - exists [], l. split; [done|]. by econstructor.
  - destruct (IH Hin) as (l1 & l2 & -> & Hc). by exists (a :: l1), l2.
Qed.

Lemma chain_NoDup om p l : chain om p l -> NoDup l.
Proof.
  induction 1 as [|a o l Ha Hl IH]; constructor; [|done].
  intros Hin.
  destruct (chain_suffix _ _ _ _ Hl Hin) as (l1 & l2 & -> & Hc).
  assert (Hc' : chain om (Some a) (a :: l1 ++ a :: l2)) by (by econstructor).
  pose proof (chain_det _ _ _ _ Hc Hc') as Heq.
  apply (f_equal length) in Heq. simpl in Heq. rewrite length_app in Heq.
  simpl in Heq. lia.
Qed.

Lemma chain_lookup om p l x : chain om p l -> x ∈ l -> is_Some (om !! x).
Proof.
  induction 1 as [|a o l Ha Hl IH]; [by intros ?%elem_of_nil|].
  intros [->|Hin]%elem_of_cons; eauto.
Qed.

Lemma chain_length om p l : chain om p l -> (length l <= length om)%nat.
Proof.
  intros Hc.
  assert (Hincl : incl l (seq 0 (length om))).
  { intros x Hx%list_elem_of_In. apply in_seq.
    destruct (chain_lookup _ _ _ _ Hc Hx) as [o Ho%lookup_lt_Some]. lia. }
  pose proof (NoDup_incl_length (proj1 (NoDup_ListNoDup _) (chain_NoDup _ _ _ Hc)) Hincl) as H.
  by rewrite length_seq in H.
Qed.


(** *** The orders removed are a prefix of the queue *)


Lemma fle_intro x y : x <= y -> fle x y = true.
Proof. apply Qle_bool_iff. Qed.

Lemma fle_intro_false x y : y < x -> fle x y = false.
Proof.
  intros H. destruct (fle x y) eqn:Hle; [|done].
  apply fle_true in Hle. lra.
Qed.

Lemma flt_intro x y : x < y -> flt x y = true.
Proof. intros H. unfold flt. fold (fle y x). by rewrite (fle_intro_false y x). Qed.

(** ** Steps that cannot fail *)


Lemma wp_loadL_at a l (Q : Limit -> State -> Prop) E F s :
  lmem s !! a = Some l -> Q l s -> wp (loadL (Some a)) Q E F s.
Proof. intros Ha HQ. unfold wp, loadL. by rewrite Ha. Qed.



Lemma wp_returns {A} (m : M A) (Q : A -> State -> Prop) s :
  wp m Q (fun _ => False) (fun _ => False) s ->
  exists a s', m s = Ok a s' /\ Q a s'.
Proof. unfold wp. destruct (m s) as [a s'| |]; [|done..]. by exists a, s'. Qed.

(** ** First in, first out *)

Section Fifo.
Variables (side : bool) (l0 : addr) (rest : list addr).

End Fifo.

Section FifoMarket.
Variables (side : bool) (l0 : addr) (rest : list addr).

(** The first loop leaves a limit whose volume exceeds the
    quantity. *)
Lemma market_limits_skip fuel q s lim :
  limitsOf side (ob s) = l0 :: rest -> lmem s !! l0 = Some lim ->
  q < l_Volume lim ->
  market_limits fuel side q s = Ok q s.
Proof.
  intros Hls Hlim Hq.
  assert (H : wp (market_limits fuel side q) (fun r s' => r = q /\ s' = s)
                (fun _ => False) (fun _ => False) s).
  { destruct fuel; cbn [market_limits]; apply wp_bind, wp_get_book;
      rewrite Hls; (eapply wp_bind, wp_loadL_at; [exact Hlim|]);
      rewrite fle_intro_false by done; by apply wp_ret. }
  apply wp_returns in H as (r & s' & -> & -> & ->). done.
Qed.


End FifoMarket.

(** ** Sorting a slice that was sorted before a removal *)

Section SortSorted.
Variable less : float64 -> float64 -> bool.
Hypothesis less_irrefl : forall x, less x x = false.
Hypothesis less_trans : forall x y z,
  less x y = true -> less y z = true -> less x z = true.
Hypothesis less_asym : forall x y, less x y = true -> less y x = true -> False.

Let R (x y : float64 * addr) : Prop := less x.1 y.1 = true.




End SortSorted.


Lemma flt_true x y : flt x y = true -> x < y.
Proof.
  unfold flt. intros H. apply Qnot_le_lt. intros Hle.
  apply Qle_bool_iff in Hle. rewrite Hle in H. discriminate.
Qed.


Lemma less_of_trans buy x y z :
  less_of buy x y = true -> less_of buy y z = true -> less_of buy x z = true.
Proof.
  destruct buy; unfold less_of, byHighestPrice, byLowestPrice;
    intros H1%flt_true H2%flt_true; apply flt_intro; lra.
Qed.

Lemma less_of_asym buy x y :
  less_of buy x y = true -> less_of buy y x = true -> False.
Proof.
  destruct buy; unfold less_of, byHighestPrice, byLowestPrice;
    intros H1%flt_true H2%flt_true; lra.
Qed.

(** Reading the prices of allocated limits. *)
Lemma load_prices_valid l s :
  (forall a, a ∈ l -> (a < length (lmem s))%nat) ->
  load_prices l s = Ok (map (fun a => (price_at (lmem s) a, a)) l) s.
Proof.
  induction l as [|a l IH]; intros Hv; simpl; [done|].
  destruct (lookup_lt_is_Some_2 (lmem s) a) as [lim Hlim].
  { apply Hv. by left. }
  unfold mbind, M_bind, loadL, price_at. rewrite Hlim.
  rewrite IH by (intros b Hb; apply Hv; by right). done.
Qed.



(** ** The sweep over whole limits *)




(** * The properties of the specification *)

(** ** Volume of a limit and quantities of its queue *)

(** C1.  The cached volume of a limit is meant to be the sum of the
    quantities of the orders of its queue.  [deleteOrder] moves
    [front] past the only order of a queue and leaves [rear] on it;
    the next [addOrder] links the new order behind the removed one.
    After [Init(100)], a buy of 5 at 99, its cancellation and a buy
    of 3 at 99, the limit at 99 has volume 3 and no order can be
    reached from its front. *)
Theorem cancel_then_place_volume_mismatch :
  exists s a lim,
    cancel_then_place New = Ok (None, None, None) s /\
    BuyLimits (ob s) = [a] /\ lmem s !! a = Some lim /\
    l_Price lim = 99 /\ l_Volume lim = 3 /\
    q_front (l_orders lim) = None /\
    queue_of s lim = [] /\ queue_volume s lim = 0.
Proof.
  do 3 eexists.
  split; [vm_compute; reflexivity|].
  split; [vm_compute; reflexivity|].
  split; [vm_compute; reflexivity|].
  repeat split.
Qed.

(** ** The two sides share no limit *)

(** C2.  [Init] puts one and the same limit in both slices.  Right
    after [Init(100)] a buy of 5 at the mid-price is accepted and is
    added to that limit: the only limit of the sell side goes from
    volume 0 to volume 5 and holds the buy order. *)
Theorem buy_at_mid_changes_sell_side :
  exists s0 s a lim0 lim,
    Init 100 New = Ok tt s0 /\
    BuyLimits (ob s0) = [a] /\ SellLimits (ob s0) = [a] /\
    lmem s0 !! a = Some lim0 /\
    l_Volume lim0 = 0 /\ queue_of s0 lim0 = [(0%nat, 0)] /\
    PlaceLimitOrder true 100 5 s0 = Ok (1%nat, None) s /\
    BuyLimits (ob s) = [a] /\ SellLimits (ob s) = [a] /\
    lmem s !! a = Some lim /\
    l_Volume lim = 5 /\ queue_of s lim = [(0%nat, 0); (1%nat, 5)] /\
    side_data false s0 = [Some (100, 0)] /\
    side_data false s = [Some (100, 5)].
Proof.
  do 5 eexists.
  do 13 (split; [vm_compute; reflexivity|]).
  vm_compute; reflexivity.
Qed.

(** ** Initialisation *)


(** ** Cancelling what is not there *)

(** C4.  [CancelLimitOrder] dereferences the map entry and the front
    of the queue without a test.  After [Init(100)] no limit is
    indexed at 50 on the buy side and a cancellation at 50 panics;
    the limit at 99 of [emptied_level] has an empty queue and a
    cancellation at 99 panics.  Neither returns the "no order having
    this id" error. *)
Theorem cancel_missing_order_panics (id : UUID) :
  (getMidPrice initial_book = Ok (100, None) initial_book /\
   map_get (buyLimitsMap (ob initial_book)) 50 = None /\
   CancelLimitOrder id 50 initial_book = Panic initial_book) /\
  (exists mid a lim,
     getMidPrice emptied_level = Ok (mid, None) emptied_level /\
     flt 99 mid = true /\
     map_get (buyLimitsMap (ob emptied_level)) 99 = Some a /\
     lmem emptied_level !! a = Some lim /\
     q_front (l_orders lim) = None /\
     CancelLimitOrder id 99 emptied_level = Panic emptied_level).
Proof.
  split.
  - repeat split; vm_compute; reflexivity.
  - do 3 eexists.
    do 5 (split; [vm_compute; reflexivity|]).
    vm_compute; reflexivity.
Qed.

(** ** Limit orders do not cross the mid-price *)



(** ** Market orders larger than the opposite side *)




(** ** The scenario of the specification *)

(** C7, as stated, fails: after the scenario the bid side does not
    consist of a limit at 100. *)
Lemma scenario_bid_side_is_not_bootstrap :
  exists r s,
    spec_scenario New = Ok r s /\
    side_data true s <> [Some (100, 0)] /\
    map_get (buyLimitsMap (ob s)) 100 = None.
Proof.
  do 2 eexists. split; [vm_compute; reflexivity|].
  split; [|vm_compute; reflexivity].
  vm_compute. discriminate.
Qed.

(** C7, amended.  In the scenario all five calls succeed; the
    cancellation of the buy order leaves the bid side with the single
    limit at 99, of volume 0 and with an empty queue: it is the last
    limit of its side and is kept.  The limit at 100 had left the bid
    side when the buy order was placed. *)
Theorem scenario_cancel_leaves_empty_level :
  exists s a lim s1,
    spec_scenario New = Ok (1%nat, [None; None; None; None]) s /\
    BuyLimits (ob s) = [a] /\ lmem s !! a = Some lim /\
    l_Price lim = 99 /\ l_Volume lim = 0 /\ queue_of s lim = [] /\
    side_data true s = [Some (99, 0)] /\
    side_data false s = [Some (101, 1)] /\
    Price (ob s) = 101 /\
    (Init 100;; PlaceLimitOrder true 99 5) New = Ok (1%nat, None) s1 /\
    side_data true s1 = [Some (99, 5)].
Proof.
  do 4 eexists.
  do 10 (split; [vm_compute; reflexivity|]).
  vm_compute; reflexivity.
Qed.

(** ** Both sides keep a limit *)

Section RoundedRuns.

Import PrimFloat.
Local Open Scope float_scope.
#[local] Set Warnings "-inexact-float".

(** C8.  On binary64 numbers a market order can empty a side.
    After [Init(100)], a sell of 0.6 at 101 and a sell of 1.1 at 102,
    the sell side holds these two limits and [getTotalVolume]
    returns 0.6 + 1.1, rounded up to 1.7000000000000002.  A market
    buy of 1.7 passes the volume test; the first loop takes the
    limit at 101 and is left with 1.7 - 0.6, rounded up to 1.1, which
    covers the limit at 102: [deleteLimit] removes the last limit
    of the sell side.  The call returns no error, [getMidPrice]
    fails from then on, and so does every limit order. *)
Theorem market_order_empties_sell_side :
  exists s1 s2 s3,
    Binary64.two_sell_levels Binary64.New = Binary64.Ok [None; None] s1 /\
    Binary64.side_data true s1 = [Some (100, 0)] /\
    Binary64.side_data false s1 = [Some (101, 0.6); Some (102, 1.1)] /\
    Binary64.getTotalVolume false s1 = Binary64.Ok 1.7000000000000002 s1 /\
    Binary64.fsub 1.7 0.6 = 1.1 /\
    Binary64.PlaceMarketOrder true 1.7 s1 = Binary64.Ok None s2 /\
    Binary64.side_data true s2 = [Some (100, 0)] /\
    Binary64.SellLimits (Binary64.ob s2) = [] /\
    Binary64.getMidPrice s2 = Binary64.Ok (0, Some ErrNoLimits) s2 /\
    Binary64.PlaceLimitOrder false 101 1 s2 =
      Binary64.Ok (3%nat, Some ErrNoLimits) s3.
Proof.
  do 3 eexists.
  do 9 (split; [vm_compute; reflexivity|]).
  vm_compute; reflexivity.
Qed.

End RoundedRuns.

(** ** First in, first out *)

(** C9.  A sell of 5 at 101 is placed and cancelled after [Init(100)]:
    the limit at 101 is the only one of its side and stays, with
    [front] at [nil] and [rear] still on the cancelled order.  Two
    sells at 101 follow, of 3 and then of 4: both are accepted, the
    second is linked behind the first and the volume of the limit is
    7, but [front] is still [nil].  A market buy of 3, which covers
    the first of the two orders and not both, passes the volume test
    and then reads [front.qty]: it panics, and nothing of the book
    has changed. *)
Theorem stale_rear_breaks_fifo :
  exists s lim,
    place_behind_stale_rear New = Ok (2%nat, 3%nat, [None; None; None; None]) s /\
    side_data true s = [Some (100, 0)] /\
    side_data false s = [Some (101, 7)] /\
    SellLimits (ob s) = [1%nat] /\
    lmem s !! 1%nat = Some lim /\
    q_front (l_orders lim) = None /\
    q_rear (l_orders lim) = Some 3%nat /\
    queue_of s lim = [] /\
    omem s !! 2%nat = Some (mkOrder 2 3 2 (Some 3%nat)) /\
    omem s !! 3%nat = Some (mkOrder 3 4 3 None) /\
    getTotalVolume false s = Ok 7 s /\
    PlaceMarketOrder true 3 s = Panic s.
Proof.
  do 2 eexists.
  do 11 (split; [vm_compute; reflexivity|]).
  vm_compute; reflexivity.
Qed.

Section RoundedQueue.

Import PrimFloat.
Local Open Scope float_scope.
#[local] Set Warnings "-inexact-float".

(** On binary64 numbers rounding alone has the same effect.  After
    [Init(100)], a sell of 0.6 and then a sell of 1.1, both at 101,
    the queue of the limit holds the two orders and its volume is
    1.7000000000000002.  A market buy of 1.7 covers the first order
    and, in exact arithmetic, not both; the code subtracts 0.6,
    is left with 1.1, removes the second order too and then reads
    [front.qty] through [nil]. *)
Lemma rounding_takes_both_orders :
  exists s lim s' lim',
    Binary64.two_sells_at_one_price Binary64.New =
      Binary64.Ok (1%nat, 2%nat, [None; None]) s /\
    Binary64.side_data false s = [Some (101, 1.7000000000000002)] /\
    Binary64.lmem s !! 1%nat = Some lim /\
    Binary64.queue_of s lim = [(1%nat, 0.6); (2%nat, 1.1)] /\
    Binary64.PlaceMarketOrder true 1.7 s = Binary64.Panic s' /\
    Binary64.side_data false s' = [Some (101, 0)] /\
    Binary64.lmem s' !! 1%nat = Some lim' /\
    Binary64.queue_of s' lim' = [].
Proof.
  do 4 eexists.
  do 7 (split; [vm_compute; reflexivity|]).
  vm_compute; reflexivity.
Qed.

End RoundedQueue.

(** ** Identifiers of rejected limit orders *)

(** C10.  In every state of a process started with [New()], the
    mid-price is read without a panic, and for every limit order:
    what [PlaceLimitOrder] returns, with or without an error, carries
    the identifier just drawn, which no order of the store carries;
    when one of the tests fails (no limit on a side, price or quantity
    not positive, price across the mid-price) the identifier is
    returned with the error; and after an error the identifier is in
    the queue of no limit and no later [CancelLimitOrder] of it, at
    any price and after any calls, succeeds. *)
Theorem rejected_limit_order_identifier b p q s :
  reachable s ->
  exists mid err,
    getMidPrice s = Ok (mid, err) s /\
    (forall id e s', PlaceLimitOrder b p q s = Ok (id, e) s' ->
       id = tick s /\ forall a o, omem s !! a = Some o -> o_id o <> id) /\
    (forall e, limit_check b p q mid err = Some e ->
       PlaceLimitOrder b p q s = Ok (tick s, Some e) (alloc_order q s)) /\
    (forall id e s', PlaceLimitOrder b p q s = Ok (id, Some e) s' ->
       (forall a l iq, lmem s' !! a = Some l -> iq ∈ queue_of s' l -> iq.1 <> id) /\
       (forall ops price s'',
          CancelLimitOrder id price (run ops s') <> Ok None s'')).
Proof.
  intros Hreach.
  pose proof (reachable_wf s Hreach) as Hwf.
  destruct (getMidPrice_returns s (reachable_book_ok s Hreach)) as (mid & err & Hmid).
  exists mid, err. split; [exact Hmid|]. split; [|split].
  - intros id e s' Hr.
    destruct (PlaceLimitOrder_returned _ _ _ _ _ _ _ _ _ Hmid Hr) as (-> & _ & _).
    split; [done|]. intros a o Ha. destruct Hwf as (_ & Ho & _).
    destruct (Ho a o Ha) as [Hid _]. lia.
  - intros e. by apply PlaceLimitOrder_rejected.
  - intros id e s' Hr.
    destruct (PlaceLimitOrder_returned _ _ _ _ _ _ _ _ _ Hmid Hr) as (-> & _ & Hs').
    rewrite Hs' by done.
    pose proof (wf_alloc_unlinked q s Hwf) as Hu. split.
    + intros a l iq Hl Hiq. eapply queue_from_unlinked; [exact Hu| |exact Hiq].
      by eapply unlinked_front.
    + intros ops price s'' Hc.
      pose proof (CancelLimitOrder_unlinked (tick s) price _
                    (unlinked_run (tick s) ops _ Hu)) as H.
      unfold wp in H. rewrite Hc in H. done.
Qed.

Lemma rejected_limit_order_identifier_witness :
  reachable two_sells /\
  exists mid err,
    getMidPrice two_sells = Ok (mid, err) two_sells /\
    (forall id e s', PlaceLimitOrder true 102 1 two_sells = Ok (id, e) s' ->
       id = tick two_sells /\
       forall a o, omem two_sells !! a = Some o -> o_id o <> id) /\
    (forall e, limit_check true 102 1 mid err = Some e ->
       PlaceLimitOrder true 102 1 two_sells =
       Ok (tick two_sells, Some e) (alloc_order 1 two_sells)) /\
    (forall id e s', PlaceLimitOrder true 102 1 two_sells = Ok (id, Some e) s' ->
       (forall a l iq, lmem s' !! a = Some l -> iq ∈ queue_of s' l -> iq.1 <> id) /\
       (forall ops price s'',
          CancelLimitOrder id price (run ops s') <> Ok None s'')).
Proof.
  assert (H : reachable two_sells) by (eexists; reflexivity).
  split; [exact H|].
  apply (rejected_limit_order_identifier true 102 1 two_sells H).
Defined.

(** The rejected order of the example above: the buy at 102 is
    refused by the crossing test and returns the identifier 3. *)
Example rejected_buy_above_mid :
  PlaceLimitOrder true 102 1 two_sells =
  Ok (3%nat, Some ErrBuyAboveMid) (alloc_order 1 two_sells).
Proof. vm_compute; reflexivity. Qed.

(** * More of the code *)

(** ** [sort.Sort] puts a slice in order *)

Section SortOrdered.
Variable less : float64 -> float64 -> bool.
Hypothesis less_trans : forall x y z,
  less x y = true -> less y z = true -> less x z = true.
Hypothesis less_asym : forall x y, less x y = true -> less y x = true -> False.

Let R (x y : float64 * addr) : Prop := less y.1 x.1 = false.

Lemma insert_by_ordered x acc :
  StronglySorted R acc -> StronglySorted R (insert_by less x acc).
Proof.
  induction 1 as [|y acc Hacc IH Hy]; simpl.
  - by repeat constructor.
  - rewrite Forall_forall in Hy.
    destruct (less x.1 y.1) eqn:Hxy.
    + assert (Hx : R x y).
      { unfold R. destruct (less y.1 x.1) eqn:Hyx; [|done].
        destruct (less_asym _ _ Hxy Hyx). }
      constructor; [by constructor; [|apply Forall_forall]|].
      apply Forall_forall. intros z [->|Hz]%elem_of_cons; [done|].
      unfold R. destruct (less z.1 x.1) eqn:Hzx; [|done].
      specialize (Hy z Hz). unfold R in Hy.
      by rewrite (less_trans _ _ _ Hzx Hxy) in Hy.
    + constructor; [exact IH|].
      apply Forall_forall. intros z Hz.
      rewrite insert_by_perm in Hz.
      apply elem_of_cons in Hz as [->|Hz]; [done|by apply Hy].
Qed.

Lemma sort_by_ordered l : StronglySorted R (sort_by less l).
Proof.
  unfold sort_by.
  assert (H : forall acc, StronglySorted R acc ->
                StronglySorted R (foldl (fun acc x => insert_by less x acc) acc l)).
  { induction l as [|x l IH]; intros acc Hacc; simpl; [done|].
    by apply IH, insert_by_ordered. }
  apply H. constructor.
Qed.
End SortOrdered.

Lemma sorted_of_perm buy lm ls : sorted_of buy lm ls ≡ₚ ls.
Proof.
  unfold sorted_of. rewrite sort_by_perm, map_map. simpl. by rewrite map_id.
Qed.

Lemma sorted_of_ordered buy lm ls :
  StronglySorted
    (fun a b => less_of buy (price_at lm b) (price_at lm a) = false)
    (sorted_of buy lm ls).
Proof.
  unfold sorted_of.
  pose proof (sort_by_ordered (less_of buy) (less_of_trans buy) (less_of_asym buy)
                (map (fun a => (price_at lm a, a)) ls)) as H.
  assert (Hp : Forall (fun x => x.1 = price_at lm x.2)
                 (sort_by (less_of buy) (map (fun a => (price_at lm a, a)) ls))).
  { rewrite sort_by_perm. apply Forall_forall. intros [p a] Hin.
    apply list_elem_of_In, in_map_iff in Hin as (a' & Heq & _).
    by injection Heq as <- <-. }
  induction H as [|x l _ IH Hx]; simpl; constructor.
  - apply IH. by apply Forall_inv_tail in Hp.
  - pose proof (Forall_inv Hp) as Hx1. apply Forall_inv_tail in Hp.
    rewrite Forall_forall in Hx, Hp. apply Forall_forall.
    intros b Hb. apply list_elem_of_In, in_map_iff in Hb as (y & <- & Hy).
    apply list_elem_of_In in Hy.
    rewrite <- Hx1, <- (Hp y Hy). by apply Hx.
Qed.

(** ** What [addLimit] and [deleteLimit] return *)

Lemma sortLimits_eq buy s :
  (forall a, a ∈ limitsOf buy (ob s) -> (a < length (lmem s))%nat) ->
  sortLimits buy s =
  Ok tt (put_book (with_limits buy (sorted_of buy (lmem s) (limitsOf buy (ob s))) (ob s)) s).
Proof.
  intros Hv. unfold sortLimits, mbind, M_bind, get_book.
  by rewrite load_prices_valid by done.
Qed.

Lemma addLimit_eq buy a lim s :
  (forall b, b ∈ limitsOf buy (ob s) -> (b < length (lmem s))%nat) ->
  lmem s !! a = Some lim ->
  addLimit buy (Some a) s =
  Ok tt (put_book
           (with_limits buy (sorted_of buy (lmem s) (limitsOf buy (ob s) ++ [a]))
              (with_map buy (map_set (mapOf buy (ob s)) (l_Price lim) a) (ob s))) s).
Proof.
  intros Hok Ha. unfold addLimit, mbind, M_bind, loadL. rewrite Ha.
  unfold set_map, set_limits, mbind, M_bind, get_book, set_book.
  cbn beta iota. cbn [ob omem lmem tick].
  rewrite limitsOf_with_map.
  match goal with |- sortLimits buy ?s1 = _ => rewrite (sortLimits_eq buy s1) end.
  - unfold put_book. cbn [ob omem lmem tick].
    by rewrite limitsOf_with_limits, Bool.eqb_reflx, with_limits_twice.
  - cbn [ob lmem]. rewrite limitsOf_with_limits, Bool.eqb_reflx.
    intros b [Hb| ->%list_elem_of_singleton]%elem_of_app; [by apply Hok|].
    by eapply lookup_lt_Some.
Qed.

(** The slot [pos] takes the last limit and the slice loses its last
    slot: what is left is the slice without the limit at [pos]. *)
Lemma take_insert_last_perm {A} (ls : list A) (lst : A) (pos : nat) :
  last ls = Some lst -> (pos < length ls)%nat ->
  take (length ls - 1) (<[pos := lst]> ls) ≡ₚ delete pos ls.
Proof.
  intros Hlast Hpos.
  destruct ls as [|x ls _] using rev_ind; [simpl in Hpos; lia|].
  rewrite last_snoc in Hlast. injection Hlast as ->.
  rewrite length_app in *. simpl in *. rewrite Nat.add_sub.
  destruct (decide (pos = length ls)) as [->|Hne].
  - rewrite list_insert_id by (by rewrite lookup_app_r, Nat.sub_diag by done).
    rewrite take_app_length, delete_middle. by rewrite app_nil_r.
  - assert (Hlt : (pos < length ls)%nat) by lia.
    destruct (lookup_lt_is_Some_2 ls pos Hlt) as [y Hy].
    destruct (list_elem_of_split_length ls pos y Hy) as (l1 & l2 & -> & ->).
    rewrite <- app_assoc. simpl.
    rewrite insert_app_r_alt, Nat.sub_diag by done. simpl.
    rewrite delete_middle.
    replace (length (l1 ++ y :: l2)) with (length (l1 ++ lst :: l2))
      by (rewrite !length_app; done).
    replace (l1 ++ lst :: l2 ++ [lst]) with ((l1 ++ lst :: l2) ++ [lst])
      by (by rewrite <- app_assoc).
    rewrite take_app_length.
    rewrite <- Permutation_middle. rewrite (Permutation_app_comm l2 [lst]). simpl.
    by rewrite <- Permutation_middle.
Qed.

Lemma deleteLimit_eq buy pos price s lst :
  (forall b, b ∈ limitsOf buy (ob s) -> (b < length (lmem s))%nat) ->
  last (limitsOf buy (ob s)) = Some lst ->
  (pos < length (limitsOf buy (ob s)))%nat ->
  deleteLimit buy pos price s =
  Ok tt (put_book
           (with_limits buy
              (sorted_of buy (lmem s)
                 (take (length (limitsOf buy (ob s)) - 1)
                    (<[pos := lst]> (limitsOf buy (ob s)))))
              (with_map buy (map_delete (mapOf buy (ob s)) price) (ob s))) s).
Proof.
  intros Hok Hlast Hpos.
  unfold deleteLimit, mbind, M_bind, get_book. rewrite Hlast.
  destruct (Nat.ltb_spec pos (length (limitsOf buy (ob s)))) as [_|?]; [|lia].
  unfold set_limits, set_map, mbind, M_bind, get_book, set_book.
  cbn beta iota. cbn [ob omem lmem tick].
  rewrite !limitsOf_with_limits, !Bool.eqb_reflx, !mapOf_with_limits,
    !with_limits_twice, with_map_with_limits, length_insert.
  match goal with |- sortLimits buy ?s1 = _ => rewrite (sortLimits_eq buy s1) end.
  - unfold put_book. cbn [ob omem lmem tick].
    by rewrite limitsOf_with_limits, Bool.eqb_reflx, with_limits_twice.
  - cbn [ob lmem]. rewrite limitsOf_with_limits, Bool.eqb_reflx.
    intros b Hb. apply Hok.
    rewrite (take_insert_last_perm _ _ _ Hlast Hpos) in Hb.
    by eapply list_elem_of_delete_inv.
Qed.

(** ** Functions that leave prices, slices and maps alone *)

Lemma same_book_refl s : same_book s s.
Proof. by repeat split. Qed.

Lemma same_book_trans s1 s2 s3 :
  same_book s1 s2 -> same_book s2 s3 -> same_book s1 s3.
Proof.
  intros (H1 & H2 & H3 & H4 & H5) (G1 & G2 & G3 & G4 & G5).
  repeat split; congruence.
Qed.

Lemma prices_insert (lm : list Limit) a l l' :
  lm !! a = Some l -> l_Price l' = l_Price l ->
  l_Price <$> <[a := l']> lm = l_Price <$> lm.
Proof.
  intros Ha Hp. rewrite list_fmap_insert, Hp.
  apply list_insert_id. by rewrite list_lookup_fmap, Ha.
Qed.

Lemma price_at_fmap lm a : price_at lm a = default 0 ((l_Price <$> lm) !! a).
Proof. unfold price_at. rewrite list_lookup_fmap. by destruct (lm !! a). Qed.

Lemma same_book_price s s' a :
  same_book s s' -> price_at (lmem s') a = price_at (lmem s) a.
Proof. intros (H & _). by rewrite !price_at_fmap, H. Qed.

Lemma same_book_length s s' : same_book s s' -> length (lmem s') = length (lmem s).
Proof.
  intros (H & _). apply (f_equal length) in H. by rewrite !length_fmap in H.
Qed.

Lemma same_book_limitsOf s s' buy :
  same_book s s' -> limitsOf buy (ob s') = limitsOf buy (ob s).
Proof. intros (_ & H1 & H2 & _). by destruct buy. Qed.

Lemma same_book_mapOf s s' buy :
  same_book s s' -> mapOf buy (ob s') = mapOf buy (ob s).
Proof. intros (_ & _ & _ & H1 & H2). by destruct buy. Qed.

Section BookFrame.
Variable I : State -> Prop.
Hypothesis I_ext : forall s s', same_book s s' -> I s -> I s'.

Local Ltac keep :=
  try eassumption;
  match goal with
  | H : I ?s |- I _ =>
      apply (I_ext s); [|exact H];
      unfold same_book; cbn [lmem ob omem tick put_book with_Price
                             BuyLimits SellLimits buyLimitsMap sellLimitsMap];
      repeat split; try reflexivity;
      repeat (erewrite prices_insert; [|eassumption|reflexivity]);
      reflexivity
  end.

Lemma frame_addOrder l o s : I s -> wp (addOrder l o) (fun _ => I) I I s.
Proof.
  intros HI. unfold addOrder.
  apply wp_bind, wp_loadL; [keep|]. intros a lim -> Ha.
  apply wp_bind.
  eapply wp_mono with (Q := fun _ => I) (E := I) (F := I);
    [|intros ? s' Hs'|auto|auto].
  - destruct (q_rear (l_orders lim)); wp_steps keep.
  - wp_steps keep.
Qed.

Lemma frame_deleteOrder_loop fuel l id temp s :
  I s -> wp (deleteOrder_loop fuel l id temp) (fun _ => I) I I s.
Proof.
  revert temp s. induction fuel as [|fuel IH]; intros temp s HI; simpl.
  - wp_steps keep. destruct (o_next _); wp_steps keep.
    destruct (Nat.eqb _ _); wp_steps keep.
  - wp_steps keep. destruct (o_next _); wp_steps keep.
    destruct (Nat.eqb _ _); wp_steps keep. by apply IH.
Qed.

Lemma frame_deleteOrder l id s :
  I s -> wp (deleteOrder l id) (fun _ => I) I I s.
Proof.
  intros HI. unfold deleteOrder. wp_steps keep.
  destruct (Nat.eqb _ _); wp_steps keep.
  by apply frame_deleteOrder_loop.
Qed.

Lemma frame_set_Price p s : I s -> I (put_book (with_Price p (ob s)) s).
Proof. intros HI. keep. Qed.

Lemma frame_market_orders fuel side qty s :
  I s -> wp (market_orders fuel side qty) (fun _ => I) I I s.
Proof.
  revert qty s. induction fuel as [|fuel IH]; intros qty s HI;
    cbn [market_orders]; apply wp_bind, wp_get_book.
  - destruct (limitsOf side (ob s)); wp_steps keep.
    destruct (fle _ _); wp_steps keep.
  - destruct (limitsOf side (ob s)) eqn:Hls; wp_steps keep.
    destruct (fle _ _); wp_steps keep.
    apply IH. keep.
Qed.

Lemma frame_market_partial side qty s :
  I s -> wp (market_partial side qty) (fun _ => I) I I s.
Proof.
  intros HI. unfold market_partial.
  destruct (feq qty 0); wp_steps keep.
  all: cbn [ob put_book]; wp_steps keep.
Qed.
End BookFrame.

(** ** The order of the slices *)

Lemma StronglySorted_weaken {A} (R R' : A -> A -> Prop) l :
  (forall x y, x ∈ l -> y ∈ l -> R x y -> R' x y) ->
  StronglySorted R l -> StronglySorted R' l.
Proof.
  intros HR Hl. induction Hl as [|x l _ IH Hx]; constructor.
  - apply IH. intros y z Hy Hz. apply HR; by right.
  - rewrite Forall_forall in Hx. apply Forall_forall. intros y Hy.
    apply HR; [by left|by right|by apply Hx].
Qed.

Lemma mapOf_with_map buy buy' m b :
  mapOf buy (with_map buy' m b) = if Bool.eqb buy buy' then m else mapOf buy b.
Proof. by destruct buy, buy'. Qed.

Lemma mapOf_with_Price buy p b : mapOf buy (with_Price p b) = mapOf buy b.
Proof. by destruct buy. Qed.

(** [good] reads the slices, the maps, the number of limits and the
    prices of the limits of the slices. *)
Lemma good_agree s s' :
  (forall buy, limitsOf buy (ob s') = limitsOf buy (ob s)) ->
  (forall buy, mapOf buy (ob s') = mapOf buy (ob s)) ->
  (length (lmem s) <= length (lmem s'))%nat ->
  (forall a, (a < length (lmem s))%nat ->
     price_at (lmem s') a = price_at (lmem s) a) ->
  good s -> good s'.
Proof.
  intros Hls Hmap Hlen Hp (Hok & Hm & Hord & Hnd). split; [|split; [|split]].
  - intros buy a. rewrite Hls. intros Ha. specialize (Hok buy a Ha). lia.
  - intros buy k a. rewrite Hmap. intros Ha. specialize (Hm buy k a Ha). lia.
  - intros buy. unfold slice_ordered. rewrite Hls.
    eapply StronglySorted_weaken; [|apply Hord].
    intros x y Hx Hy. simpl. by rewrite !Hp by (by apply (Hok buy)).
  - intros buy. rewrite Hls. apply Hnd.
Qed.

Lemma good_ext s s' : same_book s s' -> good s -> good s'.
Proof.
  intros Hsb. apply good_agree.
  - intros buy. by apply same_book_limitsOf.
  - intros buy. by apply same_book_mapOf.
  - by rewrite (same_book_length s s').
  - intros a _. by apply same_book_price.
Qed.

Lemma price_at_app_l lm l a :
  (a < length lm)%nat -> price_at (lm ++ [l]) a = price_at lm a.
Proof. intros Ha. unfold price_at. by rewrite lookup_app_l. Qed.

Lemma good_newLimit l s :
  good s -> good (mkState (omem s) (lmem s ++ [l]) (tick s) (ob s)).
Proof.
  apply good_agree; try done.
  - simpl. rewrite length_app. lia.
  - intros a Ha. by apply price_at_app_l.
Qed.

(** Replacing the slice and the map of one side. *)
Lemma good_put buy v m s :
  good s ->
  (forall a, a ∈ v -> (a < length (lmem s))%nat) ->
  NoDup v ->
  StronglySorted
    (fun a b => less_of buy (price_at (lmem s) b) (price_at (lmem s) a) = false) v ->
  (forall k a, (k, a) ∈ m -> (a < length (lmem s))%nat) ->
  good (put_book (with_limits buy v (with_map buy m (ob s))) s).
Proof.
  intros (Hok & Hm & Hord & Hnd) Hv Hvnd Hvord Hmv.
  split; [|split; [|split]].
  - intros buy' a. cbn [ob put_book lmem].
    rewrite limitsOf_with_limits, limitsOf_with_map.
    destruct (Bool.eqb_spec buy' buy) as [->|_]; [apply Hv|apply Hok].
  - intros buy' k a. cbn [ob put_book lmem].
    rewrite mapOf_with_limits, mapOf_with_map.
    destruct (Bool.eqb_spec buy' buy) as [->|_]; [apply Hmv|apply Hm].
  - intros buy'. unfold slice_ordered. cbn [ob put_book lmem].
    rewrite limitsOf_with_limits, limitsOf_with_map.
    destruct (Bool.eqb_spec buy' buy) as [->|_]; [apply Hvord|apply Hord].
  - intros buy'. cbn [ob put_book lmem].
    rewrite limitsOf_with_limits, limitsOf_with_map.
    destruct (Bool.eqb_spec buy' buy) as [->|_]; [apply Hvnd|apply Hnd].
Qed.

Lemma map_delete_sub (m : LimitMap) k x : x ∈ map_delete m k -> x ∈ m.
Proof. unfold map_delete. by intros [_ H]%list_elem_of_filter. Qed.

(** The book after [addLimit] of an allocated limit that the slice
    does not hold yet. *)
Lemma good_add buy a k s :
  good s -> (a < length (lmem s))%nat -> a ∉ limitsOf buy (ob s) ->
  good (put_book
          (with_limits buy (sorted_of buy (lmem s) (limitsOf buy (ob s) ++ [a]))
             (with_map buy (map_set (mapOf buy (ob s)) k a) (ob s))) s).
Proof.
  intros Hg Ha Hfresh. pose proof Hg as (Hok & Hm & Hord & Hnd).
  apply good_put; [done| | | |].
  - intros b. rewrite sorted_of_perm.
    intros [Hb| ->%list_elem_of_singleton]%elem_of_app; [by apply (Hok buy)|done].
  - rewrite sorted_of_perm. apply NoDup_app. split; [apply Hnd|]. split.
    + intros x Hx ->%list_elem_of_singleton. done.
    + apply NoDup_singleton.
  - apply sorted_of_ordered.
  - intros k' b [[= -> ->]|Hb%map_delete_sub]%elem_of_cons; [done|].
    by apply (Hm buy k').
Qed.

(** The book after [deleteLimit] at a position of the slice. *)
Lemma good_delete buy pos price lst s :
  good s -> last (limitsOf buy (ob s)) = Some lst ->
  (pos < length (limitsOf buy (ob s)))%nat ->
  good (put_book
          (with_limits buy
             (sorted_of buy (lmem s)
                (take (length (limitsOf buy (ob s)) - 1)
                   (<[pos := lst]> (limitsOf buy (ob s)))))
             (with_map buy (map_delete (mapOf buy (ob s)) price) (ob s))) s).
Proof.
  intros Hg Hlast Hpos. pose proof Hg as (Hok & Hm & Hord & Hnd).
  apply good_put; [done| | | |].
  - intros b. rewrite sorted_of_perm, (take_insert_last_perm _ _ _ Hlast Hpos).
    intros Hb%list_elem_of_delete_inv. by apply (Hok buy).
  - rewrite sorted_of_perm, (take_insert_last_perm _ _ _ Hlast Hpos).
    eapply sublist_NoDup; [apply Hnd|apply sublist_delete].
  - apply sorted_of_ordered.
  - intros k b Hb%map_delete_sub. by apply (Hm buy k).
Qed.

Lemma good_Price p s : good s -> good (put_book (with_Price p (ob s)) s).
Proof.
  apply good_agree; try done; intros buy; cbn [ob put_book];
    first [apply limitsOf_with_Price | apply mapOf_with_Price].
Qed.

Lemma good_New : good New.
Proof.
  split; [|split; [|split]].
  - intros buy a Ha. destruct buy; by apply elem_of_nil in Ha.
  - intros buy k a Ha. destruct buy; by apply elem_of_nil in Ha.
  - intros buy. unfold slice_ordered. destruct buy; constructor.
  - intros buy. destruct buy; apply NoDup_nil_2.
Qed.

(** ** How a call changes the slices *)

Lemma evolves_refl P s : evolves P s s.
Proof. split; [done|]. split; [done|]. intros buy a Ha. by left. Qed.

Lemma evolves_ext P s0 s s' :
  same_book s s' -> evolves P s0 s -> evolves P s0 s'.
Proof.
  intros Hsb (Hlen & Hp & Hin). split; [|split].
  - by rewrite (same_book_length s s').
  - intros a Ha. rewrite (same_book_price s s') by done. by apply Hp.
  - intros buy a. rewrite (same_book_limitsOf s s'), (same_book_price s s') by done.
    apply Hin.
Qed.

(** A later store with the same prices and smaller slices. *)
Lemma evolves_sub P s0 s s' :
  evolves P s0 s ->
  (length (lmem s) <= length (lmem s'))%nat ->
  (forall a, a < length (lmem s) -> price_at (lmem s') a = price_at (lmem s) a)%nat ->
  book_ok s ->
  (forall buy a, a ∈ limitsOf buy (ob s') -> a ∈ limitsOf buy (ob s)) ->
  evolves P s0 s'.
Proof.
  intros (Hlen & Hp & Hin) Hlen' Hp' Hok Hsub. split; [lia|]. split.
  - intros a Ha. rewrite Hp' by lia. by apply Hp.
  - intros buy a Ha. specialize (Hsub buy a Ha).
    rewrite Hp' by (by apply (Hok buy)). by apply Hin.
Qed.

(** ** What [addOrder] returns *)

Lemma addOrder_eq a o lim oo s :
  lmem s !! a = Some lim -> omem s !! o = Some oo ->
  (forall r, q_rear (l_orders lim) = Some r -> is_Some (omem s !! r)) ->
  addOrder (Some a) (Some o) s =
  Ok tt (mkState (link_rear o (l_orders lim) (omem s))
           (<[a := mkLimit (l_Price lim) (fadd (l_Volume lim) (o_qty oo))
                     (push_queue o (l_orders lim))]> (lmem s))
           (tick s) (ob s)).
Proof.
  intros Ha Ho Hrear.
  assert (Hla : (a < length (lmem s))%nat) by (by eapply lookup_lt_Some).
  unfold addOrder, link_rear, push_queue, mbind, M_bind, loadL. rewrite Ha.
  destruct (q_rear (l_orders lim)) as [r|] eqn:Hr.
  - destruct (Hrear r eq_refl) as [c Hc].
    assert (Hlr : (r < length (omem s))%nat) by (by eapply lookup_lt_Some).
    assert (Hoo : exists oo', <[r := set_next (Some o) c]> (omem s) !! o = Some oo' /\
                              o_qty oo' = o_qty oo).
    { destruct (decide (r = o)) as [->|Hne].
      - rewrite list_lookup_insert_eq by done. eexists. split; [done|].
        simpl. congruence.
      - rewrite list_lookup_insert_ne by done. by exists oo. }
    destruct Hoo as (oo' & Hoo' & Hq).
    unfold updO, updL, loadO. rewrite Hc. cbn [omem lmem tick ob].
    repeat (first [rewrite Ha | rewrite Hoo'
                  | rewrite list_lookup_insert_eq by (by rewrite ?length_insert)];
            cbn [omem lmem tick ob]).
    rewrite list_insert_insert_eq. cbn [o_next set_next]. rewrite Hq.
    unfold set_Volume, set_rear. cbn [l_Price l_Volume l_orders q_front]. done.
  - unfold updL, loadO. rewrite Ha. cbn [omem lmem tick ob].
    repeat (first [rewrite Ho
                  | rewrite list_lookup_insert_eq by (by rewrite ?length_insert)];
            cbn [omem lmem tick ob]).
    rewrite !list_insert_insert_eq.
    unfold set_Volume, set_rear, set_front.
    cbn [l_Price l_Volume l_orders q_front q_rear]. done.
Qed.

Lemma addOrder_same_book a o s (Q : unit -> State -> Prop) E F :
  is_Some (lmem s !! a) -> is_Some (omem s !! o) ->
  (forall lim r, lmem s !! a = Some lim -> q_rear (l_orders lim) = Some r ->
     is_Some (omem s !! r)) ->
  (forall s', same_book s s' -> (length (omem s) <= length (omem s'))%nat -> Q tt s') ->
  wp (addOrder (Some a) (Some o)) Q E F s.
Proof.
  intros [lim Ha] [oo Ho] Hrear HQ. unfold wp.
  rewrite (addOrder_eq a o lim oo s Ha Ho (fun r => Hrear lim r Ha)). apply HQ.
  - unfold same_book. cbn [lmem ob]. repeat split; try reflexivity.
    by eapply prices_insert.
  - cbn [omem]. unfold link_rear.
    destruct (q_rear (l_orders lim)) as [r|]; [|done].
    destruct (omem s !! r); by rewrite ?length_insert.
Qed.

(** ** Every call keeps the book in order *)

Lemma map_get_elem (m : LimitMap) k v :
  map_get m k = Some v -> exists k', (k', v) ∈ m.
Proof.
  induction m as [|[k' v'] m IH]; simpl; [done|].
  destruct (feq k' k).
  - intros [= ->]. exists k'. by left.
  - intros H. destruct (IH H) as [k'' Hk]. exists k''. by right.
Qed.

Lemma good_empty s :
  (forall buy, limitsOf buy (ob s) = []) -> (forall buy, mapOf buy (ob s) = []) ->
  good s.
Proof.
  intros Hls Hm. split; [|split; [|split]].
  - intros buy a. rewrite Hls. by intros ?%elem_of_nil.
  - intros buy k a. rewrite Hm. by intros ?%elem_of_nil.
  - intros buy. unfold slice_ordered. rewrite Hls. constructor.
  - intros buy. rewrite Hls. apply NoDup_nil_2.
Qed.

Lemma evolves_put P s0 buy v m s :
  evolves P s0 s ->
  (forall a, a ∈ v -> a ∈ limitsOf buy (ob s) \/ P buy (price_at (lmem s) a)) ->
  evolves P s0 (put_book (with_limits buy v (with_map buy m (ob s))) s).
Proof.
  intros (Hlen & Hp & Hin) Hv. split; [done|]. split; [done|].
  intros buy' a. cbn [ob put_book lmem].
  rewrite limitsOf_with_limits, limitsOf_with_map.
  destruct (Bool.eqb_spec buy' buy) as [->|_]; [|apply Hin].
  intros Ha. destruct (Hv a Ha) as [H|H]; [by apply Hin|by right].
Qed.

Lemma top_is_empty_good buy s (Q : bool -> State -> Prop) E F :
  good s ->
  Q false s -> ((1 < len buy s)%nat -> Q true s) ->
  wp (top_is_empty buy) Q E F s.
Proof.
  intros (Hok & _) HF HT. unfold top_is_empty. apply wp_bind, wp_get_book.
  unfold canDeleteLimit.
  destruct (Nat.ltb_spec 1 (length (limitsOf buy (ob s)))) as [Hlen|_];
    [|by apply wp_ret].
  destruct (limitsOf buy (ob s)) as [|l0 t] eqn:Hls; [simpl in Hlen; lia|].
  destruct (lookup_lt_is_Some_2 (lmem s) l0) as [lim Hlim].
  { apply (Hok buy). rewrite Hls. by left. }
  simpl head. eapply wp_bind, wp_loadL_at; [exact Hlim|]. apply wp_ret.
  destruct (feq _ _); [|done]. apply HT. unfold len. rewrite Hls. exact Hlen.
Qed.

Section Pass.
Variable P : bool -> float64 -> Prop.
Variable s0 : State.

Let K (s : State) : Prop := good s /\ evolves P s0 s.

Lemma K_ext s s' : same_book s s' -> K s -> K s'.
Proof.
  intros Hsb [Hg He]. split; [by eapply good_ext|by eapply evolves_ext].
Qed.

Lemma K_Price p s : K s -> K (put_book (with_Price p (ob s)) s).
Proof. apply K_ext. by repeat split. Qed.

Lemma K_newOrder o s :
  K s -> K (mkState (omem s ++ [o]) (lmem s) (S (tick s)) (ob s)).
Proof. apply K_ext. by repeat split. Qed.

Lemma K_newLimit l s :
  K s -> K (mkState (omem s) (lmem s ++ [l]) (tick s) (ob s)).
Proof.
  intros [Hg He]. split; [by apply good_newLimit|].
  eapply evolves_sub; [exact He| | |apply Hg|done].
  - simpl. rewrite length_app. lia.
  - intros a Ha. by apply price_at_app_l.
Qed.

Lemma K_delete buy pos price lst s :
  K s -> last (limitsOf buy (ob s)) = Some lst ->
  (pos < length (limitsOf buy (ob s)))%nat ->
  K (put_book
       (with_limits buy
          (sorted_of buy (lmem s)
             (take (length (limitsOf buy (ob s)) - 1)
                (<[pos := lst]> (limitsOf buy (ob s)))))
          (with_map buy (map_delete (mapOf buy (ob s)) price) (ob s))) s).
Proof.
  intros [Hg He] Hlast Hpos. split; [by apply good_delete|].
  apply evolves_put; [done|]. intros a.
  rewrite sorted_of_perm, (take_insert_last_perm _ _ _ Hlast Hpos).
  intros Ha%list_elem_of_delete_inv. by left.
Qed.

Lemma pass_deleteLimit buy pos price s :
  K s ->
  wp (deleteLimit buy pos price)
    (fun _ s' => K s' /\ (pos < len buy s)%nat /\ len buy s' = (len buy s - 1)%nat)
    K (fun _ => False) s.
Proof.
  intros HK. pose proof HK as [(Hok & _) _]. unfold wp.
  destruct (last (limitsOf buy (ob s))) as [lst|] eqn:Hlast.
  - destruct (decide (pos < length (limitsOf buy (ob s)))%nat) as [Hpos|Hpos].
    + rewrite (deleteLimit_eq buy pos price s lst (Hok buy) Hlast Hpos).
      split; [by apply K_delete|]. split; [exact Hpos|].
      unfold len. cbn [ob put_book].
      rewrite limitsOf_with_limits, Bool.eqb_reflx.
      rewrite (Permutation_length (sorted_of_perm _ _ _)).
      rewrite length_take, length_insert. lia.
    + unfold deleteLimit, mbind, M_bind, get_book. rewrite Hlast.
      destruct (Nat.ltb_spec pos (length (limitsOf buy (ob s)))); [lia|exact HK].
  - unfold deleteLimit, mbind, M_bind, get_book. rewrite Hlast. exact HK.
Qed.

(** The clean-up that ends [PlaceLimitOrder]. *)
Lemma pass_delete_top buy s :
  K s -> (1 < len buy s)%nat ->
  wp (delete_top buy) (fun _ => K) (fun _ => False) (fun _ => False) s.
Proof.
  intros HK Hlen. pose proof HK as [(Hok & _) _]. unfold len in Hlen.
  unfold delete_top. apply wp_bind, wp_get_book.
  destruct (limitsOf buy (ob s)) as [|l0 t] eqn:Hls; [simpl in Hlen; lia|].
  destruct (lookup_lt_is_Some_2 (lmem s) l0) as [lim Hlim].
  { apply (Hok buy). rewrite Hls. by left. }
  simpl head. eapply wp_bind, wp_loadL_at; [exact Hlim|].
  destruct (last (l0 :: t)) as [lst|] eqn:Hlast; [|by apply last_None in Hlast].
  rewrite <- Hls in Hlast.
  assert (Hpos : (0 < length (limitsOf buy (ob s)))%nat) by (rewrite Hls; simpl; lia).
  unfold wp.
  rewrite (deleteLimit_eq buy 0 (l_Price lim) s lst (Hok buy) Hlast Hpos).
  by apply K_delete.
Qed.

Lemma pass_cleanup {A} (r : A) s :
  K s ->
  wp (c1 ← top_is_empty true;
      (if (c1 : bool) then delete_top true
       else c2 ← top_is_empty false;
            if (c2 : bool) then delete_top false else mret tt);;
      mret r)
    (fun _ => K) (fun _ => False) (fun _ => False) s.
Proof.
  intros HK. pose proof HK as [Hg _].
  apply wp_bind, top_is_empty_good; [done| |].
  - apply wp_bind, wp_bind, top_is_empty_good; [done| |].
    + by apply wp_ret, wp_ret.
    + intros Hlen. eapply wp_mono; [by apply pass_delete_top| |auto|auto].
      intros u s' HK'. by apply wp_ret.
  - intros Hlen. apply wp_bind.
    eapply wp_mono; [by apply pass_delete_top| |auto|auto].
    intros u s' HK'. by apply wp_ret.
Qed.

Lemma pass_cancel_range buy price n i stale s :
  K s -> wp (cancel_range buy price n i stale) (fun _ => K) K (fun _ => False) s.
Proof.
  revert i stale s. induction n as [|n IH]; intros i stale s HK;
    cbn [cancel_range]; [by apply wp_ret|].
  apply wp_bind, wp_get_book.
  apply wp_bind, wp_loadL; [exact HK|]. intros a lim _ _.
  apply wp_bind. destruct (feq (l_Price lim) price).
  - apply wp_bind. eapply wp_mono; [by apply pass_deleteLimit| |auto|auto].
    intros u s' (HK' & _). by apply wp_ret, IH.
  - by apply wp_ret, IH.
Qed.

Lemma pass_CancelLimitOrder id price s :
  K s -> wp (CancelLimitOrder id price) (fun _ => K) K K s.
Proof.
  intros HK. unfold CancelLimitOrder.
  apply wp_bind, getMidPrice_ro; [exact HK|]. intros [mid err].
  destruct err; [by apply wp_ret|].
  apply wp_bind, wp_get_book. apply wp_bind.
  eapply wp_mono; [by apply (frame_deleteOrder K K_ext)| |auto|auto].
  intros err s1 HK1.
  destruct err; [by apply wp_ret|].
  apply wp_bind, wp_get_book. apply wp_bind.
  destruct (canDeleteLimit _ _).
  - wp_steps ltac:(exact HK1).
    destruct (feq _ _); wp_steps ltac:(exact HK1).
    eapply wp_mono; [by apply pass_cancel_range| |auto|by intros ? []].
    intros u s2 HK2. by apply wp_ret.
  - wp_steps ltac:(exact HK1).
Qed.

Lemma pass_market_limits fuel side qty s :
  K s -> (len side s <= fuel)%nat ->
  wp (market_limits fuel side qty) (fun _ => K) K (fun _ => False) s.
Proof.
  revert qty s. induction fuel as [|fuel IH]; intros qty s HK Hfuel;
    cbn [market_limits]; apply wp_bind, wp_get_book.
  - unfold len in Hfuel. destruct (limitsOf side (ob s)); [by apply wp_ret|].
    simpl in Hfuel. lia.
  - destruct (limitsOf side (ob s)) as [|l0 t] eqn:Hls; [by apply wp_ret|].
    apply wp_bind, wp_loadL; [exact HK|]. intros a lim _ _.
    destruct (fle _ _); [|by apply wp_ret].
    apply wp_bind, wp_set_Price. apply wp_bind.
    eapply wp_mono; [by apply pass_deleteLimit, K_Price| |auto|auto].
    intros u s' (HK' & _ & Hlen'). apply IH; [exact HK'|].
    revert Hlen'. unfold len in *. cbn [ob put_book].
    rewrite limitsOf_with_Price, Hls. rewrite Hls in Hfuel. simpl in *. lia.
Qed.

Lemma pass_PlaceMarketOrder b qty s :
  K s -> wp (PlaceMarketOrder b qty) (fun _ => K) K K s.
Proof.
  intros HK. unfold PlaceMarketOrder.
  destruct (fle qty 0); [by apply wp_ret|].
  apply wp_bind, wp_getTotalVolume; [exact HK|]. intros total _.
  destruct (fle total qty); [by apply wp_ret|].
  apply wp_bind, wp_get_book. apply wp_bind.
  eapply wp_mono; [by apply pass_market_limits| |auto|by intros ? []].
  intros q1 s1 HK1.
  apply wp_bind, wp_get_state. apply wp_bind.
  eapply wp_mono; [by apply (frame_market_orders K K_ext)| |auto|auto].
  intros q2 s2 HK2. apply wp_bind.
  eapply wp_mono; [by apply (frame_market_partial K K_ext)| |auto|auto].
  intros u s3 HK3. by apply wp_ret.
Qed.

Lemma pass_Reset s :
  K s -> wp Reset (fun _ => K) (fun _ => False) (fun _ => False) s.
Proof.
  intros [Hg He]. unfold Reset.
  apply wp_bind, wp_set_limits. apply wp_bind, wp_set_limits.
  apply wp_bind, wp_set_map. apply wp_bind, wp_set_map. apply wp_set_Price.
  split.
  - apply good_empty; intros buy; by destruct buy.
  - eapply evolves_sub; [exact He|done|done|apply Hg|].
    intros buy a Ha. destruct buy; by apply elem_of_nil in Ha.
Qed.

Lemma pass_addLimit buy a s :
  K s -> (a < length (lmem s))%nat -> a ∉ limitsOf buy (ob s) ->
  P buy (price_at (lmem s) a) ->
  wp (addLimit buy (Some a))
    (fun _ s' => K s' /\ lmem s' = lmem s /\ omem s' = omem s /\
                 limitsOf (negb buy) (ob s') = limitsOf (negb buy) (ob s))
    (fun _ => False) (fun _ => False) s.
Proof.
  intros [Hg He] Ha Hfresh HP. pose proof Hg as (Hok & _).
  destruct (lookup_lt_is_Some_2 (lmem s) a Ha) as [lim Hlim].
  unfold wp. rewrite (addLimit_eq buy a lim s (Hok buy) Hlim).
  split; [split|].
  - by apply good_add.
  - apply evolves_put; [done|]. intros b. rewrite sorted_of_perm.
    intros [Hb| ->%list_elem_of_singleton]%elem_of_app; [by left|by right].
  - cbn [lmem omem ob put_book]. split; [done|]. split; [done|].
    by destruct buy.
Qed.
End Pass.

Lemma lookup_alloc_order q s a :
  (a <= length (omem s))%nat -> is_Some (omem (alloc_order q s) !! a).
Proof.
  intros Ha. apply lookup_lt_is_Some_2. simpl. rewrite length_app. simpl. lia.
Qed.

(** [PlaceLimitOrder] returns in every well-formed store with a book
    in order; it leaves the book in order, and the limits it adds to
    a slice are at the price of the order. *)
Lemma pass_PlaceLimitOrder b p q s :
  wf s -> good s ->
  wp (PlaceLimitOrder b p q)
    (fun _ s' => good s' /\ evolves (admitted b p q s) s s')
    (fun _ => False) (fun _ => False) s.
Proof.
  intros Hwf Hg.
  destruct (getMidPrice_returns s (proj1 Hg)) as (mid & err & Hmid).
  assert (HK1 : good (alloc_order q s) /\
                evolves (admitted b p q s) s (alloc_order q s)).
  { apply (K_newOrder (admitted b p q s) s). split; [done|apply evolves_refl]. }
  unfold PlaceLimitOrder. apply wp_bind, wp_newOrder. fold (alloc_order q s).
  eapply wp_bind_eq; [by apply (getMidPrice_frame s (alloc_order q s))|].
  eapply wp_bind_eq; [apply loadO_alloc|]. cbn [o_id].
  destruct err as [e|]; [by apply wp_ret|].
  destruct (fle p 0) eqn:H1; [by apply wp_ret|].
  destruct (fle q 0) eqn:H2; [by apply wp_ret|].
  destruct (b && flt mid p) eqn:H3; [by apply wp_ret|].
  destruct (negb b && flt p mid) eqn:H4; [by apply wp_ret|].
  assert (Hadm : limit_check b p q mid None = None).
  { unfold limit_check. by rewrite H1, H2, H3, H4. }
  apply wp_bind, wp_get_book. apply wp_bind.
  eapply wp_mono with
    (Q := fun _ s' => good s' /\ evolves (admitted b p q s) s s')
    (E := fun _ => False) (F := fun _ => False);
    [| |done|done].
  - change (ob (alloc_order q s)) with (ob s).
    destruct (map_get (mapOf b (ob s)) p) as [l|] eqn:Hget.
    + destruct (map_get_elem _ _ _ Hget) as [k Hk].
      destruct Hg as (_ & Hm & _). pose proof (Hm b k l Hk) as Hl.
      apply addOrder_same_book.
      * by apply lookup_lt_is_Some_2.
      * by apply lookup_alloc_order.
      * intros lim r Hlim Hr. apply lookup_alloc_order.
        destruct Hwf as (_ & _ & Hwl). destruct (Hwl l lim Hlim) as [_ Hrear].
        specialize (Hrear r Hr). lia.
      * intros s' Hsb _. by apply (K_ext _ _ (alloc_order q s)).
    + apply wp_bind, wp_newLimit. apply wp_bind.
      change (lmem (alloc_order q s)) with (lmem s).
      set (s2 := mkState _ _ _ _).
      assert (HK2 : good s2 /\ evolves (admitted b p q s) s s2)
        by (by apply (K_newLimit _ _ _ (alloc_order q s))).
      assert (Hl2 : lmem s2 !! length (lmem s) = Some (mkLimit p 0 (mkQueue None None))).
      { unfold s2. simpl. by rewrite lookup_app_r, Nat.sub_diag by done. }
      apply addOrder_same_book.
      * by rewrite Hl2.
      * by apply lookup_alloc_order.
      * intros lim r Hlim Hr. rewrite Hl2 in Hlim. by injection Hlim as <-.
      * intros s3 Hsb _.
        assert (HK3 : good s3 /\ evolves (admitted b p q s) s s3)
          by (by apply (K_ext _ _ s2)).
        eapply wp_mono; [apply (pass_addLimit _ s b (length (lmem s)) s3 HK3)
                        | |done|done].
        -- rewrite (same_book_length s2 s3 Hsb). unfold s2. simpl.
           rewrite length_app. simpl. lia.
        -- rewrite (same_book_limitsOf s2 s3 b Hsb). unfold s2. simpl.
           intros Hin. destruct Hg as (Hok & _). specialize (Hok b _ Hin). lia.
        -- rewrite (same_book_price s2 s3 _ Hsb). unfold price_at. rewrite Hl2.
           split; [done|]. split; [done|]. by exists mid.
        -- by intros u s4 (HK4 & _).
  - intros u s' HK'. by apply pass_cleanup.
Qed.

(** [Init] returns whenever the book is in order; the limits it adds
    are at the mid-price given. *)
Lemma pass_Init m s :
  good s ->
  wp (Init m) (fun _ s' => good s' /\ evolves (fun _ x => x = m) s s')
    (fun _ => False) (fun _ => False) s.
Proof.
  intros Hg. pose proof Hg as (Hok & _). unfold Init.
  apply wp_bind, wp_newLimit. apply wp_bind, wp_newOrder. apply wp_bind.
  set (s2 := mkState (_ ++ _) _ _ _).
  assert (HK2 : good s2 /\ evolves (fun _ x => x = m) s s2).
  { apply K_newOrder. apply (K_newLimit _ _ _ s). split; [done|apply evolves_refl]. }
  assert (Hl2 : lmem s2 !! length (lmem s) = Some (mkLimit m 0 (mkQueue None None))).
  { unfold s2. simpl. by rewrite lookup_app_r, Nat.sub_diag by done. }
  apply addOrder_same_book.
  - by rewrite Hl2.
  - apply lookup_lt_is_Some_2. unfold s2. simpl. rewrite length_app. simpl. lia.
  - intros lim r Hlim Hr. rewrite Hl2 in Hlim. by injection Hlim as <-.
  - intros s3 Hsb _.
    assert (HK3 : good s3 /\ evolves (fun _ x => x = m) s s3)
      by (by apply (K_ext _ _ s2)).
    assert (Hlen3 : (length (lmem s) < length (lmem s3))%nat).
    { rewrite (same_book_length s2 s3 Hsb). unfold s2. simpl.
      rewrite length_app. simpl. lia. }
    assert (Hp3 : price_at (lmem s3) (length (lmem s)) = m).
    { rewrite (same_book_price s2 s3 _ Hsb). unfold price_at. by rewrite Hl2. }
    assert (Hfresh : forall buy, length (lmem s) ∉ limitsOf buy (ob s3)).
    { intros buy. rewrite (same_book_limitsOf s2 s3 buy Hsb). unfold s2. simpl.
      intros Hin. specialize (Hok buy _ Hin). lia. }
    apply wp_bind.
    eapply wp_mono; [apply (pass_addLimit _ s true (length (lmem s)) s3 HK3);
                     [done|apply Hfresh|done]
                    | |done|done].
    intros u s4 (HK4 & Hlm4 & _ & Hneg4).
    eapply wp_mono; [apply (pass_addLimit _ s false (length (lmem s)) s4 HK4)
                    | |done|done].
    + by rewrite Hlm4.
    + change (limitsOf false (ob s4) = limitsOf false (ob s3)) in Hneg4.
      rewrite Hneg4. apply Hfresh.
    + by rewrite Hlm4.
    + by intros u' s5 (HK5 & _).
Qed.

(** Every call of the interface keeps the book in order, whatever its
    outcome. *)
Lemma good_call o s : wf s -> good s -> wp (call o) (fun _ => good) good good s.
Proof.
  intros Hwf Hg.
  assert (HK : good s /\ evolves (fun _ _ => False) s s)
    by (split; [done|apply evolves_refl]).
  destruct o; simpl.
  - eapply wp_mono; [by apply pass_Init| |by intros ? []|by intros ? []].
    by intros u s' [Hg' _].
  - eapply wp_mono; [apply (pass_Reset _ s s HK)| |by intros ? []|by intros ? []].
    by intros u s' [Hg' _].
  - apply wp_bind.
    eapply wp_mono;
      [by apply pass_PlaceLimitOrder| |by intros ? []|by intros ? []].
    intros r s' [Hg' _]. by apply wp_ret.
  - apply wp_bind.
    eapply wp_mono; [apply (pass_CancelLimitOrder _ s id price s HK)| | |];
      [|by intros ? []..].
    intros r s' [Hg' _]. by apply wp_ret.
  - apply wp_bind.
    eapply wp_mono; [apply (pass_PlaceMarketOrder _ s buyOrder qty s HK)| | |];
      [|by intros ? []..].
    intros r s' [Hg' _]. by apply wp_ret.
  - unfold GetData. wp_steps ltac:(exact Hg).
Qed.

Lemma run_snoc ops o s : run (ops ++ [o]) s = exec o (run ops s).
Proof. unfold run. by rewrite foldl_app. Qed.

Lemma reachable_good s : reachable s -> good s.
Proof.
  intros [ops ->]. induction ops as [|o ops IH] using rev_ind; [apply good_New|].
  rewrite run_snoc. unfold exec. apply wp_state_of.
  apply good_call; [|exact IH]. apply reachable_wf. by exists ops.
Qed.

(** ** Runs of calls *)

Lemma flt_false x y : flt x y = false -> y <= x.
Proof.
  unfold flt. intros H. apply Qle_bool_iff.
  by destruct (Qle_bool y x).
Qed.

Lemma reachable_run ops s : reachable s -> reachable (run ops s).
Proof.
  intros [ops0 ->]. exists (ops0 ++ ops). unfold run. by rewrite foldl_app.
Qed.

(** ** [deleteOrder] on a queue given as a list *)

Lemma chain_insert_other om p l x o' :
  chain om p l -> x ∉ l -> chain (<[x := o']> om) p l.
Proof.
  induction 1 as [|a o l Ha Hl IH]; intros Hx; [constructor|].
  apply not_elem_of_cons in Hx as [Hne Hx].
  apply (chain_cons _ a o); [by rewrite list_lookup_insert_ne|by apply IH].
Qed.

Lemma set_next_same o : set_next (o_next o) o = o.
Proof. by destruct o. Qed.

(** A failed search changes nothing. *)
Lemma deleteOrder_loop_error fuel l id t s :
  wp (deleteOrder_loop fuel l id t) (fun r s' => r <> None -> s' = s)
    (fun _ => True) (fun _ => True) s.
Proof.
  revert t. induction fuel as [|fuel IH]; intros t; cbn [deleteOrder_loop];
    (apply wp_bind, wp_loadO; [done|]); intros a0 ot _ _;
    (destruct (o_next ot) as [n|]; [|by apply wp_ret]);
    (apply wp_bind, wp_loadO; [done|]); intros a1 nx _ _;
    (destruct (Nat.eqb (o_id nx) id);
     [|first [by apply wp_out_of_fuel | by apply IH]]).
  all: wp_steps ltac:(done).
Qed.

Lemma deleteOrder_error l id s :
  wp (deleteOrder l id) (fun r s' => r <> None -> s' = s)
    (fun _ => True) (fun _ => True) s.
Proof.
  unfold deleteOrder.
  apply wp_bind, wp_loadL; [done|]. intros a lim _ _.
  apply wp_bind, wp_loadO; [done|]. intros fa f _ _.
  destruct (Nat.eqb (o_id f) id); [wp_steps ltac:(done)|].
  apply wp_bind, wp_get_state. apply deleteOrder_loop_error.
Qed.

Lemma CancelLimitOrder_error id price s :
  wp (CancelLimitOrder id price) (fun r s' => r <> None -> s' = s)
    (fun _ => True) (fun _ => True) s.
Proof.
  unfold CancelLimitOrder.
  apply wp_bind, getMidPrice_ro; [done|]. intros [mid err].
  destruct err; [by apply wp_ret|].
  apply wp_bind, wp_get_book. apply wp_bind.
  eapply wp_mono; [apply deleteOrder_error| |done|done].
  intros [e|] s1 He; [apply wp_ret; intros _; by apply He|].
  apply wp_bind, wp_get_book. apply wp_bind.
  eapply wp_mono; [apply wp_any| |done|done]. intros c s2 _.
  apply wp_bind.
  eapply wp_mono; [apply wp_any| |done|done]. intros u s3 _.
  by apply wp_ret.
Qed.

Lemma PlaceMarketOrder_error b q s :
  wp (PlaceMarketOrder b q) (fun r s' => r <> None -> s' = s)
    (fun _ => True) (fun _ => True) s.
Proof.
  unfold PlaceMarketOrder.
  destruct (fle q 0); [by apply wp_ret|].
  apply wp_bind, wp_getTotalVolume; [done|]. intros total _.
  destruct (fle total q); [by apply wp_ret|].
  apply wp_bind, wp_get_book. apply wp_bind.
  eapply wp_mono; [apply wp_any| |done|done]. intros q1 s1 _.
  apply wp_bind, wp_get_state. apply wp_bind.
  eapply wp_mono; [apply wp_any| |done|done]. intros q2 s2 _.
  apply wp_bind.
  eapply wp_mono; [apply wp_any| |done|done]. intros u s3 _.
  by apply wp_ret.
Qed.

(** The search of [deleteOrder] behind the cell [t]: the first order
    that carries [id] is unlinked from its predecessor, and the
    volume of the limit is reduced by its quantity. *)
Lemma deleteOrder_loop_removes a lim id c oc post s : forall pre fuel t ot,
  lmem s !! a = Some lim ->
  omem s !! t = Some ot ->
  chain (omem s) (o_next ot) (pre ++ c :: post) ->
  t ∉ pre ++ c :: post ->
  (forall x o, x ∈ pre -> omem s !! x = Some o -> o_id o <> id) ->
  omem s !! c = Some oc -> o_id oc = id ->
  (length pre <= fuel)%nat ->
  exists om',
    deleteOrder_loop fuel (Some a) id (Some t) s =
      Ok None (mkState om'
                 (<[a := set_Volume (fsub (l_Volume lim) (o_qty oc)) lim]> (lmem s))
                 (tick s) (ob s)) /\
    chain om' (Some t) (t :: pre ++ post) /\
    (forall y, y ∉ t :: pre -> om' !! y = omem s !! y) /\
    (forall y oy, omem s !! y = Some oy -> exists n, om' !! y = Some (set_next n oy)).
Proof.
  induction pre as [|x pre IH]; intros fuel t ot Ha Ht Hch Hfresh Hpre Hc Hid Hfuel.
  - simpl in Hch. inversion Hch as [|c' oc' post' Hc' Hpost Hnext]; subst c' post'.
    rewrite Hc in Hc'. injection Hc' as <-.
    assert (Htl : (t < length (omem s))%nat) by (by eapply lookup_lt_Some).
    exists (<[t := set_next (o_next oc) ot]> (omem s)). split; [|split; [|split]].
    + destruct fuel; cbn [deleteOrder_loop];
        unfold mbind, M_bind, mret, M_ret, loadO, loadL, updO, updL;
        repeat (first [rewrite Ht | rewrite <- Hnext | rewrite Hc | rewrite Ha
                      | rewrite Hid, Nat.eqb_refl];
                cbn [omem lmem tick ob]);
        reflexivity.
    + apply (chain_cons _ t (set_next (o_next oc) ot)).
      * by rewrite list_lookup_insert_eq.
      * simpl. apply chain_insert_other; [done|].
        intros Hin. apply Hfresh. simpl. by right.
    + intros y Hy. apply not_elem_of_cons in Hy as [Hy _].
      by rewrite list_lookup_insert_ne.
    + intros y oy Hy. destruct (decide (t = y)) as [->|Hne].
      * rewrite Ht in Hy. injection Hy as <-. eexists.
        by rewrite list_lookup_insert_eq.
      * exists (o_next oy). by rewrite list_lookup_insert_ne, set_next_same.
  - simpl in Hch. inversion Hch as [|x' ox rest Hx Hrest Hnext]; subst x' rest.
    assert (Hidx : o_id ox <> id) by (apply (Hpre x); [by left|done]).
    destruct fuel as [|fuel]; [simpl in Hfuel; lia|].
    assert (Hxfresh : x ∉ pre ++ c :: post).
    { assert (Hcx : chain (omem s) (Some x) (x :: pre ++ c :: post))
        by (by econstructor).
      apply chain_NoDup in Hcx. by apply NoDup_cons in Hcx as [? _]. }
    destruct (IH fuel x ox Ha Hx Hrest Hxfresh) as (om' & Hrun & Hch' & Hsame & Hcells);
      [intros y o Hy; apply Hpre; by right|done|done|simpl in Hfuel; lia|].
    exists om'. split; [|split; [|split]].
    + cbn [deleteOrder_loop]. unfold mbind, M_bind, loadO.
      rewrite Ht, <- Hnext, Hx. apply Nat.eqb_neq in Hidx. rewrite Hidx.
      exact Hrun.
    + apply (chain_cons _ t ot); [|by rewrite <- Hnext].
      rewrite Hsame; [done|]. intros Hin. apply Hfresh.
      simpl. apply elem_of_cons in Hin as [->|Hin]; [by left|].
      right. apply elem_of_app. by left.
    + intros y Hy. apply Hsame. intros Hin. apply Hy. by right.
    + exact Hcells.
Qed.

Lemma deleteOrder_loop_missing l id s : forall rest fuel t ot,
  omem s !! t = Some ot ->
  chain (omem s) (o_next ot) rest ->
  (forall x o, x ∈ rest -> omem s !! x = Some o -> o_id o <> id) ->
  (length rest <= fuel)%nat ->
  deleteOrder_loop fuel l id (Some t) s = Ok (Some ErrNoSuchOrder) s.
Proof.
  induction rest as [|x rest IH]; intros fuel t ot Ht Hch Hids Hfuel.
  - inversion Hch as [Hnext|]. destruct fuel; cbn [deleteOrder_loop];
      unfold mbind, M_bind, loadO; by rewrite Ht, <- Hnext.
  - inversion Hch as [|x' ox rest' Hx Hrest Hnext]; subst x' rest'.
    assert (Hidx : o_id ox <> id) by (apply (Hids x); [by left|done]).
    destruct fuel as [|fuel]; [simpl in Hfuel; lia|].
    cbn [deleteOrder_loop]. unfold mbind, M_bind, loadO.
    rewrite Ht, <- Hnext, Hx. apply Nat.eqb_neq in Hidx. rewrite Hidx.
    apply (IH fuel x ox Hx Hrest); [|simpl in Hfuel; lia].
    intros y o Hy. apply Hids. by right.
Qed.

(** [deleteOrder] on the queue [pre ++ c :: post] of a limit, where
    [c] is the first order that carries [id]. *)
Lemma deleteOrder_spec a lim id pre c oc post s :
  lmem s !! a = Some lim ->
  chain (omem s) (q_front (l_orders lim)) (pre ++ c :: post) ->
  (forall x o, x ∈ pre -> omem s !! x = Some o -> o_id o <> id) ->
  omem s !! c = Some oc -> o_id oc = id ->
  exists om' f',
    deleteOrder (Some a) id s =
      Ok None (mkState om'
                 (<[a := mkLimit (l_Price lim) (fsub (l_Volume lim) (o_qty oc))
                           (mkQueue (q_rear (l_orders lim)) f')]> (lmem s))
                 (tick s) (ob s)) /\
    chain om' f' (pre ++ post) /\
    (forall y oy, omem s !! y = Some oy -> exists n, om' !! y = Some (set_next n oy)).
Proof.
  intros Ha Hch Hpre Hc Hid.
  assert (Hal : (a < length (lmem s))%nat) by (by eapply lookup_lt_Some).
  destruct pre as [|x pre]; simpl in Hch.
  - inversion Hch as [|c' oc' post' Hc' Hpost Hfront]; subst c' post'.
    rewrite Hc in Hc'. injection Hc' as <-.
    exists (omem s), (o_next oc). split; [|split].
    + unfold deleteOrder, mbind, M_bind, mret, M_ret, loadL, loadO, updL.
      rewrite Ha, <- Hfront, Hc, Hid, Nat.eqb_refl, Ha. cbn [omem lmem tick ob].
      rewrite list_lookup_insert_eq by done.
      by rewrite list_insert_insert_eq.
    + exact Hpost.
    + intros y oy Hy. exists (o_next oy). by rewrite set_next_same.
  - inversion Hch as [|x' ox rest Hx Hrest Hfront]; subst x' rest.
    assert (Hidx : o_id ox <> id) by (apply (Hpre x); [by left|done]).
    assert (Hxfresh : x ∉ pre ++ c :: post).
    { apply chain_NoDup in Hch. by apply NoDup_cons in Hch as [? _]. }
    destruct (deleteOrder_loop_removes a lim id c oc post s pre (length (omem s))
                x ox Ha Hx Hrest Hxfresh)
      as (om' & Hrun & Hch' & _ & Hcells);
      [intros y o Hy; apply Hpre; by right|done|done| |].
    { apply chain_length in Hrest. rewrite length_app in Hrest. lia. }
    exists om', (Some x). split; [|split; [exact Hch'|exact Hcells]].
    unfold deleteOrder, mbind, M_bind, loadL, loadO, get_state.
    rewrite Ha, <- Hfront, Hx. apply Nat.eqb_neq in Hidx. rewrite Hidx.
    rewrite Hrun, Hfront. unfold set_Volume. by destruct lim as [? ? []].
Qed.

(** ** [addOrder] on a queue given as a list *)

(** Linking a new cell behind the last cell of a chain. *)
Lemma chain_snoc om p cs r c o oo :
  chain om p cs -> last cs = Some r -> om !! r = Some c ->
  o ∉ cs -> om !! o = Some oo -> o_next oo = None ->
  chain (<[r := set_next (Some o) c]> om) p (cs ++ [o]).
Proof.
  intros Hch. revert r c. induction Hch as [|a oa l Ha Hl IH];
    intros r c Hlast Hr Ho Hoo Hnext; [done|].
  apply not_elem_of_cons in Ho as [Hoa Ho].
  assert (Hrl : (r < length om)%nat) by (by eapply lookup_lt_Some).
  destruct l as [|b l].
  - injection Hlast as <-. rewrite Ha in Hr. injection Hr as <-.
    apply (chain_cons _ a (set_next (Some o) oa)).
    + by rewrite list_lookup_insert_eq.
    + simpl. apply (chain_cons _ o oo).
      * by rewrite list_lookup_insert_ne.
      * rewrite Hnext. constructor.
  - rewrite last_cons_cons in Hlast.
    assert (Hne : r <> a).
    { intros ->. assert (Hc : chain om (Some a) (a :: b :: l))
        by (by apply (chain_cons _ a oa)).
      apply chain_NoDup in Hc. apply NoDup_cons in Hc as [Hin _].
      apply Hin. by apply last_Some_elem_of. }
    simpl. apply (chain_cons _ a oa).
    + by rewrite list_lookup_insert_ne.
    + by apply (IH r c).
Qed.

(** [addOrder] on a limit whose [rear] pointer is the last order of
    its queue: the new order goes to the end of the queue. *)
Lemma addOrder_appends a lim o oo cs s :
  lmem s !! a = Some lim -> omem s !! o = Some oo -> o_next oo = None ->
  chain (omem s) (q_front (l_orders lim)) cs ->
  q_rear (l_orders lim) = last cs -> o ∉ cs ->
  exists om' f',
    addOrder (Some a) (Some o) s =
      Ok tt (mkState om'
               (<[a := mkLimit (l_Price lim) (fadd (l_Volume lim) (o_qty oo))
                         (mkQueue (Some o) f')]> (lmem s))
               (tick s) (ob s)) /\
    chain om' f' (cs ++ [o]) /\
    length om' = length (omem s) /\
    (forall y oy, omem s !! y = Some oy -> exists n, om' !! y = Some (set_next n oy)).
Proof.
  intros Ha Ho Hnext Hch Hrear Hfresh.
  assert (Heq := addOrder_eq a o lim oo s Ha Ho).
  unfold link_rear, push_queue in Heq. rewrite Hrear in Heq.
  destruct (last cs) as [r|] eqn:Hlast.
  - assert (Hin : r ∈ cs) by (by apply last_Some_elem_of).
    destruct (chain_lookup _ _ _ _ Hch Hin) as [c Hc].
    rewrite Hc in Heq.
    eexists _, _. split; [apply Heq; by intros ? [= <-]|].
    split; [by eapply chain_snoc|]. split; [by rewrite length_insert|].
    intros y oy Hy. destruct (decide (r = y)) as [->|Hne].
    + rewrite Hc in Hy. injection Hy as <-. eexists.
      by rewrite list_lookup_insert_eq by (by eapply lookup_lt_Some).
    + exists (o_next oy). by rewrite list_lookup_insert_ne, set_next_same.
  - apply last_None in Hlast. subst cs.
    eexists _, _. split; [apply Heq; by intros ? [=]|].
    split; [|split; [done|]].
    + simpl. apply (chain_cons _ o oo); [done|]. rewrite Hnext. constructor.
    + intros y oy Hy. exists (o_next oy). by rewrite set_next_same.
Qed.

(** ** The clean-up that ends [PlaceLimitOrder] *)

Lemma top_is_empty_volume buy s (Q : bool -> State -> Prop) E F :
  good s ->
  Q false s ->
  (forall l0 t, limitsOf buy (ob s) = l0 :: t -> t <> [] ->
     volume_at (lmem s) l0 == 0 -> Q true s) ->
  wp (top_is_empty buy) Q E F s.
Proof.
  intros (Hok & _) HF HT. unfold top_is_empty. apply wp_bind, wp_get_book.
  unfold canDeleteLimit.
  destruct (Nat.ltb_spec 1 (length (limitsOf buy (ob s)))) as [Hlen|_];
    [|by apply wp_ret].
  destruct (limitsOf buy (ob s)) as [|l0 t] eqn:Hls; [simpl in Hlen; lia|].
  destruct (lookup_lt_is_Some_2 (lmem s) l0) as [lim Hlim].
  { apply (Hok buy). rewrite Hls. by left. }
  simpl head. eapply wp_bind, wp_loadL_at; [exact Hlim|]. apply wp_ret.
  destruct (feq (l_Volume lim) 0) eqn:Hv; [|done].
  apply (HT l0 t eq_refl).
  - intros ->. simpl in Hlen. lia.
  - unfold volume_at. rewrite Hlim. by apply Qeq_bool_iff.
Qed.

Lemma delete_top_keeps buy s l0 t (Q : unit -> State -> Prop) E F :
  good s -> limitsOf buy (ob s) = l0 :: t ->
  (forall s', omem s' = omem s -> lmem s' = lmem s -> tick s' = tick s ->
     limitsOf buy (ob s') ≡ₚ t ->
     limitsOf (negb buy) (ob s') = limitsOf (negb buy) (ob s) -> Q tt s') ->
  wp (delete_top buy) Q E F s.
Proof.
  intros (Hok & _) Hls HQ. unfold delete_top. apply wp_bind, wp_get_book.
  rewrite Hls. simpl head.
  destruct (lookup_lt_is_Some_2 (lmem s) l0) as [lim Hlim].
  { apply (Hok buy). rewrite Hls. by left. }
  eapply wp_bind, wp_loadL_at; [exact Hlim|].
  destruct (last (l0 :: t)) as [lst|] eqn:Hlast; [|by apply last_None in Hlast].
  unfold wp. rewrite (deleteLimit_eq buy 0 (l_Price lim) s lst (Hok buy));
    [|by rewrite Hls|rewrite Hls; simpl; lia].
  apply HQ; try done.
  - cbn [ob put_book]. rewrite limitsOf_with_limits, Bool.eqb_reflx.
    by rewrite sorted_of_perm, Hls, (take_last_perm _ _ _ Hlast).
  - cbn [ob put_book]. by destruct buy.
Qed.

(** The clean-up removes at most one limit, one whose cached volume
    is zero; it leaves the cells of the store alone. *)
Lemma cleanup_spec {A} (r : A) s (Q : A -> State -> Prop) E F :
  good s ->
  (forall s', omem s' = omem s -> lmem s' = lmem s -> tick s' = tick s ->
     (forall buy a, a ∈ limitsOf buy (ob s) -> ~ volume_at (lmem s) a == 0 ->
        a ∈ limitsOf buy (ob s')) ->
     Q r s') ->
  wp (c1 ← top_is_empty true;
      (if (c1 : bool) then delete_top true
       else c2 ← top_is_empty false;
            if (c2 : bool) then delete_top false else mret tt);;
      mret r) Q E F s.
Proof.
  intros Hg HQ.
  assert (Hdel : forall buy l0 t, limitsOf buy (ob s) = l0 :: t ->
            volume_at (lmem s) l0 == 0 ->
            wp (delete_top buy) (fun _ s' => wp (mret r) Q E F s') E F s).
  { intros buy l0 t Hls Hv.
    apply (delete_top_keeps buy s l0 t); [done|done|].
    intros s' Hom Hlm Htk Hperm Hneg. apply wp_ret, HQ; try done.
    intros buy' a Ha Hnz. destruct (Bool.eqb_spec buy' buy) as [->|Hne].
    - rewrite Hperm. rewrite Hls in Ha.
      apply elem_of_cons in Ha as [->|Ha]; [by destruct Hnz|done].
    - replace buy' with (negb buy) in * by (by destruct buy, buy').
      by rewrite Hneg. }
  apply wp_bind, top_is_empty_volume; [done| |].
  - apply wp_bind, wp_bind, top_is_empty_volume; [done| |].
    + by apply wp_ret, wp_ret, HQ.
    + intros l0 t Hls _ Hv. by apply (Hdel false l0 t).
  - intros l0 t Hls _ Hv. apply wp_bind. by apply (Hdel true l0 t).
Qed.

Lemma chain_app_mem om ext p cs : chain om p cs -> chain (om ++ ext) p cs.
Proof.
  induction 1 as [|a o l Ha Hl IH]; [constructor|].
  apply (chain_cons _ a o); [|done]. by apply lookup_app_l_Some.
Qed.

Lemma limit_tests_pass b p q mid :
  limit_check b p q mid None = None ->
  fle p 0 = false /\ fle q 0 = false /\
  b && flt mid p = false /\ negb b && flt p mid = false.
Proof.
  unfold limit_check. destruct (fle p 0); [done|]. destruct (fle q 0); [done|].
  destruct (b && flt mid p); [done|]. by destruct (negb b && flt p mid).
Qed.

(** [PlaceLimitOrder] up to the choice of the limit, for an order
    that passes the tests. *)
Lemma PlaceLimitOrder_passed b p q s mid (Q : UUID * option error -> State -> Prop) E F :
  getMidPrice s = Ok (mid, None) s ->
  limit_check b p q mid None = None ->
  wp (match map_get (mapOf b (ob s)) p with
      | None =>
          limit ← newLimit p;
          addOrder (Some limit) (Some (length (omem s)));;
          addLimit b (Some limit)
      | Some l => addOrder (Some l) (Some (length (omem s)))
      end;;
      c1 ← top_is_empty true;
      (if (c1 : bool) then delete_top true
       else c2 ← top_is_empty false;
            if (c2 : bool) then delete_top false else mret tt);;
      mret (tick s, None)) Q E F (alloc_order q s) ->
  wp (PlaceLimitOrder b p q) Q E F s.
Proof.
  intros Hmid Hchk H.
  destruct (limit_tests_pass b p q mid Hchk) as (H1 & H2 & H3 & H4).
  unfold PlaceLimitOrder. apply wp_bind, wp_newOrder. fold (alloc_order q s).
  eapply wp_bind_eq; [by apply (getMidPrice_frame s (alloc_order q s))|].
  eapply wp_bind_eq; [apply loadO_alloc|]. cbn [o_id].
  rewrite H1, H2, H3, H4. apply wp_bind, wp_get_book. exact H.
Qed.

(** ** The Go maps *)

Lemma feq_refl k : feq k k = true.
Proof. apply Qeq_bool_iff. reflexivity. Qed.

Lemma map_get_delete_eq (m : LimitMap) k : map_get (map_delete m k) k = None.
Proof.
  unfold map_delete, LimitMap in *. induction m as [|[k' v] m IH]; [done|].
  rewrite filter_cons. simpl.
  destruct (decide (feq k' k = false)) as [Hk|Hk]; [|exact IH].
  simpl. by rewrite Hk.
Qed.

Lemma map_get_delete_ne (m : LimitMap) k k' :
  feq k k' = false -> map_get (map_delete m k) k' = map_get m k'.
Proof.
  intros Hne. unfold map_delete, LimitMap in *.
  induction m as [|[k0 v] m IH]; [done|].
  rewrite filter_cons. simpl.
  destruct (decide (feq k0 k = false)) as [Hk|Hk]; simpl; [by rewrite IH|].
  rewrite IH. destruct (feq k0 k') eqn:Hk0; [|done].
  exfalso. apply Bool.not_false_iff_true in Hk.
  apply Qeq_bool_iff in Hk, Hk0.
  assert (Heq : k == k') by (by rewrite <- Hk, Hk0).
  apply Qeq_bool_iff in Heq. unfold feq in Hne. congruence.
Qed.

Lemma map_get_set_eq (m : LimitMap) k v : map_get (map_set m k v) k = Some v.
Proof. unfold map_set. simpl. by rewrite feq_refl. Qed.

Lemma map_get_set_ne (m : LimitMap) k v k' :
  feq k k' = false -> map_get (map_set m k v) k' = map_get m k'.
Proof.
  intros Hne. unfold map_set. simpl. rewrite Hne. by apply map_get_delete_ne.
Qed.

Lemma StronglySorted_lookup_lt {A} (R : A -> A -> Prop) l i j a b :
  StronglySorted R l -> (i < j)%nat -> l !! i = Some a -> l !! j = Some b -> R a b.
Proof.
  intros Hl. revert i j. induction Hl as [|x l _ IH Hx]; intros i j Hij Hi Hj;
    [by rewrite lookup_nil in Hi|].
  destruct j as [|j]; [lia|]. simpl in Hj.
  destruct i as [|i].
  - injection Hi as <-. rewrite Forall_forall in Hx.
    apply Hx. by eapply list_elem_of_lookup_2.
  - simpl in Hi. apply (IH i j); [lia|done|done].
Qed.

(** * Further properties of the code *)

(** X1.  In every state of a process started with [New()], [GetData]
    returns the two slices without a panic; no limit occurs twice in
    a slice, every limit of a slice is allocated, prices do not go up
    along the buy slice and do not go down along the sell slice. *)
Theorem slices_in_price_order s :
  reachable s ->
  exists bs ss,
    GetData s = Ok (bs, ss) s /\
    NoDup bs /\ NoDup ss /\
    (forall a, a ∈ bs ++ ss -> is_Some (lmem s !! a)) /\
    (forall i j a b, (i < j)%nat -> bs !! i = Some a -> bs !! j = Some b ->
       price_at (lmem s) b <= price_at (lmem s) a) /\
    (forall i j a b, (i < j)%nat -> ss !! i = Some a -> ss !! j = Some b ->
       price_at (lmem s) a <= price_at (lmem s) b).
Proof.
  intros Hr. destruct (reachable_good s Hr) as (Hok & _ & Hord & Hnd).
  exists (BuyLimits (ob s)), (SellLimits (ob s)).
  split; [done|]. split; [apply (Hnd true)|]. split; [apply (Hnd false)|].
  split; [|split].
  - intros a [Ha|Ha]%elem_of_app; apply lookup_lt_is_Some_2;
      [by apply (Hok true)|by apply (Hok false)].
  - intros i j a b Hij Hi Hj.
    pose proof (StronglySorted_lookup_lt _ _ i j a b (Hord true) Hij Hi Hj) as H.
    simpl in H. by apply flt_false in H.
  - intros i j a b Hij Hi Hj.
    pose proof (StronglySorted_lookup_lt _ _ i j a b (Hord false) Hij Hi Hj) as H.
    simpl in H. by apply flt_false in H.
Qed.

Lemma slices_in_price_order_witness :
  exists bs ss,
    GetData two_levels = Ok (bs, ss) two_levels /\
    NoDup bs /\ NoDup ss /\
    (forall a, a ∈ bs ++ ss -> is_Some (lmem two_levels !! a)) /\
    (forall i j a b, (i < j)%nat -> bs !! i = Some a -> bs !! j = Some b ->
       price_at (lmem two_levels) b <= price_at (lmem two_levels) a) /\
    (forall i j a b, (i < j)%nat -> ss !! i = Some a -> ss !! j = Some b ->
       price_at (lmem two_levels) a <= price_at (lmem two_levels) b).
Proof.
  apply (slices_in_price_order two_levels). eexists. reflexivity.
Defined.

(** X2.  In every state of a process started with [New()],
    [PlaceLimitOrder], [Init] and [Reset] return: none of them
    panics, whatever their arguments. *)
Theorem limit_order_Init_Reset_return b p q m s :
  reachable s ->
  (exists id e s', PlaceLimitOrder b p q s = Ok (id, e) s') /\
  (exists s', Init m s = Ok tt s') /\
  (exists s', Reset s = Ok tt s').
Proof.
  intros Hr. pose proof (reachable_good s Hr) as Hg.
  pose proof (reachable_wf s Hr) as Hwf. split; [|split].
  - destruct (wp_returns _ _ _ (pass_PlaceLimitOrder b p q s Hwf Hg))
      as ([id e] & s' & H & _).
    by exists id, e, s'.
  - destruct (wp_returns _ _ _ (pass_Init m s Hg)) as ([] & s' & H & _).
    by exists s'.
  - by eexists.
Qed.

Lemma limit_order_Init_Reset_return_witness :
  (exists id e s', PlaceLimitOrder true 99 5 emptied_level = Ok (id, e) s') /\
  (exists s', Init 50 emptied_level = Ok tt s') /\
  (exists s', Reset emptied_level = Ok tt s').
Proof.
  apply (limit_order_Init_Reset_return true 99 5 50 emptied_level).
  eexists. reflexivity.
Defined.

(** X4.  [addLimit] of an allocated limit returns; the slice of the
    side is the old slice plus the limit, in the order of the side;
    the map of the side gives the limit at its price and is unchanged
    at the other prices; the other side and the store are
    untouched. *)
Theorem addLimit_sorts_and_indexes buy a lim s :
  book_ok s -> lmem s !! a = Some lim ->
  exists s',
    addLimit buy (Some a) s = Ok tt s' /\
    omem s' = omem s /\ lmem s' = lmem s /\
    limitsOf buy (ob s') ≡ₚ limitsOf buy (ob s) ++ [a] /\
    slice_ordered buy s' /\
    map_get (mapOf buy (ob s')) (l_Price lim) = Some a /\
    (forall k, feq (l_Price lim) k = false ->
       map_get (mapOf buy (ob s')) k = map_get (mapOf buy (ob s)) k) /\
    limitsOf (negb buy) (ob s') = limitsOf (negb buy) (ob s) /\
    mapOf (negb buy) (ob s') = mapOf (negb buy) (ob s).
Proof.
  intros Hok Ha. eexists. split; [by apply addLimit_eq; [apply Hok|]|].
  cbn [omem lmem ob put_book]. split; [done|]. split; [done|].
  rewrite limitsOf_with_limits, Bool.eqb_reflx, mapOf_with_limits, mapOf_with_map,
    Bool.eqb_reflx.
  split; [apply sorted_of_perm|]. split.
  { unfold slice_ordered. cbn [omem lmem ob put_book].
    rewrite limitsOf_with_limits, Bool.eqb_reflx. apply sorted_of_ordered. }
  split; [apply map_get_set_eq|]. split; [intros k Hk; by apply map_get_set_ne|].
  split; by destruct buy.
Qed.

Lemma addLimit_sorts_and_indexes_witness :
  exists s',
    addLimit false (Some 1%nat) two_levels = Ok tt s' /\
    omem s' = omem two_levels /\ lmem s' = lmem two_levels /\
    limitsOf false (ob s') ≡ₚ limitsOf false (ob two_levels) ++ [1%nat] /\
    slice_ordered false s' /\
    map_get (mapOf false (ob s'))
      (l_Price (mkLimit 101 2 (mkQueue (Some 1%nat) (Some 1%nat)))) = Some 1%nat /\
    (forall k, feq (l_Price (mkLimit 101 2 (mkQueue (Some 1%nat) (Some 1%nat)))) k = false ->
       map_get (mapOf false (ob s')) k = map_get (mapOf false (ob two_levels)) k) /\
    limitsOf (negb false) (ob s') = limitsOf (negb false) (ob two_levels) /\
    mapOf (negb false) (ob s') = mapOf (negb false) (ob two_levels).
Proof.
  apply (addLimit_sorts_and_indexes false 1%nat
           (mkLimit 101 2 (mkQueue (Some 1%nat) (Some 1%nat))) two_levels).
  - apply reachable_book_ok. eexists. reflexivity.
  - vm_compute; reflexivity.
Defined.

(** X5.  [deleteLimit] at a position of the slice returns; the slice
    of the side is the old slice without the limit at that position,
    in the order of the side; the map of the side has no limit at the
    price given and is unchanged at the other prices; the other side
    and the store are untouched.  At a position outside the slice
    [deleteLimit] panics and nothing has changed. *)
Theorem deleteLimit_removes_position buy pos price s :
  book_ok s ->
  ((pos < length (limitsOf buy (ob s)))%nat ->
   exists s',
     deleteLimit buy pos price s = Ok tt s' /\
     omem s' = omem s /\ lmem s' = lmem s /\
     limitsOf buy (ob s') ≡ₚ delete pos (limitsOf buy (ob s)) /\
     slice_ordered buy s' /\
     map_get (mapOf buy (ob s')) price = None /\
     (forall k, feq price k = false ->
        map_get (mapOf buy (ob s')) k = map_get (mapOf buy (ob s)) k) /\
     limitsOf (negb buy) (ob s') = limitsOf (negb buy) (ob s) /\
     mapOf (negb buy) (ob s') = mapOf (negb buy) (ob s)) /\
  ((length (limitsOf buy (ob s)) <= pos)%nat ->
   deleteLimit buy pos price s = Panic s).
Proof.
  intros Hok. split.
  - intros Hpos.
    destruct (last (limitsOf buy (ob s))) as [lst|] eqn:Hlast.
    2: { apply last_None in Hlast. rewrite Hlast in Hpos. simpl in Hpos. lia. }
    eexists. split; [by apply (deleteLimit_eq buy pos price s lst (Hok buy))|].
    cbn [omem lmem ob put_book]. split; [done|]. split; [done|].
    rewrite limitsOf_with_limits, Bool.eqb_reflx, mapOf_with_limits, mapOf_with_map,
      Bool.eqb_reflx.
    split; [by rewrite sorted_of_perm, take_insert_last_perm|]. split.
    { unfold slice_ordered. cbn [omem lmem ob put_book].
      rewrite limitsOf_with_limits, Bool.eqb_reflx. apply sorted_of_ordered. }
    split; [apply map_get_delete_eq|].
    split; [intros k Hk; by apply map_get_delete_ne|].
    split; by destruct buy.
  - intros Hpos. unfold deleteLimit, mbind, M_bind, get_book.
    destruct (last (limitsOf buy (ob s))); [|done].
    by destruct (Nat.ltb_spec pos (length (limitsOf buy (ob s)))); [lia|].
Qed.

Lemma deleteLimit_removes_position_witness :
  (exists s',
     deleteLimit false 0 101 two_levels = Ok tt s' /\
     omem s' = omem two_levels /\ lmem s' = lmem two_levels /\
     limitsOf false (ob s') ≡ₚ delete 0%nat (limitsOf false (ob two_levels)) /\
     slice_ordered false s' /\
     map_get (mapOf false (ob s')) 101 = None /\
     (forall k, feq 101 k = false ->
        map_get (mapOf false (ob s')) k = map_get (mapOf false (ob two_levels)) k) /\
     limitsOf (negb false) (ob s') = limitsOf (negb false) (ob two_levels) /\
     mapOf (negb false) (ob s') = mapOf (negb false) (ob two_levels)) /\
  deleteLimit false 2 101 two_levels = Panic two_levels.
Proof.
  assert (Hok : book_ok two_levels).
  { apply reachable_book_ok. eexists. reflexivity. }
  split.
  - apply (proj1 (deleteLimit_removes_position false 0 101 two_levels Hok)).
    vm_compute. lia.
  - apply (proj2 (deleteLimit_removes_position false 2 101 two_levels Hok)).
    vm_compute. lia.
Defined.

(** X6.  [deleteOrder] on a limit whose queue is [pre ++ c :: post],
    where [c] is the first order of the queue that carries the
    identifier: it returns no error, the queue becomes [pre ++ post]
    with the other orders in their order and with their quantities,
    the cached volume goes down by the quantity of [c], the price and
    the [rear] pointer of the limit and the book are untouched. *)
Theorem deleteOrder_removes_first_match a lim id pre c oc post s :
  lmem s !! a = Some lim ->
  chain (omem s) (q_front (l_orders lim)) (pre ++ c :: post) ->
  (forall x o, x ∈ pre -> omem s !! x = Some o -> o_id o <> id) ->
  omem s !! c = Some oc -> o_id oc = id ->
  exists s' lim',
    deleteOrder (Some a) id s = Ok None s' /\
    lmem s' !! a = Some lim' /\
    chain (omem s') (q_front (l_orders lim')) (pre ++ post) /\
    l_Volume lim' = fsub (l_Volume lim) (o_qty oc) /\
    l_Price lim' = l_Price lim /\
    q_rear (l_orders lim') = q_rear (l_orders lim) /\
    (forall y oy, omem s !! y = Some oy ->
       exists oy', omem s' !! y = Some oy' /\
                   o_id oy' = o_id oy /\ o_qty oy' = o_qty oy) /\
    (forall a', a' <> a -> lmem s' !! a' = lmem s !! a') /\
    ob s' = ob s.
Proof.
  intros Ha Hch Hpre Hc Hid.
  destruct (deleteOrder_spec a lim id pre c oc post s Ha Hch Hpre Hc Hid)
    as (om' & f' & Hrun & Hch' & Hcells).
  assert (Hal : (a < length (lmem s))%nat) by (by eapply lookup_lt_Some).
  eexists _, _. split; [exact Hrun|]. cbn [omem lmem ob].
  split; [by apply list_lookup_insert_eq|]. cbn [l_orders q_front q_rear l_Volume l_Price].
  split; [done|]. split; [done|]. split; [done|]. split; [done|].
  split; [|split; [|done]].
  - intros y oy Hy. destruct (Hcells y oy Hy) as [n Hn]. by eexists.
  - intros a' Hne. by rewrite list_lookup_insert_ne.
Qed.

Lemma deleteOrder_removes_first_match_witness :
  exists s' lim',
    deleteOrder (Some 1%nat) 2 two_sells = Ok None s' /\
    lmem s' !! 1%nat = Some lim' /\
    chain (omem s') (q_front (l_orders lim')) ([1%nat] ++ []) /\
    l_Volume lim' =
      fsub (l_Volume (mkLimit 101 7 (mkQueue (Some 2%nat) (Some 1%nat))))
           (o_qty (mkOrder 2 4 2 None)) /\
    l_Price lim' = l_Price (mkLimit 101 7 (mkQueue (Some 2%nat) (Some 1%nat))) /\
    q_rear (l_orders lim') =
      q_rear (l_orders (mkLimit 101 7 (mkQueue (Some 2%nat) (Some 1%nat)))) /\
    (forall y oy, omem two_sells !! y = Some oy ->
       exists oy', omem s' !! y = Some oy' /\
                   o_id oy' = o_id oy /\ o_qty oy' = o_qty oy) /\
    (forall a', a' <> 1%nat -> lmem s' !! a' = lmem two_sells !! a') /\
    ob s' = ob two_sells.
Proof.
  apply (deleteOrder_removes_first_match 1%nat
           (mkLimit 101 7 (mkQueue (Some 2%nat) (Some 1%nat)))
           2%nat [1%nat] 2%nat (mkOrder 2 4 2 None) [] two_sells).
  - vm_compute; reflexivity.
  - apply (chain_cons _ 1%nat (mkOrder 1 3 1 (Some 2%nat))); [vm_compute; reflexivity|].
    apply (chain_cons _ 2%nat (mkOrder 2 4 2 None)); [vm_compute; reflexivity|].
    apply chain_nil.
  - intros x o Hx Ho. apply list_elem_of_singleton in Hx. subst x.
    vm_compute in Ho. injection Ho as <-. simpl. lia.
  - vm_compute; reflexivity.
  - reflexivity.
Defined.

(** X7.  [deleteOrder] on a limit whose queue holds orders, none of
    which carries the identifier, returns the error "no order having
    this id in this limit" and changes nothing. *)
Theorem deleteOrder_unknown_id a lim id t rest s :
  lmem s !! a = Some lim ->
  chain (omem s) (q_front (l_orders lim)) (t :: rest) ->
  (forall x o, x ∈ t :: rest -> omem s !! x = Some o -> o_id o <> id) ->
  deleteOrder (Some a) id s = Ok (Some ErrNoSuchOrder) s.
Proof.
  intros Ha Hch Hids.
  inversion Hch as [|t' ot rest' Ht Hrest Hfront]; subst t' rest'.
  assert (Hidt : o_id ot <> id) by (apply (Hids t); [by left|done]).
  unfold deleteOrder, mbind, M_bind, loadL, loadO, get_state.
  rewrite Ha, <- Hfront, Ht. apply Nat.eqb_neq in Hidt. rewrite Hidt.
  apply (deleteOrder_loop_missing _ id s rest _ t ot Ht Hrest).
  - intros y o Hy. apply Hids. by right.
  - apply chain_length in Hch. simpl in Hch. lia.
Qed.

Lemma deleteOrder_unknown_id_witness :
  deleteOrder (Some 1%nat) 7 two_sells = Ok (Some ErrNoSuchOrder) two_sells.
Proof.
  apply (deleteOrder_unknown_id 1%nat
           (mkLimit 101 7 (mkQueue (Some 2%nat) (Some 1%nat)))
           7%nat 1%nat [2%nat] two_sells).
  - vm_compute; reflexivity.
  - apply (chain_cons _ 1%nat (mkOrder 1 3 1 (Some 2%nat))); [vm_compute; reflexivity|].
    apply (chain_cons _ 2%nat (mkOrder 2 4 2 None)); [vm_compute; reflexivity|].
    apply chain_nil.
  - intros x o Hx Ho.
    apply elem_of_cons in Hx as [->|Hx%list_elem_of_singleton]; [|subst x];
      vm_compute in Ho; injection Ho as <-; simpl; lia.
Defined.

(** X8.  A [CancelLimitOrder] that returns an error has changed
    nothing: neither the book nor the store. *)
Theorem failed_cancel_changes_nothing id price s e s' :
  CancelLimitOrder id price s = Ok (Some e) s' -> s' = s.
Proof.
  intros H. pose proof (CancelLimitOrder_error id price s) as Hw.
  unfold wp in Hw. rewrite H in Hw. by apply Hw.
Qed.

Lemma failed_cancel_changes_nothing_witness :
  state_of (CancelLimitOrder 7 101 two_sells) = two_sells.
Proof.
  apply (failed_cancel_changes_nothing 7 101 two_sells ErrNoSuchOrder).
  vm_compute; reflexivity.
Defined.

(** X9.  A [PlaceMarketOrder] that returns an error has changed
    nothing: neither the book nor the store. *)
Theorem refused_market_order_changes_nothing b q s e s' :
  PlaceMarketOrder b q s = Ok (Some e) s' -> s' = s.
Proof.
  intros H. pose proof (PlaceMarketOrder_error b q s) as Hw.
  unfold wp in Hw. rewrite H in Hw. by apply Hw.
Qed.

Lemma refused_market_order_changes_nothing_witness :
  state_of (PlaceMarketOrder true 7 two_sells) = two_sells.
Proof.
  apply (refused_market_order_changes_nothing true 7 two_sells ErrMarketVolume).
  vm_compute; reflexivity.
Defined.

Lemma chain_last_next om p l o :
  chain om p (l ++ [o]) -> exists oo, om !! o = Some oo /\ o_next oo = None.
Proof.
  revert p. induction l as [|x l IH]; intros p H; simpl in H.
  - inversion H as [|o' oo l' Ho Hl Hp]; subst. exists oo. split; [done|].
    by inversion Hl.
  - inversion H; subst. eauto.
Qed.

(** X10.  In a state of a process started with [New()], a limit
    order that passes the tests, at a price that the map of its side
    holds, on a limit whose [rear] pointer is the last order of its
    queue: the call returns the identifier drawn and no error, the
    order is the last of the queue of that limit, behind the orders
    that were there, which keep their order and their quantities, and
    the cached volume of the limit goes up by the quantity. *)
Theorem limit_order_joins_queue_tail b p q s mid a lim cs :
  reachable s ->
  getMidPrice s = Ok (mid, None) s ->
  limit_check b p q mid None = None ->
  map_get (mapOf b (ob s)) p = Some a ->
  lmem s !! a = Some lim ->
  chain (omem s) (q_front (l_orders lim)) cs ->
  q_rear (l_orders lim) = last cs ->
  exists s' lim',
    PlaceLimitOrder b p q s = Ok (tick s, None) s' /\
    omem s' !! length (omem s) = Some (mkOrder (tick s) q (tick s) None) /\
    lmem s' !! a = Some lim' /\
    chain (omem s') (q_front (l_orders lim')) (cs ++ [length (omem s)]) /\
    q_rear (l_orders lim') = Some (length (omem s)) /\
    l_Volume lim' = fadd (l_Volume lim) q /\
    l_Price lim' = l_Price lim /\
    (forall y oy, omem s !! y = Some oy ->
       exists oy', omem s' !! y = Some oy' /\
                   o_id oy' = o_id oy /\ o_qty oy' = o_qty oy).
Proof.
  intros Hr Hmid Hchk Hget Ha Hch Hrear.
  pose proof (reachable_good s Hr) as Hg.
  set (o := length (omem s)).
  set (cell := mkOrder (tick s) q (tick s) None).
  assert (Ho : omem (alloc_order q s) !! o = Some cell).
  { unfold alloc_order, o. simpl. by rewrite lookup_app_r, Nat.sub_diag by done. }
  assert (Hfresh : o ∉ cs).
  { intros Hin. destruct (chain_lookup _ _ _ _ Hch Hin) as [x Hx].
    apply lookup_lt_Some in Hx. unfold o in Hx. lia. }
  destruct (addOrder_appends a lim o cell cs (alloc_order q s))
    as (om' & f' & Hadd & Hch' & Hlen' & Hcells); try done.
  { by apply chain_app_mem. }
  assert (Hal : (a < length (lmem s))%nat) by (by eapply lookup_lt_Some).
  set (s2 := mkState om' _ _ _) in Hadd.
  assert (Hg2 : good s2).
  { apply (good_ext (alloc_order q s)); [|by apply (good_ext s)].
    unfold same_book, s2. cbn [lmem ob alloc_order]. repeat split; try reflexivity.
    by eapply prices_insert. }
  assert (Hw : wp (PlaceLimitOrder b p q)
    (fun r s' => r = (tick s, None) /\ omem s' = om' /\ lmem s' = lmem s2)
    (fun _ => False) (fun _ => False) s).
  { apply (PlaceLimitOrder_passed b p q s mid); [done|done|].
    rewrite Hget. apply wp_bind. fold o.
    unfold wp at 1. rewrite Hadd.
    apply cleanup_spec; [done|]. by intros s' Hom Hlm _ _. }
  apply wp_returns in Hw as (r & s' & Hrun & -> & Hom & Hlm).
  exists s'. eexists. split; [exact Hrun|].
  rewrite Hom, Hlm. unfold s2. cbn [lmem].
  rewrite list_lookup_insert_eq by done.
  cbn [l_orders q_front q_rear l_Volume l_Price o_qty cell].
  destruct (chain_last_next _ _ _ _ Hch') as (oo & Hoo & Hnn).
  assert (Hcell : om' !! o = Some cell).
  { destruct (Hcells o cell Ho) as [n Hn]. rewrite Hn in Hoo.
    injection Hoo as <-. simpl in Hnn. by subst n. }
  split; [exact Hcell|]. split; [reflexivity|].
  split; [exact Hch'|]. split; [done|]. split; [done|]. split; [done|].
  intros y oy Hy.
  destruct (Hcells y oy) as [n Hn].
  { unfold alloc_order. simpl. by apply lookup_app_l_Some. }
  by eexists.
Qed.

Lemma limit_order_joins_queue_tail_witness :
  exists s' lim',
    PlaceLimitOrder false 101 5 two_sells = Ok (tick two_sells, None) s' /\
    omem s' !! length (omem two_sells) =
      Some (mkOrder (tick two_sells) 5 (tick two_sells) None) /\
    lmem s' !! 1%nat = Some lim' /\
    chain (omem s') (q_front (l_orders lim'))
      ([1%nat; 2%nat] ++ [length (omem two_sells)]) /\
    q_rear (l_orders lim') = Some (length (omem two_sells)) /\
    l_Volume lim' =
      fadd (l_Volume (mkLimit 101 7 (mkQueue (Some 2%nat) (Some 1%nat)))) 5 /\
    l_Price lim' = l_Price (mkLimit 101 7 (mkQueue (Some 2%nat) (Some 1%nat))) /\
    (forall y oy, omem two_sells !! y = Some oy ->
       exists oy', omem s' !! y = Some oy' /\
                   o_id oy' = o_id oy /\ o_qty oy' = o_qty oy).
Proof.
  apply (limit_order_joins_queue_tail false 101 5 two_sells (201 # 2) 1%nat
           (mkLimit 101 7 (mkQueue (Some 2%nat) (Some 1%nat))) [1%nat; 2%nat]).
  - eexists. reflexivity.
  - vm_compute; reflexivity.
  - vm_compute; reflexivity.
  - vm_compute; reflexivity.
  - vm_compute; reflexivity.
  - apply (chain_cons _ 1%nat (mkOrder 1 3 1 (Some 2%nat))); [vm_compute; reflexivity|].
    apply (chain_cons _ 2%nat (mkOrder 2 4 2 None)); [vm_compute; reflexivity|].
    apply chain_nil.
  - reflexivity.
Defined.

Lemma insert_snoc_last {A} (l : list A) (x y : A) :
  <[length l := y]> (l ++ [x]) = l ++ [y].
Proof. by rewrite insert_app_r_alt, Nat.sub_diag by done. Qed.

(** X11.  In a state of a process started with [New()], a limit
    order that passes the tests, at a price that the map of its side
    does not hold: the call returns the identifier drawn and no
    error, one order cell and one limit cell are allocated, the new
    limit has the price of the order, its quantity as cached volume
    and the order as only order of its queue, and it is in the slice
    of the side when the call returns. *)
Theorem limit_order_opens_level b p q s mid :
  reachable s ->
  getMidPrice s = Ok (mid, None) s ->
  limit_check b p q mid None = None ->
  map_get (mapOf b (ob s)) p = None ->
  exists s',
    PlaceLimitOrder b p q s = Ok (tick s, None) s' /\
    omem s' = omem s ++ [mkOrder (tick s) q (tick s) None] /\
    lmem s' = lmem s ++
      [mkLimit p (fadd 0 q)
         (mkQueue (Some (length (omem s))) (Some (length (omem s))))] /\
    length (lmem s) ∈ limitsOf b (ob s').
Proof.
  intros Hr Hmid Hchk Hget.
  pose proof (reachable_good s Hr) as Hg.
  destruct (limit_tests_pass b p q mid Hchk) as (_ & Hq & _).
  apply fle_false in Hq.
  set (o := length (omem s)). set (l := length (lmem s)).
  set (cell := mkOrder (tick s) q (tick s) None).
  set (fresh := mkLimit p 0 (mkQueue None None)).
  set (s2 := mkState (omem s ++ [cell]) (lmem s ++ [fresh]) (S (tick s)) (ob s)).
  assert (Hg2 : good s2).
  { apply (good_newLimit fresh (alloc_order q s)). by apply (good_ext s). }
  assert (Hl2 : lmem s2 !! l = Some fresh).
  { unfold s2, l. simpl. by rewrite lookup_app_r, Nat.sub_diag by done. }
  assert (Ho2 : omem s2 !! o = Some cell).
  { unfold s2, o. simpl. by rewrite lookup_app_r, Nat.sub_diag by done. }
  pose proof (addOrder_eq l o fresh cell s2 Hl2 Ho2) as Hadd.
  unfold link_rear, push_queue in Hadd. cbn [fresh l_orders q_rear q_front] in Hadd.
  specialize (Hadd ltac:(by intros ? [=])).
  set (full := mkLimit p (fadd 0 q) (mkQueue (Some o) (Some o))).
  set (s3 := mkState (omem s ++ [cell]) (lmem s ++ [full]) (S (tick s)) (ob s)).
  assert (Hs3 : addOrder (Some l) (Some o) s2 = Ok tt s3).
  { rewrite Hadd. unfold s2, s3, l. cbn [omem lmem tick ob l_Price l_Volume o_qty cell].
    by rewrite insert_snoc_last. }
  assert (Hg3 : good s3).
  { apply (good_ext s2); [|done]. unfold same_book, s2, s3. cbn [lmem ob].
    repeat split; try reflexivity. by rewrite !fmap_app. }
  assert (Hl3 : lmem s3 !! l = Some full).
  { unfold s3, l. simpl. by rewrite lookup_app_r, Nat.sub_diag by done. }
  pose proof (addLimit_eq b l full s3 (proj1 Hg3 b) Hl3) as Hal.
  set (s4 := put_book _ s3) in Hal.
  assert (Hfresh : l ∉ limitsOf b (ob s3)).
  { intros Hin. pose proof (proj1 Hg b l Hin) as Hlt. unfold l in Hlt. lia. }
  assert (Hg4 : good s4).
  { apply good_add; [done| |done]. by eapply lookup_lt_Some. }
  assert (Hin4 : l ∈ limitsOf b (ob s4)).
  { unfold s4. cbn [ob put_book]. rewrite limitsOf_with_limits, Bool.eqb_reflx.
    rewrite sorted_of_perm. apply elem_of_app. right. by left. }
  assert (Hw : wp (PlaceLimitOrder b p q)
    (fun r s' => r = (tick s, None) /\ omem s' = omem s4 /\ lmem s' = lmem s4 /\
                 l ∈ limitsOf b (ob s'))
    (fun _ => False) (fun _ => False) s).
  { apply (PlaceLimitOrder_passed b p q s mid); [done|done|].
    rewrite Hget. apply wp_bind, wp_bind, wp_newLimit.
    change (mkState (omem (alloc_order q s)) (lmem (alloc_order q s) ++ [fresh])
              (tick (alloc_order q s)) (ob (alloc_order q s))) with s2.
    change (length (lmem (alloc_order q s))) with l. fold o.
    eapply wp_bind_eq; [exact Hs3|].
    unfold wp at 1. rewrite Hal.
    apply cleanup_spec; [done|]. intros s' Hom Hlm _ Hkeep.
    split; [done|]. split; [done|]. split; [done|].
    apply Hkeep; [done|].
    unfold volume_at, s4. cbn [lmem put_book]. rewrite Hl3. cbn [l_Volume full].
    rewrite fadd_correct. lra. }
  apply wp_returns in Hw as (r & s' & Hrun & -> & Hom & Hlm & Hin).
  exists s'. split; [exact Hrun|]. split; [by rewrite Hom|]. split; [by rewrite Hlm|].
  exact Hin.
Qed.

Lemma limit_order_opens_level_witness :
  exists s',
    PlaceLimitOrder false 102 5 two_sells = Ok (tick two_sells, None) s' /\
    omem s' = omem two_sells ++ [mkOrder (tick two_sells) 5 (tick two_sells) None] /\
    lmem s' = lmem two_sells ++
      [mkLimit 102 (fadd 0 5)
         (mkQueue (Some (length (omem two_sells))) (Some (length (omem two_sells))))] /\
    length (lmem two_sells) ∈ limitsOf false (ob s').
Proof.
  apply (limit_order_opens_level false 102 5 two_sells (201 # 2)).
  - eexists. reflexivity.
  - vm_compute; reflexivity.
  - vm_compute; reflexivity.
  - vm_compute; reflexivity.
Defined.

Lemma getMidPrice_empty s :
  BuyLimits (ob s) = [] \/ SellLimits (ob s) = [] ->
  getMidPrice s = Ok (0, Some ErrNoLimits) s.
Proof.
  intros H. unfold getMidPrice, mbind, M_bind, get_book.
  destruct H as [-> | ->]; [done|]. by destruct (BuyLimits (ob s)).
Qed.

Lemma wp_of_eq {A} (m : M A) a s s' (Q : A -> State -> Prop) E F :
  m s = Ok a s' -> Q a s' -> wp m Q E F s.
Proof. intros Hm HQ. unfold wp. by rewrite Hm. Qed.

Lemma state_of_then {A} (m : M A) s :
  state_of ((m;; mret tt) s) = state_of (m s).
Proof. unfold mbind, M_bind. by destruct (m s). Qed.

Lemma empty_call o s :
  (forall m, o <> OpInit m) ->
  BuyLimits (ob s) = [] -> SellLimits (ob s) = [] ->
  BuyLimits (ob (exec o s)) = [] /\ SellLimits (ob (exec o s)) = [].
Proof.
  intros Ho Hb Hs. unfold exec.
  destruct o as [m| |b p q|id p|b q|]; cbn [call]; rewrite ?state_of_then.
  - by destruct (Ho m).
  - done.
  - rewrite (PlaceLimitOrder_rejected b p q s 0 (Some ErrNoLimits) ErrNoLimits);
      [done| |done].
    apply getMidPrice_empty. by left.
  - unfold CancelLimitOrder, mbind, M_bind.
    by rewrite getMidPrice_empty by (by left).
  - unfold PlaceMarketOrder.
    destruct (fle q 0) eqn:Hq; [done|].
    unfold getTotalVolume, mbind, M_bind, get_book.
    assert (Hside : limitsOf (negb b) (ob s) = []) by (by destruct b).
    rewrite Hside. simpl.
    by rewrite (fle_intro 0 q) by (apply fle_false in Hq; lra).
  - done.
Qed.

(** X13.  As long as both slices are empty (after [New()] or
    [Reset()], before [Init]): a limit order returns the identifier
    drawn with the error "order-book as 0 buy or sell limits" and has
    only allocated its order cell; a cancellation returns the same
    error and a market order an error, and both change nothing; and
    whatever calls other than [Init] are made, the slices stay
    empty. *)
Theorem empty_book_refuses_orders s :
  BuyLimits (ob s) = [] -> SellLimits (ob s) = [] ->
  (forall b p q,
     PlaceLimitOrder b p q s = Ok (tick s, Some ErrNoLimits) (alloc_order q s)) /\
  (forall id p, CancelLimitOrder id p s = Ok (Some ErrNoLimits) s) /\
  (forall b q,
     PlaceMarketOrder b q s =
     Ok (Some (if fle q 0 then ErrMarketQuantity else ErrMarketVolume)) s) /\
  (forall ops, Forall (fun o => forall m, o <> OpInit m) ops ->
     BuyLimits (ob (run ops s)) = [] /\ SellLimits (ob (run ops s)) = []).
Proof.
  intros Hb Hs. split; [|split; [|split]].
  - intros b p q.
    apply (PlaceLimitOrder_rejected b p q s 0 (Some ErrNoLimits)); [|done].
    apply getMidPrice_empty. by left.
  - intros id p. unfold CancelLimitOrder, mbind, M_bind.
    by rewrite getMidPrice_empty by (by left).
  - intros b q. unfold PlaceMarketOrder.
    destruct (fle q 0) eqn:Hq; [done|].
    unfold getTotalVolume, mbind, M_bind, get_book.
    assert (Hside : limitsOf (negb b) (ob s) = []) by (by destruct b).
    rewrite Hside. simpl.
    by rewrite (fle_intro 0 q) by (apply fle_false in Hq; lra).
  - intros ops. induction ops as [|o ops IH] using rev_ind; intros Hops; [done|].
    apply Forall_app in Hops as [Hops Ho]. apply Forall_inv in Ho.
    rewrite run_snoc. destruct (IH Hops) as [Hb' Hs']. by apply empty_call.
Qed.

Lemma empty_book_refuses_orders_witness :
  (forall b p q,
     PlaceLimitOrder b p q New = Ok (tick New, Some ErrNoLimits) (alloc_order q New)) /\
  (forall id p, CancelLimitOrder id p New = Ok (Some ErrNoLimits) New) /\
  (forall b q,
     PlaceMarketOrder b q New =
     Ok (Some (if fle q 0 then ErrMarketQuantity else ErrMarketVolume)) New) /\
  (forall ops, Forall (fun o => forall m, o <> OpInit m) ops ->
     BuyLimits (ob (run ops New)) = [] /\ SellLimits (ob (run ops New)) = []).
Proof. apply (empty_book_refuses_orders New); reflexivity. Defined.

(** ** What [Init] adds and what [Reset] removes *)




(** ** Limit orders against the mid-price *)



(** X15.  A market order that reaches a limit whose queue has no
    front order panics on the [nil] front pointer, before it has
    changed anything: this happens when the order does not cover the
    cached volume of the first limit of the side and that limit has
    an empty queue, as it has after the cancellation of its last
    order followed by a new order at its price. *)
Theorem market_order_on_empty_queue_panics b q s total l0 rest lim :
  limitsOf (negb b) (ob s) = l0 :: rest ->
  lmem s !! l0 = Some lim ->
  q_front (l_orders lim) = None ->
  0 < q -> q < l_Volume lim ->
  getTotalVolume (negb b) s = Ok total s -> q < total ->
  PlaceMarketOrder b q s = Panic s.
Proof.
  intros Hls Hlim Hfront Hq HqV Htot Hqt.
  unfold PlaceMarketOrder. rewrite fle_intro_false by done.
  unfold mbind at 1, M_bind at 1. rewrite Htot. rewrite fle_intro_false by done.
  unfold mbind at 1, M_bind at 1, get_book at 1.
  unfold mbind at 1, M_bind at 1.
  rewrite (market_limits_skip (negb b) l0 rest _ q s lim Hls Hlim HqV).
  unfold mbind at 1, M_bind at 1, get_state at 1.
  unfold mbind at 1, M_bind at 1.
  assert (Hmo : forall fuel, market_orders fuel (negb b) q s = Panic s).
  { intros fuel. destruct fuel; cbn [market_orders];
      unfold mbind, M_bind, get_book, loadL, loadO; by rewrite Hls, Hlim, Hfront. }
  by rewrite Hmo.
Qed.

Lemma market_order_on_empty_queue_panics_witness :
  run [OpInit 100; OpLimit true 99 5; OpCancel 1 99; OpLimit true 99 3] New =
    state_of (cancel_then_place New) /\
  PlaceMarketOrder false 2 (state_of (cancel_then_place New)) =
    Panic (state_of (cancel_then_place New)).
Proof.
  split; [vm_compute; reflexivity|].
  apply (market_order_on_empty_queue_panics false 2 (state_of (cancel_then_place New))
           3 1%nat [] (mkLimit 99 3 (mkQueue (Some 2%nat) None))).
  - vm_compute; reflexivity.
  - vm_compute; reflexivity.
  - reflexivity.
  - reflexivity.
  - reflexivity.
  - vm_compute; reflexivity.
  - reflexivity.
Defined.

(** ** The loop of [CancelLimitOrder] over the slice *)

(** From the index [i] on, no limit of the backing array is at the
    price: the loop reads them and deletes nothing. *)
Lemma cancel_range_skip buy price : forall n i stale s,
  (forall j x, (i <= j < i + n)%nat ->
     (limitsOf buy (ob s) ++ stale) !! j = Some x ->
     (x < length (lmem s))%nat /\ feq (price_at (lmem s) x) price = false) ->
  (i + n <= length (limitsOf buy (ob s) ++ stale))%nat ->
  cancel_range buy price n i stale s = Ok tt s.
Proof.
  induction n as [|n IH]; intros i stale s Hno Hlen; [done|].
  cbn [cancel_range]. unfold mbind at 1, M_bind at 1, get_book at 1.
  destruct (lookup_lt_is_Some_2 (limitsOf buy (ob s) ++ stale) i) as [x Hx]; [lia|].
  destruct (Hno i x ltac:(lia) Hx) as [Hal Hne].
  destruct (lookup_lt_is_Some_2 (lmem s) x Hal) as [lim Hlim].
  unfold mbind at 1, M_bind at 1, loadL at 1. rewrite Hx, Hlim.
  unfold price_at in Hne. rewrite Hlim in Hne. rewrite Hne.
  unfold mbind at 1, M_bind at 1, mret at 1, M_ret at 1.
  apply IH; [|lia]. intros j y Hj. apply Hno. lia.
Qed.

(** One limit of the slice is at the price, and it is the only one:
    the loop deletes it and nothing else. *)
Lemma cancel_range_unique buy price a s : forall n i,
  book_ok s -> NoDup (limitsOf buy (ob s)) ->
  (i + n = length (limitsOf buy (ob s)))%nat ->
  a ∈ drop i (limitsOf buy (ob s)) ->
  feq (price_at (lmem s) a) price = true ->
  (forall x, x ∈ limitsOf buy (ob s) ->
     feq (price_at (lmem s) x) price = true -> x = a) ->
  exists k lst,
    limitsOf buy (ob s) !! k = Some a /\
    last (limitsOf buy (ob s)) = Some lst /\
    cancel_range buy price n i [] s =
    Ok tt (put_book
             (with_limits buy
                (sorted_of buy (lmem s)
                   (take (length (limitsOf buy (ob s)) - 1)
                      (<[k := lst]> (limitsOf buy (ob s)))))
                (with_map buy (map_delete (mapOf buy (ob s)) price) (ob s))) s).
Proof.
  set (ls := limitsOf buy (ob s)).
  induction n as [|n IH]; intros i Hok Hnd Hlen Ha Hmatch Huniq.
  { rewrite drop_ge in Ha by lia. by apply elem_of_nil in Ha. }
  destruct (lookup_lt_is_Some_2 ls i) as [x Hx]; [lia|].
  assert (Hxin : x ∈ ls) by (by eapply list_elem_of_lookup_2).
  destruct (lookup_lt_is_Some_2 (lmem s) x (Hok buy x Hxin)) as [lim Hlim].
  destruct (last ls) as [lst|] eqn:Hlast.
  2: { apply last_None in Hlast. rewrite Hlast in Hx. by rewrite lookup_nil in Hx. }
  cbn [cancel_range]. unfold mbind at 1, M_bind at 1, get_book at 1.
  fold ls. rewrite app_nil_r.
  unfold mbind at 1, M_bind at 1, loadL at 1. rewrite Hx, Hlim.
  destruct (feq (l_Price lim) price) eqn:Hp.
  - assert (x = a) as ->.
    { apply Huniq; [done|]. unfold price_at. by rewrite Hlim. }
    exists i, lst. split; [done|]. split; [done|].
    assert (Hpos : (i < length ls)%nat) by lia.
    unfold mbind at 1, M_bind at 1. unfold mbind at 1, M_bind at 1.
    rewrite (deleteLimit_eq buy i price s lst (Hok buy) Hlast Hpos). fold ls.
    unfold mret at 1, M_ret at 1. rewrite Hlast.
    set (s1 := put_book _ s).
    assert (Hperm : limitsOf buy (ob s1) ≡ₚ delete i ls).
    { unfold s1. cbn [ob put_book]. rewrite limitsOf_with_limits, Bool.eqb_reflx.
      by rewrite sorted_of_perm, take_insert_last_perm. }
    assert (Hnotin : a ∉ delete i ls).
    { destruct (list_elem_of_split_length ls i a Hx) as (l1 & l2 & Heq & Hi).
      rewrite Heq, Hi, delete_middle. rewrite Heq in Hnd.
      apply NoDup_app in Hnd as (_ & Hd & Hnd2). apply NoDup_cons in Hnd2 as [Hn2 _].
      intros [H1|H2]%elem_of_app; [apply (Hd a H1); by left|done]. }
    apply cancel_range_skip.
    + intros j y Hj Hy.
      assert (Hlen1 : length (limitsOf buy (ob s1)) = (length ls - 1)%nat).
      { rewrite (Permutation_length Hperm), length_delete by eauto. done. }
      assert (Hyin : y ∈ ls /\ y <> a).
      { apply lookup_app_Some in Hy as [Hy|[Hge Hy]].
        - apply list_elem_of_lookup_2 in Hy. rewrite Hperm in Hy. split.
          + by eapply list_elem_of_delete_inv.
          + by intros ->.
        - apply list_lookup_singleton_Some in Hy as [_ <-]. split.
          + by apply last_Some_elem_of.
          + intros ->. apply last_Some in Hlast as [l' Hl'].
            assert (Hk : ls !! (length ls - 1)%nat = Some a).
            { rewrite Hl', length_app. simpl.
              by rewrite Nat.add_sub, lookup_app_r, Nat.sub_diag by done. }
            pose proof (NoDup_lookup ls i (length ls - 1) a Hnd Hx Hk). lia. }
      destruct Hyin as [Hyin Hya]. split; [by apply (Hok buy)|].
      change (lmem s1) with (lmem s).
      destruct (feq (price_at (lmem s) y) price) eqn:Hfy; [|done].
      by destruct (Hya (Huniq y Hyin Hfy)).
    + rewrite length_app, (Permutation_length Hperm), length_delete by eauto.
      simpl. lia.
  - assert (Hxa : x <> a).
    { intros ->. unfold price_at in Hmatch. rewrite Hlim in Hmatch. congruence. }
    unfold mbind at 1, M_bind at 1, mret at 1, M_ret at 1.
    apply (IH (S i)); try done; [lia|].
    rewrite (drop_S ls x i Hx) in Ha.
    by apply elem_of_cons in Ha as [->|Ha].
Qed.

(** X17.  In a state of a process started with [New()], the
    cancellation of an order that is in the queue of the limit that
    the map of the side gives at the price, this limit being in the
    slice and the only one of the slice at that price: the call
    returns no error, the order leaves the queue, the other orders
    keep their order, the cached volume goes down by the quantity
    left of the order; and when the volume is then zero and the side
    has another limit, the limit is removed from the slice and from
    the map of the side, the slice staying in order, and the slice of
    the other side holds the same limits as before; otherwise the
    book is left as it was.  The cell of the limit has changed in
    either case: a limit that is in both slices, as the one of [Init]
    is, shows its new queue and volume on the other side too. *)
Theorem cancel_removes_order_and_empty_level id price s mid a lim pre c oc post :
  reachable s ->
  getMidPrice s = Ok (mid, None) s ->
  map_get (mapOf (flt price mid) (ob s)) price = Some a ->
  lmem s !! a = Some lim ->
  feq (l_Price lim) price = true ->
  a ∈ limitsOf (flt price mid) (ob s) ->
  (forall x, x ∈ limitsOf (flt price mid) (ob s) ->
     feq (price_at (lmem s) x) price = true -> x = a) ->
  chain (omem s) (q_front (l_orders lim)) (pre ++ c :: post) ->
  (forall x o, x ∈ pre -> omem s !! x = Some o -> o_id o <> id) ->
  omem s !! c = Some oc -> o_id oc = id ->
  exists s' lim',
    CancelLimitOrder id price s = Ok None s' /\
    lmem s' !! a = Some lim' /\
    chain (omem s') (q_front (l_orders lim')) (pre ++ post) /\
    l_Volume lim' = fsub (l_Volume lim) (o_qty oc) /\
    if Nat.ltb 1 (length (limitsOf (flt price mid) (ob s))) && feq (l_Volume lim') 0
    then
      limitsOf (flt price mid) (ob s) ≡ₚ a :: limitsOf (flt price mid) (ob s') /\
      slice_ordered (flt price mid) s' /\
      map_get (mapOf (flt price mid) (ob s')) price = None /\
      limitsOf (negb (flt price mid)) (ob s') = limitsOf (negb (flt price mid)) (ob s)
    else ob s' = ob s.
Proof.
  intros Hr Hmid Hget Ha Hprice Hin Huniq Hch Hpre Hc Hid.
  set (side := flt price mid) in *.
  destruct (reachable_good s Hr) as (Hok & _ & _ & Hnd).
  destruct (deleteOrder_spec a lim id pre c oc post s Ha Hch Hpre Hc Hid)
    as (om' & f' & Hdel & Hch' & _).
  set (lim1 := mkLimit (l_Price lim) (fsub (l_Volume lim) (o_qty oc))
                 (mkQueue (q_rear (l_orders lim)) f')) in *.
  set (s1 := mkState om' (<[a := lim1]> (lmem s)) (tick s) (ob s)) in *.
  assert (Hal : (a < length (lmem s))%nat) by (by eapply lookup_lt_Some).
  assert (Ha1 : lmem s1 !! a = Some lim1) by (by apply list_lookup_insert_eq).
  assert (Hsb : same_book s s1).
  { unfold same_book, s1. cbn [lmem ob]. repeat split; try reflexivity.
    by eapply prices_insert. }
  assert (Hok1 : book_ok s1).
  { intros buy x Hx. rewrite (same_book_length s s1 Hsb). by apply (Hok buy). }
  assert (Hw : wp (CancelLimitOrder id price)
    (fun r s' =>
       r = None /\ omem s' = om' /\ lmem s' = lmem s1 /\
       if Nat.ltb 1 (length (limitsOf side (ob s))) && feq (l_Volume lim1) 0
       then limitsOf side (ob s) ≡ₚ a :: limitsOf side (ob s') /\
            slice_ordered side s' /\
            map_get (mapOf side (ob s')) price = None /\
            limitsOf (negb side) (ob s') = limitsOf (negb side) (ob s)
       else ob s' = ob s)
    (fun _ => False) (fun _ => False) s).
  { unfold CancelLimitOrder. eapply wp_bind_eq; [exact Hmid|]. cbn beta iota.
    apply wp_bind, wp_get_book. fold side. rewrite Hget.
    eapply wp_bind_eq; [exact Hdel|].
    apply wp_bind, wp_get_book. change (ob s1) with (ob s).
    apply wp_bind. unfold canDeleteLimit.
    destruct (Nat.ltb 1 (length (limitsOf side (ob s)))) eqn:Hlen; simpl andb.
    - rewrite Hget. eapply wp_bind, wp_loadL_at; [exact Ha1|]. apply wp_ret.
      cbn [l_Volume lim1].
      destruct (feq (fsub (l_Volume lim) (o_qty oc)) 0) eqn:Hz.
      + apply wp_bind.
        assert (Hm1 : feq (price_at (lmem s1) a) price = true).
        { unfold price_at. rewrite Ha1. exact Hprice. }
        assert (Hu1 : forall x, x ∈ limitsOf side (ob s1) ->
                  feq (price_at (lmem s1) x) price = true -> x = a).
        { intros x Hx Hfx. apply Huniq; [done|].
          by rewrite <- (same_book_price s s1 x Hsb). }
        destruct (cancel_range_unique side price a s1
                    (length (limitsOf side (ob s))) 0 Hok1 (Hnd side) eq_refl Hin Hm1 Hu1)
          as (k & lst & Hk & Hlast & Hrun).
        change (ob s1) with (ob s) in Hrun, Hk, Hlast.
        eapply wp_of_eq; [exact Hrun|]. apply wp_ret.
        split; [done|]. split; [done|]. split; [done|].
        cbn [ob put_book lmem].
        rewrite limitsOf_with_limits, Bool.eqb_reflx, mapOf_with_limits,
          mapOf_with_map, Bool.eqb_reflx.
        assert (Hpos : (k < length (limitsOf side (ob s)))%nat)
          by (by eapply lookup_lt_Some).
        split; [|split; [|split]].
        * rewrite sorted_of_perm, (take_insert_last_perm _ _ _ Hlast Hpos).
          by apply delete_Permutation.
        * unfold slice_ordered. cbn [ob put_book lmem].
          rewrite limitsOf_with_limits, Bool.eqb_reflx. apply sorted_of_ordered.
        * apply map_get_delete_eq.
        * by destruct side.
      + apply wp_bind, wp_ret, wp_ret. by repeat split.
    - apply wp_ret, wp_bind, wp_ret, wp_ret. by repeat split. }
  apply wp_returns in Hw as (r & s' & Hrun & -> & Hom & Hlm & Hbook).
  exists s', lim1. split; [exact Hrun|]. split; [by rewrite Hlm|].
  split; [by rewrite Hom|]. split; [done|]. exact Hbook.
Qed.

Lemma cancel_removes_order_and_empty_level_witness :
  exists s' lim',
    CancelLimitOrder 1 101 two_levels = Ok None s' /\
    lmem s' !! 1%nat = Some lim' /\
    chain (omem s') (q_front (l_orders lim')) ([] ++ []) /\
    l_Volume lim' =
      fsub (l_Volume (mkLimit 101 2 (mkQueue (Some 1%nat) (Some 1%nat))))
           (o_qty (mkOrder 1 2 1 None)) /\
    if Nat.ltb 1 (length (limitsOf (flt 101 (201 # 2)) (ob two_levels)))
       && feq (l_Volume lim') 0
    then
      limitsOf (flt 101 (201 # 2)) (ob two_levels) ≡ₚ
        1%nat :: limitsOf (flt 101 (201 # 2)) (ob s') /\
      slice_ordered (flt 101 (201 # 2)) s' /\
      map_get (mapOf (flt 101 (201 # 2)) (ob s')) 101 = None /\
      limitsOf (negb (flt 101 (201 # 2))) (ob s') =
        limitsOf (negb (flt 101 (201 # 2))) (ob two_levels)
    else ob s' = ob two_levels.
Proof.
  apply (cancel_removes_order_and_empty_level 1 101 two_levels (201 # 2) 1%nat
           (mkLimit 101 2 (mkQueue (Some 1%nat) (Some 1%nat)))
           [] 1%nat (mkOrder 1 2 1 None) []).
  - eexists. reflexivity.
  - vm_compute; reflexivity.
  - vm_compute; reflexivity.
  - vm_compute; reflexivity.
  - reflexivity.
  - vm_compute. by left.
  - intros x Hx Hfx. vm_compute in Hx.
    apply elem_of_cons in Hx as [->|Hx]; [done|].
    apply list_elem_of_singleton in Hx. subst x. vm_compute in Hfx. discriminate.
  - apply (chain_cons _ 1%nat (mkOrder 1 2 1 None)); [vm_compute; reflexivity|].
    apply chain_nil.
  - intros x o Hx%elem_of_nil. destruct Hx.
  - vm_compute; reflexivity.
  - reflexivity.
Defined.

(** X19.  After an [Init] that returned, calls other than market
    orders and [Reset] ([PlaceLimitOrder], [CancelLimitOrder], [Init],
    [GetData]) never empty a side, whether they return, report an
    error or panic: each side holds at least one limit after each of
    them.  These calls remove a limit only behind [canDeleteLimit],
    or panic in [deleteLimit] before the slice has changed. *)
Theorem calls_other_than_market_orders_keep_sides m s s1 ops k :
  Init m s = Ok tt s1 ->
  Forall (fun o => o <> OpReset /\ forall b q, o <> OpMarket b q) ops ->
  sides_nonempty (run (take k ops) s1).
Proof.
  intros HInit Hops. apply sides_nonempty_len, two_sides_run.
  - apply Forall_take, Hops.
  - pose proof (two_sides_Init m s) as H. unfold wp in H. by rewrite HInit in H.
Qed.

Lemma calls_other_than_market_orders_keep_sides_witness :
  Init 100 New = Ok tt initial_book /\
  sides_nonempty
    (run (take 4 [OpLimit true 99 5; OpLimit false 101 3; OpCancel 1 99;
                  OpCancel 7 50; OpInit 50; OpData]) initial_book).
Proof.
  split; [vm_compute; reflexivity|].
  apply (calls_other_than_market_orders_keep_sides 100 New initial_book
           [OpLimit true 99 5; OpLimit false 101 3; OpCancel 1 99;
            OpCancel 7 50; OpInit 50; OpData] 4).
  - vm_compute; reflexivity.
  - repeat constructor; discriminate.
Defined.


